(** * tfm-images-shop-parser-byAmr: the asset downloader

    A shallow embedding of [tfm-images-shop-parser-byAmr.py] and the
    properties of its fetch-and-persist engine.

    Conventions of the embedding.
    - A Python [str] is a Rocq [string] holding its UTF-8 encoding; a Python
      [bytes] is a [string] too (one [ascii] per byte).
    - A coroutine is a tree of I/O calls ([prog]): every call to the network,
      to the filesystem or to [print] is a node whose children are indexed by
      what the environment answers.  Exceptions are values ([result]).
    - [os.path] is [posixpath]. *)

From stdpp Require Import gmap strings list.
From Stdlib Require Import Ascii String ZArith Lia.

Open Scope string_scope.
Open Scope nat_scope.

(** ** Python built-ins on [str] *)

Module Str.

Definition is_char (c : ascii) (a : ascii) : bool := Ascii.eqb a c.

(** [s.startswith(pre)] *)
Fixpoint startswith (pre s : string) : bool :=
  match pre, s with
  | "", _ => true
  | String a pre', String b s' => Ascii.eqb a b && startswith pre' s'
  | String _ _, "" => false
  end.

(** [s.endswith(c)] for a one-character [c] *)
Fixpoint endswith (c : ascii) (s : string) : bool :=
  match s with
  | "" => false
  | String a "" => is_char c a
  | String _ s' => endswith c s'
  end.

(** [s.lstrip(c)] for a one-character [c] *)
Fixpoint lstrip (c : ascii) (s : string) : string :=
  match s with
  | String a s' => if is_char c a then lstrip c s' else s
  | "" => ""
  end.

(** [s[1:]] *)
Definition tail (s : string) : string :=
  match s with String _ s' => s' | "" => "" end.

(** [s.split(sep)] for a one-character [sep]: never the empty list *)
Fixpoint split (sep : ascii) (s : string) : list string :=
  match s with
  | "" => [""]
  | String a s' =>
      if is_char sep a then "" :: split sep s'
      else match split sep s' with
           | h :: t => String a h :: t
           | [] => [String a ""]
           end
  end.

(** [c in s] *)
Fixpoint contains (c : ascii) (s : string) : bool :=
  match s with
  | "" => false
  | String a s' => is_char c a || contains c s'
  end.

(** [s.split(sep, 1)] when [sep in s]: the text before and after the first
    [sep]; [(s, "")] when there is none *)
Fixpoint partition (sep : ascii) (s : string) : string * string :=
  match s with
  | "" => ("", "")
  | String a s' =>
      if is_char sep a then ("", s')
      else let '(h, t) := partition sep s' in (String a h, t)
  end.

(** [s.rstrip(c)] for a one-character [c] *)
Fixpoint rstrip (c : ascii) (s : string) : string :=
  match s with
  | "" => ""
  | String a s' =>
      match rstrip c s' with
      | "" => if is_char c a then "" else String a ""
      | r => String a r
      end
  end.

(** [(s[:i], s[i:])] at the first character satisfying [P], [(s, "")] when
    there is none *)
Fixpoint cut (P : ascii -> bool) (s : string) : string * string :=
  match s with
  | "" => ("", "")
  | String c s' =>
      if P c then ("", s)
      else let '(h, t) := cut P s' in (String c h, t)
  end.

(** [(s[:i], s[i:])] with [i = s.rfind(c) + 1] *)
Fixpoint rcut (c : ascii) (s : string) : string * string :=
  match s with
  | "" => ("", "")
  | String a s' =>
      let '(h, t) := rcut c s' in
      if contains c s' then (String a h, t)
      else if is_char c a then (String a "", s')
      else ("", s)
  end.

(** ['/' * j] *)
Fixpoint slashes (j : nat) : string :=
  match j with 0 => "" | S k => String "/" (slashes k) end.

Definition all_chars (P : ascii -> bool) (s : string) : bool :=
  forallb P (list_ascii_of_string s).

End Str.

(** ** Exceptions

    An exception is recorded by the classes the script tests it against
    ([except aiohttp.ClientError], [except OSError], [except
    json.JSONDecodeError]); every exception modelled here derives from
    [Exception] (those that do not, such as [asyncio.CancelledError], are in
    the module [Full]).  One exception may belong to several classes:
    aiohttp's connection errors derive from both [ClientError] and
    [OSError]. *)

Record exn := mk_exn {
  is_ClientError : bool;
  is_OSError : bool;
  is_JSONDecodeError : bool;
  exn_text : string
}.

Definition ValueError (msg : string) : exn := mk_exn false false false msg.
Definition IndexError (msg : string) : exn := mk_exn false false false msg.

Inductive result (A : Type) : Type :=
| Ok (a : A)
| Raise (e : exn).
Arguments Ok {A} a.
Arguments Raise {A} e.

Definition result_bind {A B} (r : result A) (f : A -> result B) : result B :=
  match r with
  | Ok a => f a
  | Raise e => Raise e
  end.

Notation "'let?' x ':=' r 'in' k" := (result_bind r (fun x => k))
  (at level 10, x name, r at level 100, k at level 200).

(** [l[0]] *)
Definition index0 {A} (l : list A) : result A :=
  match l with
  | x :: _ => Ok x
  | [] => Raise (IndexError "list index out of range")
  end.

(** ** [bytes.decode('utf-8', errors)] *)

Module Utf8.

Inductive errors := Replace | Ignore.

(** What the error handler leaves for one ill-formed subsequence: U+FFFD
    (encoded EF BF BD) or nothing. *)
Definition mark (h : errors) (rest : string) : string :=
  match h with
  | Replace =>
      String (ascii_of_nat 239) (String (ascii_of_nat 191) (String (ascii_of_nat 189) rest))
  | Ignore => rest
  end.

Definition cont (c : ascii) : bool :=
  (128 <=? nat_of_ascii c) && (nat_of_ascii c <? 192).

(** The decoder reports an invalid start byte (one byte), an invalid
    continuation byte (the bytes accepted so far) or an unexpected end of
    data (everything left); the handler is applied to that span and
    decoding resumes after it. *)
Fixpoint decode (h : errors) (s : string) : string :=
  match s with
  | "" => ""
  | String c1 r1 =>
      let b1 := nat_of_ascii c1 in
      if b1 <? 128 then String c1 (decode h r1)
      else if b1 <? 194 then mark h (decode h r1)
      else if b1 <? 224 then
        match r1 with
        | "" => mark h ""
        | String c2 r2 =>
            if cont c2 then String c1 (String c2 (decode h r2))
            else mark h (decode h r1)
        end
      else if b1 <? 240 then
        match r1 with
        | "" => mark h ""
        | String c2 r2 =>
            if negb (cont c2)
               || (if nat_of_ascii c2 <? 160 then b1 =? 224 else b1 =? 237)
            then mark h (decode h r1)
            else match r2 with
                 | "" => mark h ""
                 | String c3 r3 =>
                     if cont c3
                     then String c1 (String c2 (String c3 (decode h r3)))
                     else mark h (decode h r2)
                 end
        end
      else if b1 <? 245 then
        match r1 with
        | "" => mark h ""
        | String c2 r2 =>
            if negb (cont c2)
               || (if nat_of_ascii c2 <? 144 then b1 =? 240 else b1 =? 244)
            then mark h (decode h r1)
            else match r2 with
                 | "" => mark h ""
                 | String c3 r3 =>
                     if negb (cont c3) then mark h (decode h r2)
                     else match r3 with
                          | "" => mark h ""
                          | String c4 r4 =>
                              if cont c4
                              then String c1 (String c2 (String c3 (String c4 (decode h r4))))
                              else mark h (decode h r3)
                          end
                 end
        end
      else mark h (decode h r1)
  end.

End Utf8.

(** ** [urllib.parse] *)

Module Urllib.

Definition hexval (c : ascii) : option nat :=
  let n := nat_of_ascii c in
  if (48 <=? n) && (n <=? 57) then Some (n - 48)
  else if (65 <=? n) && (n <=? 70) then Some (n - 55)
  else if (97 <=? n) && (n <=? 102) then Some (n - 87)
  else None.

(** [unquote_to_bytes]: every [%XX] with two hexadecimal digits becomes the
    byte it names; any other [%] stays. *)
Fixpoint unquote_to_bytes (s : string) : string :=
  match s with
  | "" => ""
  | String c s1 =>
      if Str.is_char "%" c then
        match s1 with
        | String h1 (String h2 s3) =>
            match hexval h1, hexval h2 with
            | Some a, Some b => String (ascii_of_nat (16 * a + b)) (unquote_to_bytes s3)
            | _, _ => String c (unquote_to_bytes s1)
            end
        | _ => String c (unquote_to_bytes s1)
        end
      else String c (unquote_to_bytes s1)
  end.

(** [unquote(s)], with its defaults [encoding='utf-8', errors='replace'] *)
Definition unquote (s : string) : string :=
  Utf8.decode Utf8.Replace (unquote_to_bytes s).

Record ParseResult := mkParseResult {
  scheme : string;
  netloc : string;
  path : string;
  params : string;
  query : string;
  fragment : string
}.

Definition is_alpha (c : ascii) : bool :=
  let n := nat_of_ascii c in
  ((65 <=? n) && (n <=? 90)) || ((97 <=? n) && (n <=? 122)).

Definition scheme_char (c : ascii) : bool :=
  let n := nat_of_ascii c in
  is_alpha c || ((48 <=? n) && (n <=? 57))
  || Str.is_char "+" c || Str.is_char "-" c || Str.is_char "." c.

Definition lower_char (c : ascii) : ascii :=
  let n := nat_of_ascii c in
  if (65 <=? n) && (n <=? 90) then ascii_of_nat (n + 32) else c.

Fixpoint lower (s : string) : string :=
  match s with
  | "" => ""
  | String c s' => String (lower_char c) (lower s')
  end.

(** leading C0 control characters and spaces are dropped *)
Fixpoint lstrip_c0 (s : string) : string :=
  match s with
  | String c s' => if nat_of_ascii c <=? 32 then lstrip_c0 s' else s
  | "" => ""
  end.

(** tab, line feed and carriage return are removed everywhere *)
Fixpoint remove_unsafe (s : string) : string :=
  match s with
  | "" => ""
  | String c s' =>
      let n := nat_of_ascii c in
      if (n =? 9) || (n =? 10) || (n =? 13) then remove_unsafe s'
      else String c (remove_unsafe s')
  end.

Definition split_scheme (url : string) : string * string :=
  match url with
  | String c0 _ =>
      if Str.contains ":" url then
        let '(pre, rest) := Str.partition ":" url in
        if negb (String.eqb pre "") && is_alpha c0 && Str.all_chars scheme_char pre
        then (lower pre, rest)
        else ("", url)
      else ("", url)
  | "" => ("", url)
  end.

Definition netloc_delim (c : ascii) : bool :=
  Str.is_char "/" c || Str.is_char "?" c || Str.is_char "#" c.

Definition uses_params : list string :=
  [""; "ftp"; "hdl"; "prospero"; "http"; "imap"; "https"; "shttp"; "rtsp";
   "rtspu"; "sip"; "sips"; "mms"; "sftp"; "tel"].

Definition splitparams (url : string) : string * string :=
  let '(head, last) := Str.rcut "/" url in
  if Str.contains ";" last
  then let '(b, a) := Str.partition ";" last in (head ++ b, a)
  else (url, "").

(** [urlparse(url)], after CPython 3.12.  The only failure modelled is the
    [ValueError] for a network location with an unmatched square
    bracket. *)
Definition urlparse (url : string) : result ParseResult :=
  let url := remove_unsafe (lstrip_c0 url) in
  let '(scheme, url) := split_scheme url in
  let '(netloc, url) :=
    if Str.startswith "//" url
    then Str.cut netloc_delim (Str.tail (Str.tail url))
    else ("", url) in
  if xorb (Str.contains "[" netloc) (Str.contains "]" netloc)
  then Raise (ValueError "Invalid IPv6 URL")
  else
    let '(url, fragment) :=
      if Str.contains "#" url then Str.partition "#" url else (url, "") in
    let '(url, query) :=
      if Str.contains "?" url then Str.partition "?" url else (url, "") in
    let '(url, params) :=
      if bool_decide (scheme ∈ uses_params) && Str.contains ";" url
      then splitparams url else (url, "") in
    Ok (mkParseResult scheme netloc url params query fragment).

End Urllib.

(** ** [os.path] (posixpath) *)

Module Posixpath.

(** [os.path.join(a, b)] *)
Definition join (a b : string) : string :=
  if Str.startswith "/" b then b
  else if String.eqb a "" || Str.endswith "/" a then a ++ b
  else a ++ "/" ++ b.

(** [os.path.dirname(p)] *)
Definition dirname (p : string) : string :=
  let head := fst (Str.rcut "/" p) in
  if negb (String.eqb head "") && negb (Str.all_chars (Str.is_char "/") head)
  then Str.rstrip "/" head
  else head.

(** [os.path.basename(p)] *)
Definition basename (p : string) : string := snd (Str.rcut "/" p).

End Posixpath.

(** ** The path mapper of [download_item] (lines 25-37) *)

(** lines 27-37, from [parsed_url.path] on *)
Definition path_to_local (base_folder path : string) : result string :=
  let? first := index0 (Str.split "?" path) in
  let path_without_query := Urllib.unquote first in
  let path_without_query :=
    if Str.startswith "/" path_without_query
    then Str.tail path_without_query
    else path_without_query in
  Ok (Posixpath.join base_folder path_without_query).

Definition local_filepath_of (base_folder url : string) : result string :=
  let? parsed_url := Urllib.urlparse url in
  path_to_local base_folder (Urllib.path parsed_url).

(** The steps of the path mapper in the words of the specification, to be
    compared with [path_to_local]. *)
Module MapperSpec.

(** everything from the first query delimiter onward is dropped *)
Definition strip_query (s : string) : string :=
  fst (Str.cut (Str.is_char "?") s).

(** exactly one leading path separator is dropped, if there is one *)
Definition strip_one_separator (s : string) : string :=
  match s with
  | String c s' => if Str.is_char "/" c then s' else s
  | "" => ""
  end.

Definition relative_path (path : string) : string :=
  strip_one_separator (Urllib.unquote (strip_query path)).

End MapperSpec.

Definition BASE_DOWNLOAD_FOLDER : string := "TFM_DOWNLOADED_ASSETS".

(** ** Python values, as [json.loads] builds them *)

#[local] Set Warnings "-register-all".
Inductive pyval :=
| PyNone
| PyBool (b : bool)
| PyInt (n : Z)
| PyFloat (repr : string)
| PyStr (s : string)
| PyList (items : list pyval)
| PyDict (items : list (string * pyval)).   (* in insertion order *)

(** ** What [print] writes

    One constructor per [print] statement of the script, carrying the values
    the f-string interpolates. *)

Inductive line :=
(* download_item *)
| INFO_Processing (url : string)
| Creating_directory (local_dir : string)
| SKIP_matches (local_filepath : string)
| WARN_differs (local_filepath : string)
| WARN_unreadable (local_filepath : string) (e_read : exn)
| SAVE_Saved (basename local_dir : string)
| ERROR_404 (url : string)
| ERROR_status (url : string) (status : Z)
| NETWORK_ERROR (url : string) (e : exn)
| OS_ERROR (url local_filepath : string) (e : exn)
| UNEXPECTED_ERROR (url : string) (e : exn)
| Traceback (e : exn)
(* start_downloads *)
| Title
| Using_combined_list
| Files_will_be_saved_to (abspath : string)
| Blank
| INFO_Created_base (folder : string)
| Section_header (title : string)
| INFO_Fetching (php_url : string)
| ERROR_json_structure (php_url : string) (data : pyval)
| WARN_non_string (p_url : pyval)
| ERROR_json_decode (php_url content200 : string)
| ERROR_processing (php_url : string) (e : exn)
| ERROR_fetch_status (php_url : string) (status : Z)
| ERROR_connect (php_url : string) (e : exn)
| Added_urls (n : nat)
| INFO_Starting (n : nat)
| INFO_No_items
| Finished.

(** ** Calls to the outside world

    Each call is answered by the environment.  A call that can raise is
    answered by a [result]; [os.path.exists] always returns, and so does
    [print] here, on a console that accepts every line (the module [Full]
    is the script on one that does not). *)

Inductive call :=
| Print (l : line)
| SessionGet (url : string)          (* [async with session.get(url) as resp]: [resp.status] *)
| RespRead (url : string)            (* [await resp.read()] *)
| PathExists (p : string)            (* [os.path.exists(p)] *)
| Makedirs (p : string) (exist_ok : bool)   (* [os.makedirs(p, exist_ok=...)] *)
| ReadFile (p : string)              (* [aiofiles.open(p, 'rb')] and [read()] *)
| WriteFile (p : string) (data : string)    (* [aiofiles.open(p, 'wb')] and [write(data)] *)
| Abspath (p : string)               (* [os.path.abspath(p)] *)
| Input (prompt : string).           (* [input(prompt)] *)

Definition reply (c : call) : Type :=
  match c with
  | Print _ => unit
  | SessionGet _ => result Z
  | RespRead _ => result string
  | PathExists _ => bool
  | Makedirs _ _ => result unit
  | ReadFile _ => result string
  | WriteFile _ _ => result unit
  | Abspath _ => result string
  | Input _ => result string
  end.

(** A coroutine: the tree of the calls it makes. *)
Inductive prog (A : Type) : Type :=
| Ret (a : A)
| Do (c : call) (k : reply c -> prog A).
Arguments Ret {A} a.
Arguments Do {A} c k.

Fixpoint bind {A B} (p : prog A) (f : A -> prog B) : prog B :=
  match p with
  | Ret a => f a
  | Do c k => Do c (fun r => bind (k r) f)
  end.

(** ** The body of a Python function

    [M V A] threads the local variables [V] that an exception handler can
    still read, and ends in a value or in a raised exception. *)

Definition M (V A : Type) : Type := V -> prog (V * result A).

Definition ret {V A} (a : A) : M V A := fun v => Ret (v, Ok a).

Definition raise {V A} (e : exn) : M V A := fun v => Ret (v, Raise e).

Definition mbind {V A B} (m : M V A) (f : A -> M V B) : M V B :=
  fun v => bind (m v) (fun '(v', r) =>
    match r with
    | Ok a => f a v'
    | Raise e => Ret (v', Raise e)
    end).

Notation "'let!' x ':=' m 'in' k" := (mbind m (fun x => k))
  (at level 10, x name, m at level 100, k at level 200).
Notation "'do!' m 'in' k" := (mbind m (fun _ => k))
  (at level 10, m at level 100, k at level 200).

(** [try: body  except Exception as e: handler e] *)
Definition try_except {V A} (body : M V A) (handler : exn -> M V A) : M V A :=
  fun v => bind (body v) (fun '(v', r) =>
    match r with
    | Ok a => Ret (v', Ok a)
    | Raise e => handler e v'
    end).

(** a call that always returns *)
Definition total {V} (c : call) : M V (reply c) :=
  fun v => Do c (fun r => Ret (v, Ok r)).

(** a call that returns or raises *)
Definition partial {V A} (c : call) (cast : reply c -> result A) : M V A :=
  fun v => Do c (fun r => Ret (v, cast r)).

(** a pure computation that may raise *)
Definition pure {V A} (r : result A) : M V A := fun v => Ret (v, r).

(** assignment to the local variable *)
Definition assign {V} (v : V) : M V unit := fun _ => Ret (v, Ok tt).

Definition print {V} (l : line) : M V unit := total (Print l).
Definition session_get {V} (url : string) : M V Z := partial (SessionGet url) id.
Definition resp_read {V} (url : string) : M V string := partial (RespRead url) id.
Definition os_path_exists {V} (p : string) : M V bool := total (PathExists p).
Definition os_makedirs {V} (p : string) (exist_ok : bool) : M V unit :=
  partial (Makedirs p exist_ok) id.
Definition read_file {V} (p : string) : M V string := partial (ReadFile p) id.
Definition write_file {V} (p data : string) : M V unit := partial (WriteFile p data) id.

(** ** [download_item]

    The local variable a handler reads is [local_filepath].  The [return] of
    line 53 is the [true] that the comparison block hands back. *)

Definition compare_existing (local_filepath content_to_write : string)
  : M string bool :=
  try_except
    (let! existing_content := read_file local_filepath in
     if String.eqb existing_content content_to_write
     then do! print (SKIP_matches local_filepath) in ret true
     else do! print (WARN_differs local_filepath) in ret false)
    (fun e_read =>
       do! print (WARN_unreadable local_filepath e_read) in ret false).

(** lines 41-43 *)
Definition ensure_parent (local_dir : string) : M string unit :=
  let! dir_exists := os_path_exists local_dir in
  if negb dir_exists
  then do! print (Creating_directory local_dir) in
       os_makedirs local_dir true
  else ret tt.

(** lines 47-61 *)
Definition store (local_filepath content_to_write local_dir : string)
  : M string unit :=
  let! file_exists := os_path_exists local_filepath in
  let! returned :=
    (if file_exists
     then compare_existing local_filepath content_to_write
     else ret false) in
  if (returned : bool) then ret tt
  else
    do! write_file local_filepath content_to_write in
    print (SAVE_Saved (Posixpath.basename local_filepath) local_dir).

(** The content store: lines 39-61. *)
Definition persist (local_filepath content_to_write : string) : M string unit :=
  let local_dir := Posixpath.dirname local_filepath in
  do! ensure_parent local_dir in
  store local_filepath content_to_write local_dir.

Definition on_status_200 (url base_folder : string) : M string unit :=
  let! content_to_write := resp_read url in
  let! local_filepath := pure (local_filepath_of base_folder url) in
  do! assign local_filepath in
  persist local_filepath content_to_write.

Definition download_item_handlers (url : string) (e : exn) : M string unit :=
  fun local_filepath =>
    (if is_ClientError e then print (NETWORK_ERROR url e)
     else if is_OSError e then print (OS_ERROR url local_filepath e)
     else do! print (UNEXPECTED_ERROR url e) in print (Traceback e))
    local_filepath.

Definition download_item_body (url base_folder : string) : M string unit :=
  try_except
    (do! print (INFO_Processing url) in
     let! status := session_get url in
     if (status =? 200)%Z then on_status_200 url base_folder
     else if (status =? 404)%Z then print (ERROR_404 url)
     else print (ERROR_status url status))
    (download_item_handlers url).

Definition download_item (url base_folder : string) : prog (result unit) :=
  bind (download_item_body url base_folder "N/A") (fun '(_, r) => Ret r).

(** ** Running a coroutine against an environment *)

(** One call together with the answer it got. *)
Record event := Ev { ev_call : call; ev_reply : reply ev_call }.

(** An environment answers every call from its current state. *)
Record env (W : Type) := Env { answer : forall c : call, W -> reply c * W }.
Arguments Env {W} answer.
Arguments answer {W} e c w.

Fixpoint exec {W A} (E : env W) (p : prog A) (w : W) : A * W * list event :=
  match p with
  | Ret a => (a, w, [])
  | Do c k =>
      let '(r, w1) := answer E c w in
      let '(a, w2, t) := exec E (k r) w1 in
      (a, w2, Ev c r :: t)
  end.

Definition returned {W A} (x : A * W * list event) : A := fst (fst x).
Definition final {W A} (x : A * W * list event) : W := snd (fst x).
Definition trace {W A} (x : A * W * list event) : list event := snd x.

(** The lines printed, in order. *)
Definition printed (e : event) : option line :=
  match ev_call e with
  | Print l => Some l
  | _ => None
  end.

Definition log (t : list event) : list line := omap printed t.

(** Calls that change the local store. *)
Definition modifies_store (c : call) : bool :=
  match c with
  | Makedirs _ _ | WriteFile _ _ => true
  | _ => false
  end.

(** Calls that touch the filesystem at all. *)
Definition touches_store (c : call) : bool :=
  match c with
  | PathExists _ | Makedirs _ _ | ReadFile _ | WriteFile _ _ => true
  | _ => false
  end.

(** The response body of [url] arrived in full. *)
Definition body_read (url : string) (e : event) : bool :=
  match e with
  | Ev (RespRead u) (Ok _) => String.eqb u url
  | _ => false
  end.

(** The request for [url] was answered with status [s]. *)
Definition status_is (url : string) (s : Z) (e : event) : bool :=
  match e with
  | Ev (SessionGet u) (Ok s') => String.eqb u url && (s' =? s)%Z
  | _ => false
  end.

(** The request for [url], or the reading of its body, raised. *)
Definition fetch_raised (url : string) (e : event) : bool :=
  match e with
  | Ev (SessionGet u) (Raise _) => String.eqb u url
  | Ev (RespRead u) (Raise _) => String.eqb u url
  | _ => false
  end.

(** ** The outcome of one fetch

    [download_item] returns [None]; what happened to the locator is what it
    printed.  [outcome] reads the spec's [FetchOutcome] off the log. *)

Inductive FetchOutcome :=
| Saved
| Skipped
| Overwritten
| NotFound
| HTTPError (status : Z)
| NetworkError
| FilesystemError
| UnexpectedError.

Fixpoint classify (warned : bool) (l : list line) : option FetchOutcome :=
  match l with
  | [] => None
  | WARN_differs _ :: r | WARN_unreadable _ _ :: r => classify true r
  | SAVE_Saved _ _ :: _ => Some (if warned then Overwritten else Saved)
  | SKIP_matches _ :: _ => Some Skipped
  | ERROR_404 _ :: _ => Some NotFound
  | ERROR_status _ s :: _ => Some (HTTPError s)
  | NETWORK_ERROR _ _ :: _ => Some NetworkError
  | OS_ERROR _ _ _ :: _ => Some FilesystemError
  | UNEXPECTED_ERROR _ _ :: _ => Some UnexpectedError
  | _ :: r => classify warned r
  end.

Definition outcome (t : list event) : option FetchOutcome := classify false (log t).

(** ** Properties of call trees *)

(** Every way the coroutine can end satisfies [P]. *)
Fixpoint always {A} (P : A -> Prop) (p : prog A) : Prop :=
  match p with
  | Ret a => P a
  | Do c k => forall r, always P (k r)
  end.

(** The coroutine ends after at most [n] calls. *)
Fixpoint within {A} (n : nat) (p : prog A) : Prop :=
  match p with
  | Ret _ => True
  | Do c k =>
      match n with
      | 0 => False
      | S m => forall r, within m (k r)
      end
  end.

(** Every way the coroutine can run satisfies [P]: its calls with their
    answers, and what it returns. *)
Fixpoint traces {A} (P : list event -> A -> Prop) (p : prog A) : Prop :=
  match p with
  | Ret a => P [] a
  | Do c k => forall r, traces (fun t a => P (Ev c r :: t) a) (k r)
  end.

(** No call changes the store before the body of [url] was read. *)
Fixpoint body_first (url : string) (seen : bool) (t : list event) : bool :=
  match t with
  | [] => true
  | e :: rest =>
      implb (modifies_store (ev_call e)) seen
      && body_first url (seen || body_read url e) rest
  end.

(** ** A filesystem

    Directories and regular files in a tree, named from the root by lists of
    components.  There are no symbolic links; a regular file may be
    unreadable; a place may refuse to be opened for writing (a file without
    write permission, a directory in which no file may be created); a name
    is looked up component by component, and every component that is passed
    through must be a directory.  Names that the system rejects as such (an
    embedded NUL, a component that is too long) are not modelled. *)

Module Fs.

Definition loc := list string.

Inductive node :=
| File (readable : bool) (data : string)
| Dir.

Record t := mk {
  cwd : loc;
  tree : gmap loc node;
  denied : gset loc          (* the places that refuse to be opened for writing *)
}.

(** The root is a directory and is not stored. *)
Definition at_loc (tr : gmap loc node) (l : loc) : option node :=
  match l with
  | [] => Some Dir
  | _ => tr !! l
  end.

Definition is_dir (tr : gmap loc node) (l : loc) : bool :=
  match at_loc tr l with
  | Some Dir => true
  | _ => false
  end.

(** One component of a path name, taken from directory [cur]. *)
Definition enter (cur : loc) (name : string) : loc :=
  if String.eqb name "" || String.eqb name "." then cur
  else if String.eqb name ".." then removelast cur
  else (cur ++ [name])%list.

Fixpoint walk (tr : gmap loc node) (cur : loc) (names : list string) : option loc :=
  match names with
  | [] => Some cur
  | n :: rest => if is_dir tr cur then walk tr (enter cur n) rest else None
  end.

Definition start (fs : t) (p : string) : loc :=
  if Str.startswith "/" p then [] else cwd fs.

(** Where the path name leads, when every directory on the way exists. *)
Definition resolve (fs : t) (p : string) : option loc :=
  if String.eqb p "" then None
  else walk (tree fs) (start fs p) (Str.split "/" p).

(** Where the path name points, whatever exists. *)
Definition locate (fs : t) (p : string) : loc :=
  foldl enter (start fs p) (Str.split "/" p).

Definition lookup (fs : t) (p : string) : option node :=
  match resolve fs p with
  | Some l => at_loc (tree fs) l
  | None => None
  end.

Definition OSError (msg : string) : exn := mk_exn false true false msg.

(** [os.path.exists(p)] *)
Definition exists_ (fs : t) (p : string) : bool :=
  match lookup fs p with Some _ => true | None => false end.

(** [open(p, 'rb').read()] *)
Definition read (fs : t) (p : string) : result string :=
  match lookup fs p with
  | Some (File true data) => Ok data
  | Some (File false _) => Raise (OSError "Permission denied")
  | Some Dir => Raise (OSError "Is a directory")
  | None => Raise (OSError "No such file or directory")
  end.

(** [open(p, 'wb').write(data)]: the file is created or truncated, unless
    the place refuses it. *)
Definition write (fs : t) (p data : string) : result t :=
  match resolve fs p with
  | None => Raise (OSError "No such file or directory")
  | Some l =>
      match at_loc (tree fs) l with
      | Some Dir => Raise (OSError "Is a directory")
      | Some (File r _) =>
          if bool_decide (l ∈ denied fs) then Raise (OSError "Permission denied")
          else Ok (mk (cwd fs) (<[l := File r data]> (tree fs)) (denied fs))
      | None =>
          if bool_decide (l ∈ denied fs) then Raise (OSError "Permission denied")
          else Ok (mk (cwd fs) (<[l := File true data]> (tree fs)) (denied fs))
      end
  end.

Definition ensure_dir (tr : gmap loc node) (cur : loc) : option (gmap loc node) :=
  match at_loc tr cur with
  | Some Dir => Some tr
  | Some (File _ _) => None
  | None => Some (<[cur := Dir]> tr)
  end.

(** The walk of [os.makedirs]: a missing directory is created before it is
    entered, and the last one too. *)
Fixpoint mkdirs (tr : gmap loc node) (cur : loc) (names : list string)
  : option (gmap loc node * loc) :=
  match ensure_dir tr cur with
  | None => None
  | Some tr' =>
      match names with
      | [] => Some (tr', cur)
      | n :: rest => mkdirs tr' (enter cur n) rest
      end
  end.

(** [os.makedirs(p, exist_ok=...)] *)
Definition makedirs (fs : t) (p : string) (exist_ok : bool) : result t :=
  if String.eqb p "" then Raise (OSError "No such file or directory")
  else if negb exist_ok && exists_ fs p then Raise (OSError "File exists")
  else match mkdirs (tree fs) (start fs p) (Str.split "/" p) with
       | Some (tr', _) => Ok (mk (cwd fs) tr' (denied fs))
       | None => Raise (OSError "Not a directory")
       end.

Definition render (l : loc) : string :=
  match l with
  | [] => "/"
  | _ => String.concat "" (map (fun n => "/" ++ n)%string l)
  end.

(** [os.path.abspath(p)] *)
Definition abspath (fs : t) (p : string) : string := render (locate fs p).

(** [tr'] has every entry of [tr], and directories besides. *)
Record grows (tr tr' : gmap loc node) : Prop := {
  grows_dirs : forall x, is_dir tr x = true -> is_dir tr' x = true;
  grows_new : forall x n, tr' !! x = Some n -> tr !! x = Some n \/ n = Dir;
  grows_keeps : forall x n, tr !! x = Some n -> tr' !! x = Some n
}.

End Fs.

(** ** The machine the script runs on *)

Record http_response := HttpResponse {
  status : Z;
  body : result string           (* what [resp.read()] gives *)
}.

Record world := World {
  disk : Fs.t;
  net : string -> result http_response;   (* what [session.get(url)] gives *)
  stdout : list line
}.

Definition machine_answer (c : call) : world -> reply c * world :=
  match c as c0 return world -> reply c0 * world with
  | Print l => fun w => (tt, World (disk w) (net w) (stdout w ++ [l])%list)
  | SessionGet url => fun w =>
      (match net w url with Ok r => Ok (status r) | Raise e => Raise e end, w)
  | RespRead url => fun w =>
      (match net w url with Ok r => body r | Raise e => Raise e end, w)
  | PathExists p => fun w => (Fs.exists_ (disk w) p, w)
  | Makedirs p exist_ok => fun w =>
      match Fs.makedirs (disk w) p exist_ok with
      | Ok fs' => (Ok tt, World fs' (net w) (stdout w))
      | Raise e => (Raise e, w)
      end
  | ReadFile p => fun w => (Fs.read (disk w) p, w)
  | WriteFile p data => fun w =>
      match Fs.write (disk w) p data with
      | Ok fs' => (Ok tt, World fs' (net w) (stdout w))
      | Raise e => (Raise e, w)
      end
  | Abspath p => fun w => (Ok (Fs.abspath (disk w) p), w)
  | Input _ => fun w => (Ok "", w)
  end.

Definition machine : env world := Env machine_answer.

(** Nothing is stored where the path name points. *)
Definition vacant (fs : Fs.t) (p : string) : Prop :=
  Fs.at_loc (Fs.tree fs) (Fs.locate fs p) = None.

(** What a directory entry holds, when it is a regular file. *)
Definition file_data (n : option Fs.node) : option string :=
  match n with
  | Some (Fs.File _ data) => Some data
  | _ => None
  end.

(** [p] names a place in or below the directory that [root] names. *)
Definition under (fs : Fs.t) (root p : string) : Prop :=
  Fs.locate fs root `prefix_of` Fs.locate fs p.

(** ** [start_downloads] *)

(** The coroutine object [download_item(session, url, base_folder)], not yet
    started. *)
Inductive coroutine := Download_item (url base_folder : string).

Definition coroutine_url (c : coroutine) : string :=
  match c with Download_item url _ => url end.

Definition coroutine_body (c : coroutine) : prog (result unit) :=
  match c with Download_item url base_folder => download_item url base_folder end.

(** The two lists the function fills. *)
Record locals := Locals {
  derpolino_urls_to_download : list string;
  tasks : list coroutine
}.

Definition derpolino_append (full_url : string) : M locals unit :=
  fun v => Ret (Locals (derpolino_urls_to_download v ++ [full_url])%list (tasks v), Ok tt).

Definition tasks_append (c : coroutine) : M locals unit :=
  fun v => Ret (Locals (derpolino_urls_to_download v) (tasks v ++ [c])%list, Ok tt).

Definition get_locals : M locals locals := fun v => Ret (v, Ok v).

(** [for x in l: body x] *)
Fixpoint for_each {V A} (l : list A) (body : A -> M V unit) : M V unit :=
  match l with
  | [] => ret tt
  | x :: rest => do! body x in for_each rest body
  end.

Definition paths_for_derpolino : list string :=
  ["images"; "ar"; "godspaw"; "share"; "woot"; "wp-admin"; "wp-content"; "wp-includes"].

Definition php_url_of (html_path_segment : string) : string :=
  ("http://derpolino.alwaysdata.net/imagetfm/getFiles.php?n="
     ++ html_path_segment ++ "%2F&mode=tfm")%string.

(** [p_url.startswith(('http://', 'https://'))] *)
Definition is_full_url (p_url : string) : bool :=
  Str.startswith "http://" p_url || Str.startswith "https://" p_url.

(** lines 122-125 *)
Definition full_url_of (p_url : string) : string :=
  if negb (is_full_url p_url)
  then ("https://www.transformice.com/" ++ Str.lstrip "/" p_url)%string
  else p_url.

(** the body of the loop of lines 118-126 *)
Definition enqueue (p_url : pyval) : M locals unit :=
  match p_url with
  | PyStr s => derpolino_append (full_url_of s)
  | _ => print (WARN_non_string p_url)
  end.

Section Discovery.

(** [json.loads], which this development does not look into. *)
Variable json_loads : string -> result pyval.

(** lines 105-130 *)
Definition process_content (php_url content : string) : M locals unit :=
  try_except
    (let! data := pure (json_loads (Utf8.decode Utf8.Ignore content)) in
     let! partial_urls :=
       match data with
       | PyDict items => ret (map snd items)
       | PyList items => ret items
       | _ => do! print (ERROR_json_structure php_url data) in ret []
       end in
     for_each partial_urls enqueue)
    (fun e =>
       if is_JSONDecodeError e
       then print (ERROR_json_decode php_url (String.substring 0 200 content))
       else print (ERROR_processing php_url e)).

(** the body of the loop of lines 97-134 *)
Definition discover (html_path_segment : string) : M locals unit :=
  let php_url := php_url_of html_path_segment in
  do! print (INFO_Fetching php_url) in
  try_except
    (let! status := session_get php_url in
     if (status =? 200)%Z
     then let! content := resp_read php_url in
          process_content php_url content
     else print (ERROR_fetch_status php_url status))
    (fun e => print (ERROR_connect php_url e)).

Definition bibliotheques : list string :=
  ["x_fourrures"; "x_fourrures2"; "x_fourrures3"; "x_fourrures4";
   "x_meli_costumes"; "x_pictos_editeur"].

Definition langues : list string :=
  ["en"; "fr"; "br"; "es"; "cn"; "tr"; "vk"; "pl"; "hu"; "nl"; "ro"; "id";
   "de"; "e2"; "ar"; "ph"; "lt"; "jp"; "ch"; "fi"; "cz"; "sk"; "hr"; "bu";
   "lv"; "he"; "it"; "et"; "az"; "pt"].

(** [range(4)], each number as [str] formats it *)
Definition music_nums : list string := ["0"; "1"; "2"; "3"].

Definition add_task (url : string) : M locals unit :=
  tasks_append (Download_item url BASE_DOWNLOAD_FOLDER).

(** lines 93-157 *)
Definition collect_after_startup : M locals unit :=
  do! print (Section_header "Fetching file list from derpolino.alwaysdata.net") in
  do! for_each paths_for_derpolino discover in
  let! v := get_locals in
  do! for_each (derpolino_urls_to_download v) add_task in
  do! print (Added_urls (List.length (derpolino_urls_to_download v))) in
  do! print (Section_header "Downloading specific SWF files from x_bibliotheques") in
  do! for_each bibliotheques (fun binary =>
        add_task ("http://transformice.com/images/x_bibliotheques/" ++ binary ++ ".swf")%string) in
  do! print (Section_header "Downloading language files (tfz)") in
  do! for_each langues (fun langue =>
        add_task ("http://transformice.com/langues/" ++ "tfz_" ++ langue)%string) in
  do! print (Section_header "Downloading music files") in
  for_each music_nums (fun music_num =>
        add_task ("http://transformice.com/images/musiques/" ++ "tfm_" ++ music_num ++ ".mp3")%string).

(** lines 79-157: everything up to the point where the tasks are run *)
Definition collect_tasks : M locals unit :=
  do! print Title in
  do! print Using_combined_list in
  let! abspath := partial (Abspath BASE_DOWNLOAD_FOLDER) id in
  do! print (Files_will_be_saved_to abspath) in
  do! print Blank in
  let! base_exists := os_path_exists BASE_DOWNLOAD_FOLDER in
  do! (if negb base_exists
       then do! os_makedirs BASE_DOWNLOAD_FOLDER false in
            print (INFO_Created_base BASE_DOWNLOAD_FOLDER)
       else ret tt) in
  collect_after_startup.

End Discovery.

(** ** [asyncio.gather]

    The tasks take turns; a turn is one call.  The schedule names the task
    that moves next.  [gather] returns when every task has returned, and
    raises as soon as one task has raised. *)

Inductive gathered :=
| All_done
| First_raised (e : exn)
| Still_running.

Fixpoint verdict (pool : list (prog (result unit))) : gathered :=
  match pool with
  | [] => All_done
  | Ret (Raise e) :: _ => First_raised e
  | Ret (Ok _) :: rest => verdict rest
  | Do _ _ :: rest =>
      match verdict rest with
      | First_raised e => First_raised e
      | _ => Still_running
      end
  end.

Fixpoint gather {W} (E : env W) (schedule : list nat)
    (pool : list (prog (result unit))) (w : W) : gathered * W * list event :=
  match verdict pool with
  | Still_running =>
      match schedule with
      | [] => (Still_running, w, [])
      | i :: later =>
          match pool !! i with
          | Some (Do c k) =>
              let '(r, w1) := answer E c w in
              let '(g, w2, t) := gather E later (<[i := k r]> pool) w1 in
              (g, w2, Ev c r :: t)
          | _ => gather E later pool w
          end
      end
  | v => (v, w, [])
  end.

(** How [start_downloads] ends. *)
Inductive ending :=
| Returned
| Propagated (e : exn)
| Unfinished.

Section Run.

Variable json_loads : string -> result pyval.
Context {W : Type} (E : env W).

(** lines 160-167, after the tasks were collected in [v] *)
Definition run_tasks (schedule : list nat) (v : locals) (w : W)
  : ending * W * list event :=
  match tasks v with
  | [] =>
      let '(r, w1, t) := exec E (Do (Print INFO_No_items) (fun _ =>
                                 Do (Print Finished) (fun _ =>
                                 Do (Input "Press Enter to exit...") Ret))) w in
      (match r with Ok _ => Returned | Raise e => Propagated e end, w1, t)
  | _ =>
      let '(_, w1, t1) := exec E (Do (Print (INFO_Starting (List.length (tasks v)))) Ret) w in
      let '(g, w2, t2) := gather E schedule (map coroutine_body (tasks v)) w1 in
      match g with
      | All_done =>
          let '(r, w3, t3) := exec E (Do (Print Finished) (fun _ =>
                                      Do (Input "Press Enter to exit...") Ret)) w2 in
          (match r with Ok _ => Returned | Raise e => Propagated e end,
           w3, (t1 ++ t2 ++ t3)%list)
      | First_raised e => (Propagated e, w2, (t1 ++ t2)%list)
      | Still_running => (Unfinished, w2, (t1 ++ t2)%list)
      end
  end.

Definition start_downloads (schedule : list nat) (w : W) : ending * W * list event :=
  let '((v, r), w1, t1) := exec E (collect_tasks json_loads (Locals [] [])) w in
  match r with
  | Raise e => (Propagated e, w1, t1)
  | Ok _ =>
      let '(x, w2, t2) := run_tasks schedule v w1 in
      (x, w2, (t1 ++ t2)%list)
  end.

End Run.

(** How many turns the schedule gives to task [i]. *)
Definition turns (i : nat) (schedule : list nat) : nat :=
  List.length (filter (fun j => j = i) schedule).

(** A coroutine that never raises. *)
Definition safe (p : prog (result unit)) : Prop := always (fun r => r = Ok tt) p.

(** Every task is given as many turns as it can make calls. *)
Definition enough_turns (schedule : list nat) (pool : list (prog (result unit))) : Prop :=
  forall i p, pool !! i = Some p -> exists n, within n p /\ n <= turns i schedule.

(** ** What a run shows *)




(** The pause of line 167 raised. *)
Definition input_raised (e : event) : bool :=
  match e with
  | Ev (Input _) (Raise _) => true
  | _ => false
  end.

Definition no_store_call (t : list event) : bool :=
  forallb (fun e => negb (touches_store (ev_call e))) t.

Definition no_store_change (t : list event) : bool :=
  forallb (fun e => negb (modifies_store (ev_call e))) t.

(** ** A small machine to run examples on *)

Module Demo.

Definition home : Fs.loc := ["home"; "amr"].

(** An empty home directory. *)
Definition fs0 : Fs.t :=
  Fs.mk home (<[ ["home"] := Fs.Dir ]> (<[ home := Fs.Dir ]> ∅)) ∅.

Definition good_url : string := "http://transformice.com/langues/tfz_en".
Definition bad_url : string := "http://unreachable.invalid/x.png".

Definition unreachable : exn := mk_exn true true false "Cannot connect to host".

(** One host answers, every other one is unreachable. *)
Definition net0 (url : string) : result http_response :=
  if String.eqb url good_url then Ok (HttpResponse 200 (Ok "hello"))
  else Raise unreachable.

Definition w0 : world := World fs0 net0 [].

(** A store that already holds a file that may be written but not read. *)
Definition fs1 : Fs.t :=
  Fs.mk home (<[ (home ++ ["TFM_DOWNLOADED_ASSETS"; "a.png"])%list := Fs.File false "old" ]>
             (<[ (home ++ ["TFM_DOWNLOADED_ASSETS"])%list := Fs.Dir ]> (Fs.tree fs0)))
             ∅.

Definition w1 : world := World fs1 net0 [].

Definition round_robin (tasks rounds : nat) : list nat :=
  List.concat (replicate rounds (seq 0 tasks)).

(** every host answers 404 *)
Definition net404 (url : string) : result http_response :=
  Ok (HttpResponse 404 (Ok "Not Found")).

Definition w404 : world := World fs0 net404 [].

Definition fresh_path : string := "TFM_DOWNLOADED_ASSETS/a/b.png".
Definition image_url : string := "https://www.transformice.com/images/x.png".

Definition batch : list coroutine :=
  [Download_item bad_url BASE_DOWNLOAD_FOLDER; Download_item good_url BASE_DOWNLOAD_FOLDER].

End Demo.

(** ** What discovery finds *)

(** The body that was read from [url], if one was. *)
Fixpoint body_of (url : string) (t : list event) : option string :=
  match t with
  | [] => None
  | Ev (RespRead u) (Ok content) :: rest =>
      if String.eqb u url then Some content else body_of url rest
  | _ :: rest => body_of url rest
  end.

(** The locators made from the string entries of a list, in order. *)
Definition locators_of (partial_urls : list pyval) : list string :=
  omap (fun p_url => match p_url with PyStr s => Some (full_url_of s) | _ => None end)
       partial_urls.

(** The entries that are not strings. *)
Definition non_strings (partial_urls : list pyval) : list pyval :=
  List.filter (fun p_url => match p_url with PyStr _ => false | _ => true end) partial_urls.

(** What a listing contributes to the batch. *)
Definition found (json_loads : string -> result pyval) (content : string) : list string :=
  match json_loads (Utf8.decode Utf8.Ignore content) with
  | Ok (PyDict items) => locators_of (map snd items)
  | Ok (PyList items) => locators_of items
  | _ => []
  end.

(** The error line a listing is answered with, when it contributes nothing
    because of what it is. *)
Definition listing_error (json_loads : string -> result pyval) (php_url content : string)
  : option line :=
  match json_loads (Utf8.decode Utf8.Ignore content) with
  | Ok (PyDict _) | Ok (PyList _) => None
  | Ok data => Some (ERROR_json_structure php_url data)
  | Raise e =>
      Some (if is_JSONDecodeError e
            then ERROR_json_decode php_url (String.substring 0 200 content)
            else ERROR_processing php_url e)
  end.

(** The locators that are configured in the script. *)
Definition static_urls : list string :=
  (map (fun binary => "http://transformice.com/images/x_bibliotheques/" ++ binary ++ ".swf")%string
       bibliotheques
   ++ map (fun langue => "http://transformice.com/langues/" ++ "tfz_" ++ langue)%string langues
   ++ map (fun music_num => "http://transformice.com/images/musiques/" ++ "tfm_" ++ music_num ++ ".mp3")%string
       music_nums)%list.

Module DemoListing.

Definition quote : string := String (ascii_of_nat 34) "".

(** the JSON text of a list that names [images/a.png] twice *)
Definition twice : string :=
  ("[" ++ quote ++ "images/a.png" ++ quote ++ ", " ++ quote ++ "/images/a.png" ++ quote ++ "]")%string.

(** a [json.loads] that knows this one text *)
Definition json_loads (s : string) : result pyval :=
  if String.eqb s twice
  then Ok (PyList [PyStr "images/a.png"; PyStr "/images/a.png"])
  else Raise (mk_exn false false true "Expecting value").

(** every listing request is answered with that text *)
Definition net (url : string) : result http_response :=
  Ok (HttpResponse 200 (Ok twice)).

Definition w : world := World Demo.fs0 net [].

(** a listing endpoint that answers with something that is not JSON *)
Definition broken (url : string) : result http_response :=
  Ok (HttpResponse 200 (Ok "<html>")).

Definition w_broken : world := World Demo.fs0 broken [].

End DemoListing.

(** The status the request for [url] was answered with, if it was. *)
Fixpoint status_of (url : string) (t : list event) : option Z :=
  match t with
  | [] => None
  | Ev (SessionGet u) (Ok s) :: rest =>
      if String.eqb u url then Some s else status_of url rest
  | _ :: rest => status_of url rest
  end.

(** The calls of the loop over a listing: one warning for each entry that is
    not a string. *)
Definition warnings (partial_urls : list pyval) : list event :=
  map (fun p_url => Ev (Print (WARN_non_string p_url)) tt) (non_strings partial_urls).

(** What one round of discovery leaves behind: it has returned, it has
    touched only the list of discovered locators, to which it has added what
    the listing holds, and it has reported why it added nothing. *)
Definition discover_post (json_loads : string -> result pyval) (php_url : string)
    (v : locals) (t : list event) (r : locals * result unit) : Prop :=
  snd r = Ok tt
  /\ tasks (fst r) = tasks v
  /\ derpolino_urls_to_download (fst r) =
       (derpolino_urls_to_download v
          ++ match body_of php_url t with
             | Some content => found json_loads content
             | None => []
             end)%list
  /\ (forall s, status_of php_url t = Some s -> s <> 200%Z ->
        body_of php_url t = None /\ In (ERROR_fetch_status php_url s) (log t))
  /\ (forall content l, body_of php_url t = Some content ->
        listing_error json_loads php_url content = Some l -> In l (log t)).

(** A locator made by lines 122-125. *)
Definition qualified (u : string) : Prop := exists s, u = full_url_of s.

(** The invariant of the collecting phase: what was discovered so far was
    made by lines 122-125. *)
Definition collecting (v : locals) (r : locals * result unit) : Prop :=
  snd r = Ok tt /\ tasks (fst r) = tasks v
  /\ exists extra, derpolino_urls_to_download (fst r) = (derpolino_urls_to_download v ++ extra)%list
                   /\ Forall qualified extra.

(** The entries that are strings. *)
Definition strings_of (partial_urls : list pyval) : list string :=
  omap (fun p_url => match p_url with PyStr s => Some s | _ => None end) partial_urls.

(** What the collecting phase leaves behind. *)
Definition collected (r : locals * result unit) : Prop :=
  (snd r = Ok tt \/ tasks (fst r) = [])
  /\ exists discovered,
       Forall qualified discovered
       /\ (snd r = Ok tt ->
           derpolino_urls_to_download (fst r) = discovered
           /\ tasks (fst r) =
                map (fun u => Download_item u BASE_DOWNLOAD_FOLDER)
                    (discovered ++ static_urls)).

(** ** More of what a run shows *)

(** How many calls of one kind a run made. *)
Definition calls (kind : call -> bool) (t : list event) : nat :=
  List.length (List.filter (fun e => kind (ev_call e)) t).

Definition is_get (c : call) : bool :=
  match c with SessionGet _ => true | _ => false end.
Definition is_body_read (c : call) : bool :=
  match c with RespRead _ => true | _ => false end.
Definition is_makedirs (c : call) : bool :=
  match c with Makedirs _ _ => true | _ => false end.
Definition is_file_read (c : call) : bool :=
  match c with ReadFile _ => true | _ => false end.
Definition is_file_write (c : call) : bool :=
  match c with WriteFile _ _ => true | _ => false end.

(** The calls one fetch may make for [url]: the request and the body of
    [url], the local path of [url] and its directory, and for a write the
    body that was read. *)
Definition confined (url base_folder : string) (t : list event) (c : call) : Prop :=
  match c with
  | Print _ => True
  | SessionGet u | RespRead u => u = url
  | PathExists q =>
      exists p, local_filepath_of base_folder url = Ok p
                /\ (q = p \/ q = Posixpath.dirname p)
  | Makedirs q exist_ok =>
      exist_ok = true
      /\ exists p, local_filepath_of base_folder url = Ok p /\ q = Posixpath.dirname p
  | ReadFile q => local_filepath_of base_folder url = Ok q
  | WriteFile q data =>
      local_filepath_of base_folder url = Ok q /\ body_of url t = Some data
  | Abspath _ | Input _ => False
  end.

(** The lines that tell how a fetch ended. *)
Definition is_outcome_line (l : line) : bool :=
  match l with
  | SAVE_Saved _ _ | SKIP_matches _ | ERROR_404 _ | ERROR_status _ _
  | NETWORK_ERROR _ _ | OS_ERROR _ _ _ | UNEXPECTED_ERROR _ _ => true
  | _ => false
  end.

(** The exception that the request for [url], or the reading of its body,
    raised. *)
Fixpoint fetch_exn (url : string) (t : list event) : option exn :=
  match t with
  | [] => None
  | Ev (SessionGet u) (Raise e) :: rest =>
      if String.eqb u url then Some e else fetch_exn url rest
  | Ev (RespRead u) (Raise e) :: rest =>
      if String.eqb u url then Some e else fetch_exn url rest
  | _ :: rest => fetch_exn url rest
  end.

(** The exception that [os.makedirs] or the write raised. *)
Fixpoint store_exn (t : list event) : option exn :=
  match t with
  | [] => None
  | Ev (Makedirs _ _) (Raise e) :: _ => Some e
  | Ev (WriteFile _ _) (Raise e) :: _ => Some e
  | _ :: rest => store_exn rest
  end.

(** A write returned. *)
Definition write_returned (e : event) : bool :=
  match e with
  | Ev (WriteFile _ _) (Ok _) => true
  | _ => false
  end.

(** [fs'] is [fs] but for what is stored at place [l] and for directories
    that were added. *)
Record touched_at (l : Fs.loc) (fs fs' : Fs.t) : Prop := {
  same_cwd : Fs.cwd fs' = Fs.cwd fs;
  others_kept : forall x n, Fs.tree fs !! x = Some n -> x <> l -> Fs.tree fs' !! x = Some n;
  others_new : forall x n, Fs.tree fs' !! x = Some n -> x <> l ->
                           Fs.tree fs !! x = Some n \/ n = Fs.Dir
}.

(** The only file a run may write is [p]. *)
Definition writes_only (p : string) (c : call) : Prop :=
  match c with
  | WriteFile q _ => q = p
  | _ => True
  end.

(** Every call the coroutine can make satisfies [P]. *)
Fixpoint every_call {A} (P : call -> Prop) (p : prog A) : Prop :=
  match p with
  | Ret _ => True
  | Do c k => P c /\ forall r, every_call P (k r)
  end.

(** The calls of one round of discovery: it prints and it asks for the
    listing, nothing else. *)
Definition listing_call (php_url : string) (c : call) : Prop :=
  match c with
  | Print _ => True
  | SessionGet u | RespRead u => u = php_url
  | _ => False
  end.

(** The calls of the collecting phase after the startup lines. *)
Definition collecting_call (c : call) : Prop :=
  match c with
  | Print _ => True
  | SessionGet u | RespRead u => exists seg, In seg paths_for_derpolino /\ u = php_url_of seg
  | _ => False
  end.

(** The calls one task of the batch can make. *)
Definition task_call (co : coroutine) (c : call) : Prop :=
  match co with
  | Download_item url base_folder =>
      match c with
      | Print _ => True
      | SessionGet u | RespRead u => u = url
      | PathExists q =>
          exists p, local_filepath_of base_folder url = Ok p
                    /\ (q = p \/ q = Posixpath.dirname p)
      | Makedirs q exist_ok =>
          exist_ok = true
          /\ exists p, local_filepath_of base_folder url = Ok p /\ q = Posixpath.dirname p
      | ReadFile q | WriteFile q _ => local_filepath_of base_folder url = Ok q
      | Abspath _ | Input _ => False
      end
  end.

(** ** More machines to run examples on *)

Module DemoStore.

Definition good_path : string := "TFM_DOWNLOADED_ASSETS/langues/tfz_en".

(** A store in which a directory sits where [Demo.good_url] is to be saved. *)
Definition fs_dir : Fs.t :=
  Fs.mk Demo.home
    (<[ (Demo.home ++ ["TFM_DOWNLOADED_ASSETS"; "langues"; "tfz_en"])%list := Fs.Dir ]>
    (<[ (Demo.home ++ ["TFM_DOWNLOADED_ASSETS"; "langues"])%list := Fs.Dir ]>
    (<[ (Demo.home ++ ["TFM_DOWNLOADED_ASSETS"])%list := Fs.Dir ]> (Fs.tree Demo.fs0))))
    ∅.

Definition w_dir : world := World fs_dir Demo.net0 [].



Definition is_a_directory : exn := Fs.OSError "Is a directory".

Definition end_of_input : exn := mk_exn false false false "EOF when reading a line".

(** The machine with its standard input closed. *)
Definition headless_answer (c : call) : world -> reply c * world :=
  match c as c0 return world -> reply c0 * world with
  | Input _ => fun w => (Raise end_of_input, w)
  | c0 => machine_answer c0
  end.

Definition headless : env world := Env headless_answer.

End DemoStore.

(** * The script when the console and the event loop can fail

    Everything above runs the script on a console that accepts every line,
    against failures that derive from [Exception].  The script is promised
    neither: [print] raises when its stream is closed or cannot encode the
    line, and [except Exception] lets [asyncio.CancelledError],
    [KeyboardInterrupt] and [SystemExit] through.  This is the script once
    more with both in it: the same calls, answered from a wider [reply],
    and the same functions, line by line, over them. *)

Module Full.

(** What a call can raise. *)
Inductive raised :=
| Exc (e : exn)               (* an exception that derives from [Exception] *)
| BaseExc (name : string).    (* one that does not *)

(** How a call or a function body ends. *)
Inductive completion (A : Type) : Type :=
| Done (a : A)
| Threw (x : raised).
Arguments Done {A} a.
Arguments Threw {A} x.

(** Every call but [os.path.exists] can raise, [print] included. *)
Definition reply (c : call) : Type :=
  match c with
  | Print _ => completion unit
  | SessionGet _ => completion Z
  | RespRead _ => completion string
  | PathExists _ => bool
  | Makedirs _ _ => completion unit
  | ReadFile _ => completion string
  | WriteFile _ _ => completion unit
  | Abspath _ => completion string
  | Input _ => completion string
  end.

Inductive prog (A : Type) : Type :=
| Ret (a : A)
| Do (c : call) (k : reply c -> prog A).
Arguments Ret {A} a.
Arguments Do {A} c k.

Fixpoint bind {A B} (p : prog A) (f : A -> prog B) : prog B :=
  match p with
  | Ret a => f a
  | Do c k => Do c (fun r => bind (k r) f)
  end.

Definition M (V A : Type) : Type := V -> prog (V * completion A).

Definition ret {V A} (a : A) : M V A := fun v => Ret (v, Done a).

Definition mbind {V A B} (m : M V A) (f : A -> M V B) : M V B :=
  fun v => bind (m v) (fun '(v', r) =>
    match r with
    | Done a => f a v'
    | Threw x => Ret (v', Threw x)
    end).

#[local] Set Warnings "-notation-overridden".
Local Notation "'let!' x ':=' m 'in' k" := (mbind m (fun x => k))
  (at level 10, x name, m at level 100, k at level 200).
Local Notation "'do!' m 'in' k" := (mbind m (fun _ => k))
  (at level 10, m at level 100, k at level 200).

(** [try: body  except ...: ...  except Exception as e: handler e]: every
    [try] of the script ends in [except Exception], which catches what
    derives from [Exception] and nothing else. *)
Definition try_except {V A} (body : M V A) (handler : exn -> M V A) : M V A :=
  fun v => bind (body v) (fun '(v', r) =>
    match r with
    | Done a => Ret (v', Done a)
    | Threw (Exc e) => handler e v'
    | Threw (BaseExc name) => Ret (v', Threw (BaseExc name))
    end).

(** a call that always returns *)
Definition total {V} (c : call) : M V (reply c) :=
  fun v => Do c (fun r => Ret (v, Done r)).

(** a call that returns or raises *)
Definition partial {V A} (c : call) (cast : reply c -> completion A) : M V A :=
  fun v => Do c (fun r => Ret (v, cast r)).

(** a pure computation; what it raises derives from [Exception] *)
Definition pure {V A} (r : result A) : M V A :=
  fun v => Ret (v, match r with Ok a => Done a | Raise e => Threw (Exc e) end).

Definition assign {V} (v : V) : M V unit := fun _ => Ret (v, Done tt).

Definition print {V} (l : line) : M V unit := partial (Print l) id.
Definition session_get {V} (url : string) : M V Z := partial (SessionGet url) id.
Definition resp_read {V} (url : string) : M V string := partial (RespRead url) id.
Definition os_path_exists {V} (p : string) : M V bool := total (PathExists p).
Definition os_makedirs {V} (p : string) (exist_ok : bool) : M V unit :=
  partial (Makedirs p exist_ok) id.
Definition read_file {V} (p : string) : M V string := partial (ReadFile p) id.
Definition write_file {V} (p data : string) : M V unit := partial (WriteFile p data) id.

(** *** [download_item] *)

(** lines 48-57 *)
Definition compare_existing (local_filepath content_to_write : string)
  : M string bool :=
  try_except
    (let! existing_content := read_file local_filepath in
     if String.eqb existing_content content_to_write
     then do! print (SKIP_matches local_filepath) in ret true
     else do! print (WARN_differs local_filepath) in ret false)
    (fun e_read =>
       do! print (WARN_unreadable local_filepath e_read) in ret false).

(** lines 41-43 *)
Definition ensure_parent (local_dir : string) : M string unit :=
  let! dir_exists := os_path_exists local_dir in
  if negb dir_exists
  then do! print (Creating_directory local_dir) in
       os_makedirs local_dir true
  else ret tt.

(** lines 47-61 *)
Definition store (local_filepath content_to_write local_dir : string)
  : M string unit :=
  let! file_exists := os_path_exists local_filepath in
  let! returned :=
    (if file_exists
     then compare_existing local_filepath content_to_write
     else ret false) in
  if (returned : bool) then ret tt
  else
    do! write_file local_filepath content_to_write in
    print (SAVE_Saved (Posixpath.basename local_filepath) local_dir).

(** lines 39-61 *)
Definition persist (local_filepath content_to_write : string) : M string unit :=
  let local_dir := Posixpath.dirname local_filepath in
  do! ensure_parent local_dir in
  store local_filepath content_to_write local_dir.

(** lines 22-61 *)
Definition on_status_200 (url base_folder : string) : M string unit :=
  let! content_to_write := resp_read url in
  let! local_filepath := pure (local_filepath_of base_folder url) in
  do! assign local_filepath in
  persist local_filepath content_to_write.

(** lines 68-75: the handlers print unprotected *)
Definition download_item_handlers (url : string) (e : exn) : M string unit :=
  fun local_filepath =>
    (if is_ClientError e then print (NETWORK_ERROR url e)
     else if is_OSError e then print (OS_ERROR url local_filepath e)
     else do! print (UNEXPECTED_ERROR url e) in print (Traceback e))
    local_filepath.

(** lines 18-75 *)
Definition download_item_body (url base_folder : string) : M string unit :=
  try_except
    (do! print (INFO_Processing url) in
     let! status := session_get url in
     if (status =? 200)%Z then on_status_200 url base_folder
     else if (status =? 404)%Z then print (ERROR_404 url)
     else print (ERROR_status url status))
    (download_item_handlers url).

Definition download_item (url base_folder : string) : prog (completion unit) :=
  bind (download_item_body url base_folder "N/A") (fun '(_, r) => Ret r).

Definition coroutine_body (c : coroutine) : prog (completion unit) :=
  match c with Download_item url base_folder => download_item url base_folder end.

(** *** Running a coroutine *)

Record event := Ev { ev_call : call; ev_reply : reply ev_call }.

Record env (W : Type) := Env { answer : forall c : call, W -> reply c * W }.
Arguments Env {W} answer.
Arguments answer {W} e c w.

Fixpoint exec {W A} (E : env W) (p : prog A) (w : W) : A * W * list event :=
  match p with
  | Ret a => (a, w, [])
  | Do c k =>
      let '(r, w1) := answer E c w in
      let '(a, w2, t) := exec E (k r) w1 in
      (a, w2, Ev c r :: t)
  end.

Definition returned {W A} (x : A * W * list event) : A := fst (fst x).
Definition final {W A} (x : A * W * list event) : W := snd (fst x).
Definition trace {W A} (x : A * W * list event) : list event := snd x.

(** The lines that reached the console, in order. *)
Definition printed (e : event) : option line :=
  match e with
  | Ev (Print l) (Done _) => Some l
  | _ => None
  end.

Definition log (t : list event) : list line := omap printed t.

Definition outcome (t : list event) : option FetchOutcome := classify false (log t).

(** What the call of an event raised, if it raised. *)
Definition thrown (e : event) : option raised :=
  match e with
  | Ev (Print _) (Threw x) => Some x
  | Ev (SessionGet _) (Threw x) => Some x
  | Ev (RespRead _) (Threw x) => Some x
  | Ev (Makedirs _ _) (Threw x) => Some x
  | Ev (ReadFile _) (Threw x) => Some x
  | Ev (WriteFile _ _) (Threw x) => Some x
  | Ev (Abspath _) (Threw x) => Some x
  | Ev (Input _) (Threw x) => Some x
  | _ => None
  end.

Definition is_print (c : call) : bool :=
  match c with Print _ => true | _ => false end.

(** The answer of a well-behaved world: the console took the line, and
    what was raised derives from [Exception]. *)
Definition calm (e : event) : Prop :=
  match thrown e with
  | None => True
  | Some (Exc _) => is_print (ev_call e) = false
  | Some (BaseExc _) => False
  end.

Definition tame {W} (E : env W) : Prop :=
  forall c w, calm (Ev c (fst (answer E c w))).

(** The request for [url] was sent. *)
Definition requested (url : string) (e : event) : bool :=
  match ev_call e with
  | SessionGet u => String.eqb u url
  | _ => false
  end.

(** The exception that made the fetch fail: the first one raised by the
    request, the body read, [os.makedirs] or the write. *)
Fixpoint failure (t : list event) : option exn :=
  match t with
  | [] => None
  | Ev (SessionGet _) (Threw (Exc e)) :: _ => Some e
  | Ev (RespRead _) (Threw (Exc e)) :: _ => Some e
  | Ev (Makedirs _ _) (Threw (Exc e)) :: _ => Some e
  | Ev (WriteFile _ _) (Threw (Exc e)) :: _ => Some e
  | _ :: rest => failure rest
  end.

(** The outcome the handlers of lines 68-75 report for an exception. *)
Definition error_class (e : exn) : FetchOutcome :=
  if is_ClientError e then NetworkError
  else if is_OSError e then FilesystemError
  else UnexpectedError.

(** *** Properties of call trees, under the answers that [ok] admits *)

Fixpoint always {A} (ok : event -> Prop) (P : A -> Prop) (p : prog A) : Prop :=
  match p with
  | Ret a => P a
  | Do c k => forall r, ok (Ev c r) -> always ok P (k r)
  end.

(** The coroutine ends after at most [n] calls. *)
Fixpoint within {A} (ok : event -> Prop) (n : nat) (p : prog A) : Prop :=
  match p with
  | Ret _ => True
  | Do c k =>
      match n with
      | 0 => False
      | S m => forall r, ok (Ev c r) -> within ok m (k r)
      end
  end.

Fixpoint traces {A} (ok : event -> Prop) (P : list event -> A -> Prop) (p : prog A)
  : Prop :=
  match p with
  | Ret a => P [] a
  | Do c k => forall r, ok (Ev c r) -> traces ok (fun t a => P (Ev c r :: t) a) (k r)
  end.

(** Under the answers that [ok] admits, the coroutine does not end before
    it has made the call [c]. *)
Fixpoint must {A} (ok : event -> Prop) (c : call) (p : prog A) : Prop :=
  match p with
  | Ret _ => False
  | Do c' k => c' = c \/ forall r, ok (Ev c' r) -> must ok c (k r)
  end.

(** A coroutine that returns, whatever a calm world answers. *)
Definition safe (p : prog (completion unit)) : Prop :=
  always calm (fun r => r = Done tt) p.

(** *** [asyncio.gather] and lines 159-167 *)

Inductive gathered :=
| All_done
| First_raised (x : raised)
| Still_running.

Fixpoint verdict (pool : list (prog (completion unit))) : gathered :=
  match pool with
  | [] => All_done
  | Ret (Threw x) :: _ => First_raised x
  | Ret (Done _) :: rest => verdict rest
  | Do _ _ :: rest =>
      match verdict rest with
      | First_raised x => First_raised x
      | _ => Still_running
      end
  end.

Fixpoint gather {W} (E : env W) (schedule : list nat)
    (pool : list (prog (completion unit))) (w : W) : gathered * W * list event :=
  match verdict pool with
  | Still_running =>
      match schedule with
      | [] => (Still_running, w, [])
      | i :: later =>
          match pool !! i with
          | Some (Do c k) =>
              let '(r, w1) := answer E c w in
              let '(g, w2, t) := gather E later (<[i := k r]> pool) w1 in
              (g, w2, Ev c r :: t)
          | _ => gather E later pool w
          end
      end
  | v => (v, w, [])
  end.

(** Every task is given as many turns as it can make calls. *)
Definition enough_turns (schedule : list nat) (pool : list (prog (completion unit)))
  : Prop :=
  forall i p, pool !! i = Some p -> exists n, within calm n p /\ n <= turns i schedule.

Inductive ending :=
| Returned
| Propagated (x : raised)
| Unfinished.

Definition as_ending {A} (r : completion A) : ending :=
  match r with Done _ => Returned | Threw x => Propagated x end.

(** lines 166-167 *)
Definition closing : M unit string :=
  do! print Finished in
  partial (Input "Press Enter to exit...") id.

(** lines 163-167, when there is no task *)
Definition no_items : M unit string :=
  do! print INFO_No_items in closing.

Section Run.

Context {W : Type} (E : env W).

(** lines 160-167, after the tasks were collected in [v] *)
Definition run_tasks (schedule : list nat) (v : locals) (w : W)
  : ending * W * list event :=
  match tasks v with
  | [] =>
      let '((_, r), w1, t) := exec E (no_items tt) w in
      (as_ending r, w1, t)
  | _ =>
      let '((_, r1), w1, t1) :=
        exec E (print (V := unit) (INFO_Starting (List.length (tasks v))) tt) w in
      match r1 with
      | Threw x => (Propagated x, w1, t1)
      | Done _ =>
          let '(g, w2, t2) := gather E schedule (map coroutine_body (tasks v)) w1 in
          match g with
          | All_done =>
              let '((_, r), w3, t3) := exec E (closing tt) w2 in
              (as_ending r, w3, (t1 ++ t2 ++ t3)%list)
          | First_raised x => (Propagated x, w2, (t1 ++ t2)%list)
          | Still_running => (Unfinished, w2, (t1 ++ t2)%list)
          end
      end
  end.

End Run.

(** *** The collecting phase of [start_downloads] *)

Definition derpolino_append (full_url : string) : M locals unit :=
  fun v => Ret (Locals (derpolino_urls_to_download v ++ [full_url])%list (tasks v), Done tt).

Definition tasks_append (c : coroutine) : M locals unit :=
  fun v => Ret (Locals (derpolino_urls_to_download v) (tasks v ++ [c])%list, Done tt).

Definition get_locals : M locals locals := fun v => Ret (v, Done v).

Fixpoint for_each {V A} (l : list A) (body : A -> M V unit) : M V unit :=
  match l with
  | [] => ret tt
  | x :: rest => do! body x in for_each rest body
  end.

(** the body of the loop of lines 118-126 *)
Definition enqueue (p_url : pyval) : M locals unit :=
  match p_url with
  | PyStr s => derpolino_append (full_url_of s)
  | _ => print (WARN_non_string p_url)
  end.

Section Discovery.

Variable json_loads : string -> result pyval.

(** lines 105-130 *)
Definition process_content (php_url content : string) : M locals unit :=
  try_except
    (let! data := pure (json_loads (Utf8.decode Utf8.Ignore content)) in
     let! partial_urls :=
       match data with
       | PyDict items => ret (map snd items)
       | PyList items => ret items
       | _ => do! print (ERROR_json_structure php_url data) in ret []
       end in
     for_each partial_urls enqueue)
    (fun e =>
       if is_JSONDecodeError e
       then print (ERROR_json_decode php_url (String.substring 0 200 content))
       else print (ERROR_processing php_url e)).

(** the body of the loop of lines 97-134 *)
Definition discover (html_path_segment : string) : M locals unit :=
  let php_url := php_url_of html_path_segment in
  do! print (INFO_Fetching php_url) in
  try_except
    (let! status := session_get php_url in
     if (status =? 200)%Z
     then let! content := resp_read php_url in
          process_content php_url content
     else print (ERROR_fetch_status php_url status))
    (fun e => print (ERROR_connect php_url e)).

Definition add_task (url : string) : M locals unit :=
  tasks_append (Download_item url BASE_DOWNLOAD_FOLDER).

(** lines 93-157 *)
Definition collect_after_startup : M locals unit :=
  do! print (Section_header "Fetching file list from derpolino.alwaysdata.net") in
  do! for_each paths_for_derpolino discover in
  let! v := get_locals in
  do! for_each (derpolino_urls_to_download v) add_task in
  do! print (Added_urls (List.length (derpolino_urls_to_download v))) in
  do! print (Section_header "Downloading specific SWF files from x_bibliotheques") in
  do! for_each bibliotheques (fun binary =>
        add_task ("http://transformice.com/images/x_bibliotheques/" ++ binary ++ ".swf")%string) in
  do! print (Section_header "Downloading language files (tfz)") in
  do! for_each langues (fun langue =>
        add_task ("http://transformice.com/langues/" ++ "tfz_" ++ langue)%string) in
  do! print (Section_header "Downloading music files") in
  for_each music_nums (fun music_num =>
        add_task ("http://transformice.com/images/musiques/" ++ "tfm_" ++ music_num ++ ".mp3")%string).

(** lines 79-157 *)
Definition collect_tasks : M locals unit :=
  do! print Title in
  do! print Using_combined_list in
  let! abspath := partial (Abspath BASE_DOWNLOAD_FOLDER) id in
  do! print (Files_will_be_saved_to abspath) in
  do! print Blank in
  let! base_exists := os_path_exists BASE_DOWNLOAD_FOLDER in
  do! (if negb base_exists
       then do! os_makedirs BASE_DOWNLOAD_FOLDER false in
            print (INFO_Created_base BASE_DOWNLOAD_FOLDER)
       else ret tt) in
  collect_after_startup.

Context {W : Type} (E : env W).

Definition start_downloads (schedule : list nat) (w : W) : ending * W * list event :=
  let '((v, r), w1, t1) := exec E (collect_tasks (Locals [] [])) w in
  match r with
  | Threw x => (Propagated x, w1, t1)
  | Done _ =>
      let '(y, w2, t2) := run_tasks E schedule v w1 in
      (y, w2, (t1 ++ t2)%list)
  end.

End Discovery.

(** The calls whose exceptions [start_downloads] does not handle: every
    [print], and the three calls it makes outside any [try]. *)
Definition unguarded (c : call) : Prop :=
  is_print c = true
  \/ c = Abspath BASE_DOWNLOAD_FOLDER
  \/ c = Makedirs BASE_DOWNLOAD_FOLDER false
  \/ c = Input "Press Enter to exit...".

(** The event that made a run end with [x]: a call that raised [x] and is
    not handled, or any call when [x] does not derive from
    [Exception]. *)
Definition culprit (x : raised) (e : event) : Prop :=
  thrown e = Some x
  /\ (unguarded (ev_call e) \/ exists name, x = BaseExc name).

(** How a run that made the calls [t] may end: with a result, or with an
    exception whose culprit is among its calls. *)
Definition accounted {A} (t : list event) (r : completion A) : Prop :=
  match r with
  | Done _ => True
  | Threw x => exists e, In e t /\ culprit x e
  end.

(** How the body of a [try] may end: what does not derive from
    [Exception] was raised by one of its calls. *)
Definition sourced {A} (t : list event) (r : completion A) : Prop :=
  match r with
  | Threw (BaseExc name) => exists e, In e t /\ thrown e = Some (BaseExc name)
  | _ => True
  end.

(** Every answer is admitted. *)
Definition any (e : event) : Prop := True.

(** A function body all of whose ways to end are accounted for, and one
    all of whose ways to end are sourced. *)
Definition accounts {V A} (p : prog (V * completion A)) : Prop :=
  traces any (fun t r => accounted t (snd r)) p.

Definition sources {V A} (p : prog (V * completion A)) : Prop :=
  traces any (fun t r => sourced t (snd r)) p.

End Full.

(** ** Worlds for the full script *)

(** An answer of the machine, seen as an answer to the full script: the
    console took the line, and what was raised derives from [Exception]. *)
Definition completed {A} (r : result A) : Full.completion A :=
  match r with Ok a => Full.Done a | Raise e => Full.Threw (Full.Exc e) end.

Definition inject (c : call) : reply c -> Full.reply c :=
  match c as c0 return reply c0 -> Full.reply c0 with
  | Print _ => fun _ => Full.Done tt
  | SessionGet _ => completed
  | RespRead _ => completed
  | PathExists _ => fun b => b
  | Makedirs _ _ => completed
  | ReadFile _ => completed
  | WriteFile _ _ => completed
  | Abspath _ => completed
  | Input _ => completed
  end.

Definition lift {W} (E : env W) : Full.env W :=
  Full.Env (fun c w => let '(r, w') := answer E c w in (inject c r, w')).

Definition inject_event (e : event) : Full.event :=
  Full.Ev (ev_call e) (inject (ev_call e) (ev_reply e)).

(** The full coroutine [q] makes the calls of [p] and ends as [p] does,
    wherever it is answered as a quiet world answers [p]. *)
Fixpoint agrees {A B} (f : A -> B) (p : prog A) (q : Full.prog B) : Prop :=
  match p with
  | Ret a => q = Full.Ret (f a)
  | Do c k => exists k', q = Full.Do c k' /\ forall r, agrees f (k r) (k' (inject c r))
  end.

Module DemoFull.

(** A locator with a character outside Latin-1 (U+4E2D, three bytes in
    UTF-8), as a listing may name one. *)
Definition odd_url : string :=
  ("http://transformice.com/images/"
     ++ String (ascii_of_nat 228) (String (ascii_of_nat 184) (String (ascii_of_nat 173) ""))
     ++ ".png")%string.

(** The lines of [download_item] that interpolate the locator [u]. *)
Definition mentions (u : string) (l : line) : bool :=
  match l with
  | INFO_Processing v | ERROR_404 v | ERROR_status v _
  | NETWORK_ERROR v _ | OS_ERROR v _ _ | UNEXPECTED_ERROR v _ => String.eqb v u
  | _ => false
  end.

(** [UnicodeEncodeError], a [ValueError] *)
Definition cannot_encode : exn :=
  mk_exn false false false "'charmap' codec can't encode character".

(** The machine behind a console that cannot encode [odd_url]: printing a
    line with that locator raises, every other call is the machine's. *)
Definition picky_answer (c : call) : world -> Full.reply c * world :=
  match c as c0 return world -> Full.reply c0 * world with
  | Print l => fun w =>
      if mentions odd_url l then (Full.Threw (Full.Exc cannot_encode), w)
      else (Full.Done tt, World (disk w) (net w) (stdout w ++ [l])%list)
  | c0 => Full.answer (lift machine) c0
  end.

Definition picky : Full.env world := Full.Env picky_answer.

(** The machine while the task is being cancelled: the request raises
    [asyncio.CancelledError]. *)
Definition cancelling_answer (c : call) : world -> Full.reply c * world :=
  match c as c0 return world -> Full.reply c0 * world with
  | SessionGet _ => fun w => (Full.Threw (Full.BaseExc "CancelledError"), w)
  | c0 => Full.answer (lift machine) c0
  end.

Definition cancelling : Full.env world := Full.Env cancelling_answer.

Definition batch : list coroutine :=
  [Download_item odd_url BASE_DOWNLOAD_FOLDER;
   Download_item Demo.good_url BASE_DOWNLOAD_FOLDER].

End DemoFull.

(** * Theorems *)

(** ** Call trees and their runs *)

Lemma traces_exec {W A} (E : env W) (p : prog A) :
  forall (P : list event -> A -> Prop) (w : W),
    traces P p -> P (trace (exec E p w)) (returned (exec E p w)).
Proof.
  induction p as [a | c k IH]; intros P w HP.
  - exact HP.
  - cbn [exec traces] in *.
    destruct (answer E c w) as [r w1] eqn:Hans.
    specialize (IH r _ w1 (HP r)).
    destruct (exec E (k r) w1) as [[a w2] t]. exact IH.
Qed.

Lemma traces_always {A} (P : A -> Prop) (p : prog A) :
  traces (fun _ a => P a) p <-> always P p.
Proof.
  induction p as [a | c k IH]; cbn; [tauto |].
  split; intros H r; apply IH, H.
Qed.

Lemma always_exec {W A} (E : env W) (P : A -> Prop) (p : prog A) (w : W) :
  always P p -> P (returned (exec E p w)).
Proof.
  intros H. apply traces_always in H.
  exact (traces_exec E p (fun _ a => P a) w H).
Qed.

Lemma traces_impl {A} (P Q : list event -> A -> Prop) (p : prog A) :
  (forall t a, P t a -> Q t a) -> traces P p -> traces Q p.
Proof.
  revert P Q. induction p as [a | c k IH]; cbn; intros P Q HPQ HP.
  - auto.
  - intros r. eapply IH; [| apply HP]. cbn. auto.
Qed.

Lemma traces_and {A} (P Q : list event -> A -> Prop) (p : prog A) :
  traces P p -> traces Q p -> traces (fun t a => P t a /\ Q t a) p.
Proof.
  revert P Q. induction p as [a | c k IH]; cbn; intros P Q HP HQ.
  - auto.
  - intros r. apply (IH r (fun t a => P (Ev c r :: t) a) (fun t a => Q (Ev c r :: t) a)); auto.
Qed.

Lemma body_first_split url t :
  forall seen, body_first url seen t = true ->
    forall t1 e t2, t = (t1 ++ e :: t2)%list ->
      modifies_store (ev_call e) = true ->
      seen = true \/ exists e', In e' t1 /\ body_read url e' = true.
Proof.
  induction t as [| e0 t IH]; intros seen H t1 e t2 Heq Hmod.
  - destruct t1; discriminate.
  - cbn in H. apply andb_true_iff in H as [H0 H].
    destruct t1 as [| e1 t1]; cbn in Heq; injection Heq as -> ->.
    + rewrite Hmod in H0. left. destruct seen; [reflexivity | discriminate].
    + destruct (IH _ H t1 e t2 eq_refl Hmod) as [Hs | (e' & Hin & He')].
      * apply orb_true_iff in Hs as [Hs | Hs]; [left; exact Hs |].
        right. exists e1. split; [left; reflexivity | exact Hs].
      * right. exists e'. split; [right; exact Hin | exact He'].
Qed.

Lemma exec_bind {W A B} (E : env W) (p : prog A) (f : A -> prog B) :
  forall w,
    exec E (bind p f) w =
      let '(a, w1, t1) := exec E p w in
      let '(b, w2, t2) := exec E (f a) w1 in
      (b, w2, (t1 ++ t2)%list).
Proof.
  induction p as [a | c k IH]; intros w; cbn [exec bind].
  - destruct (exec E (f a) w) as [[b w2] t2]. reflexivity.
  - destruct (answer E c w) as [r w1]. rewrite IH.
    destruct (exec E (k r) w1) as [[a w2] t1].
    destruct (exec E (f a) w2) as [[b w3] t2]. reflexivity.
Qed.

Lemma exec_mbind {W V A B} (E : env W) (m : M V A) (f : A -> M V B) v w :
  exec E (mbind m f v) w =
    let '((v1, r), w1, t1) := exec E (m v) w in
    match r with
    | Ok a => let '(x, w2, t2) := exec E (f a v1) w1 in (x, w2, (t1 ++ t2)%list)
    | Raise e => ((v1, Raise e), w1, t1)
    end.
Proof.
  unfold mbind. rewrite exec_bind.
  destruct (exec E (m v) w) as [[[v1 [a | e]] w1] t1]; cbn [exec].
  - reflexivity.
  - rewrite app_nil_r. reflexivity.
Qed.

(** ** [download_item], whatever the environment answers *)

Ltac unfold_body :=
  unfold download_item, download_item_body, download_item_handlers, on_status_200,
    persist, ensure_parent, store, compare_existing, try_except, mbind, print, session_get, resp_read,
    os_path_exists, os_makedirs, read_file, write_file, total, partial, pure,
    assign, ret, raise, id.

Ltac case_on_scrutinee :=
  match goal with
  | |- context [match ?x with _ => _ end] =>
      lazymatch x with
      | context [bind] => fail
      | _ => destruct x eqn:?
      end
  end.

Ltac walk_tree :=
  repeat first
    [ progress cbn [always within traces bind negb]
    | intros ?
    | case_on_scrutinee ].

Lemma download_item_always_returns url base_folder :
  always (fun r => r = Ok tt) (download_item url base_folder).
Proof.
  unfold_body. walk_tree.
  all: first [ reflexivity
             | match goal with |- Ok ?u = Ok tt => cbn in u; destruct u; reflexivity end ].
Qed.

Lemma download_item_within url base_folder :
  within 12 (download_item url base_folder).
Proof. unfold_body. walk_tree. all: exact I. Qed.

Lemma download_item_starts url base_folder :
  exists k, download_item url base_folder = Do (Print (INFO_Processing url)) k.
Proof. unfold_body. cbn. eexists. reflexivity. Qed.

Lemma download_item_traces url base_folder :
  traces (fun t _ =>
    body_first url false t = true
    /\ (existsb (fetch_raised url) t = true -> no_store_change t = true)
    /\ (forall s, existsb (status_is url s) t = true -> s <> 200%Z ->
          no_store_call t = true
          /\ outcome t = Some (if (s =? 404)%Z then NotFound else HTTPError s)))
    (download_item url base_folder).
Proof.
  unfold_body. walk_tree.
  all: cbn; rewrite ?String.eqb_refl; cbn.
  all: split; [reflexivity |]; split; [ try discriminate; try reflexivity |].
  all: intros s Hs Hne.
  all: rewrite ?orb_false_r in Hs; try discriminate Hs.
  all: apply Z.eqb_eq in Hs; subst s.
  all: try (apply Z.eqb_eq in Heqb; contradiction).
  all: rewrite ?Heqb0; split; reflexivity.
Qed.

(** ** [asyncio.gather] over coroutines that never raise *)

Lemma verdict_safe pool :
  Forall safe pool -> forall e, verdict pool <> First_raised e.
Proof.
  induction 1 as [| p pool Hp _ IH]; intros e; cbn; [discriminate |].
  destruct p as [[[] | e'] | c k].
  - apply IH.
  - cbn in Hp. discriminate.
  - specialize (IH e). destruct (verdict pool); congruence.
Qed.

Lemma verdict_done pool :
  verdict pool = All_done -> forall p, In p pool -> exists u, p = Ret (Ok u).
Proof.
  induction pool as [| q pool IH]; cbn; intros H p Hin; [contradiction |].
  destruct q as [[u | e] | c k]; try discriminate.
  - destruct Hin as [<- | Hin]; [eauto | auto].
  - destruct (verdict pool); discriminate.
Qed.

Lemma verdict_all_returned pool :
  Forall safe pool -> (forall p, In p pool -> within 0 p) -> verdict pool = All_done.
Proof.
  induction 1 as [| p pool Hp _ IH]; intros H0; cbn; [reflexivity |].
  destruct p as [[[] | e] | c k].
  - apply IH. intros q Hq. apply H0. right. exact Hq.
  - cbn in Hp. discriminate.
  - destruct (H0 (Do c k)). left. reflexivity.
Qed.

Lemma safe_insert pool i c k (r : reply c) :
  Forall safe pool -> pool !! i = Some (Do c k) -> Forall safe (<[i := k r]> pool).
Proof.
  intros Hall Hi. apply Forall_insert; [exact Hall |].
  rewrite Forall_forall in Hall. apply (Hall (Do c k)).
  - apply list_elem_of_lookup. eauto.
Qed.

Section Gather.

Context {W : Type} (E : env W).

Lemma gather_never_raises schedule :
  forall pool w, Forall safe pool ->
    forall e, fst (fst (gather E schedule pool w)) <> First_raised e.
Proof.
  induction schedule as [| i later IH]; intros pool w Hsafe e; cbn [gather].
  - pose proof (verdict_safe pool Hsafe) as Hv.
    destruct (verdict pool); cbn; [discriminate | apply Hv | discriminate].
  - pose proof (verdict_safe pool Hsafe) as Hv.
    destruct (verdict pool); cbn; [discriminate | apply Hv |].
    destruct (pool !! i) as [[a | c k] |] eqn:Hi; try apply IH; try exact Hsafe.
    destruct (answer E c w) as [r w1].
    specialize (IH (<[i := k r]> pool) w1 (safe_insert pool i c k r Hsafe Hi) e).
    destruct (gather E later (<[i := k r]> pool) w1) as [[g w2] t]. exact IH.
Qed.

Lemma turns_cons_eq i later : turns i (i :: later) = S (turns i later).
Proof. unfold turns. rewrite filter_cons_True by reflexivity. reflexivity. Qed.

Lemma turns_cons_ne i j later : j <> i -> turns i (j :: later) = turns i later.
Proof. intros H. unfold turns. rewrite filter_cons_False by exact H. reflexivity. Qed.

Lemma turns_cons_le i j later : turns i later <= turns i (j :: later).
Proof.
  destruct (decide (j = i)) as [-> | Hne].
  - rewrite turns_cons_eq. lia.
  - rewrite turns_cons_ne by exact Hne. lia.
Qed.

Lemma gather_completes schedule :
  forall pool w, Forall safe pool -> enough_turns schedule pool ->
    fst (fst (gather E schedule pool w)) = All_done.
Proof.
  induction schedule as [| i later IH]; intros pool w Hsafe Hturns; cbn [gather].
  - rewrite (verdict_all_returned pool Hsafe); [reflexivity |].
    intros p Hp. apply list_elem_of_In, list_elem_of_lookup in Hp as [i Hi].
    destruct (Hturns i p Hi) as (n & Hn & Hle). cbn in Hle.
    replace n with 0 in Hn by lia. exact Hn.
  - pose proof (verdict_safe pool Hsafe) as Hv.
    destruct (verdict pool) as [| e |]; [reflexivity | destruct (Hv e eq_refl) |].
    destruct (pool !! i) as [[a | c k] |] eqn:Hi.
    + apply IH; [exact Hsafe |]. intros j p Hj.
      destruct (decide (i = j)) as [<- | Hne].
      * rewrite Hi in Hj. injection Hj as <-. exists 0. split; [exact I | lia].
      * destruct (Hturns j p Hj) as (n & Hn & Hle).
        rewrite turns_cons_ne in Hle by exact Hne. eauto.
    + destruct (answer E c w) as [r w1].
      assert (Hgo : fst (fst (gather E later (<[i := k r]> pool) w1)) = All_done).
      { apply IH; [exact (safe_insert pool i c k r Hsafe Hi) |].
        intros j p Hj. destruct (decide (i = j)) as [<- | Hne].
        - rewrite list_lookup_insert_eq in Hj by (eapply lookup_lt_Some; exact Hi).
          injection Hj as <-.
          destruct (Hturns i _ Hi) as (n & Hn & Hle).
          rewrite turns_cons_eq in Hle.
          destruct n as [| m]; [destruct Hn |]. exists m. split; [apply Hn | lia].
        - rewrite list_lookup_insert_ne in Hj by exact Hne.
          destruct (Hturns j p Hj) as (n & Hn & Hle).
          rewrite turns_cons_ne in Hle by exact Hne. eauto. }
      destruct (gather E later (<[i := k r]> pool) w1) as [[g w2] t]. exact Hgo.
    + apply IH; [exact Hsafe |]. intros j p Hj.
      destruct (Hturns j p Hj) as (n & Hn & Hle).
      exists n. split; [exact Hn |].
      destruct (decide (i = j)) as [<- | Hne]; [congruence |].
      rewrite turns_cons_ne in Hle by exact Hne. exact Hle.
Qed.

Lemma gather_makes_first_call schedule :
  forall pool w i c k, pool !! i = Some (Do c k) ->
    fst (fst (gather E schedule pool w)) = All_done ->
    exists r, In (Ev c r) (trace (gather E schedule pool w)).
Proof.
  induction schedule as [| j later IH]; intros pool w i c k Hi Hdone; cbn [gather] in *.
  - destruct (verdict pool) eqn:Hv; try discriminate.
    destruct (verdict_done pool Hv (Do c k)) as [u Hu]; [| discriminate].
    apply list_elem_of_In, list_elem_of_lookup. eauto.
  - destruct (verdict pool) eqn:Hv; try discriminate.
    { destruct (verdict_done pool Hv (Do c k)) as [u Hu]; [| discriminate].
      apply list_elem_of_In, list_elem_of_lookup. eauto. }
    destruct (pool !! j) as [[a | c' k'] |] eqn:Hj; try (eapply IH; eassumption).
    destruct (answer E c' w) as [r w1] eqn:Hans.
    destruct (decide (j = i)) as [-> | Hne].
    + rewrite Hi in Hj. injection Hj as <- Hk.
      destruct (gather E later _ w1) as [[g w2] t]. exists r. left. reflexivity.
    + assert (Hi' : <[j := k' r]> pool !! i = Some (Do c k))
        by (rewrite list_lookup_insert_ne by exact Hne; exact Hi).
      specialize (IH (<[j := k' r]> pool) w1 i c k Hi').
      destruct (gather E later (<[j := k' r]> pool) w1) as [[g w2] t].
      destruct (IH Hdone) as [r' Hr']. exists r'. right. exact Hr'.
Qed.

End Gather.

Lemma log_print (l : line) (r : reply (Print l)) (t : list event) :
  In (Ev (Print l) r) t -> In l (log t).
Proof.
  intros H. apply list_elem_of_In. apply list_elem_of_In in H.
  unfold log. apply list_elem_of_omap. exists (Ev (Print l) r). split; [exact H | reflexivity].
Qed.

Lemma batch_safe (batch : list coroutine) : Forall safe (map coroutine_body batch).
Proof.
  apply Forall_forall. intros p Hp. apply list_elem_of_In, in_map_iff in Hp as ([url base] & <- & _).
  apply download_item_always_returns.
Qed.

(** ** The filesystem *)

Module FsFacts.
Import Fs.

Lemma at_loc_cons tr n l : at_loc tr (n :: l) = tr !! (n :: l).
Proof. reflexivity. Qed.

Lemma at_loc_none tr l : at_loc tr l = None -> l <> [] /\ tr !! l = None.
Proof. destruct l; cbn; [discriminate | intros H; split; [discriminate | exact H]]. Qed.

Lemma at_loc_insert_eq tr l n : l <> [] -> at_loc (<[l := n]> tr) l = Some n.
Proof. destruct l; [congruence |]. intros _. cbn. apply lookup_insert_eq. Qed.

Lemma at_loc_insert_ne tr l x n : l <> x -> at_loc (<[l := n]> tr) x = at_loc tr x.
Proof. destruct x; [reflexivity |]. intros H. cbn. apply lookup_insert_ne. exact H. Qed.

(** Storing a regular file where there was no directory changes no
    directory. *)
Lemma is_dir_insert_file tr l r d :
  at_loc tr l <> Some Dir ->
  forall x, is_dir (<[l := File r d]> tr) x = is_dir tr x.
Proof.
  intros Hl x. unfold is_dir.
  destruct (decide (l = x)) as [<- | Hne].
  - assert (l <> []) by (intros ->; apply Hl; reflexivity).
    rewrite at_loc_insert_eq by assumption.
    destruct (at_loc tr l) as [[] |]; congruence.
  - rewrite at_loc_insert_ne by exact Hne. reflexivity.
Qed.

Lemma walk_ext tr tr' :
  (forall x, is_dir tr' x = is_dir tr x) ->
  forall names cur, walk tr' cur names = walk tr cur names.
Proof.
  intros H. induction names as [| n rest IH]; intros cur; cbn; [reflexivity |].
  rewrite H. destruct (is_dir tr cur); [apply IH | reflexivity].
Qed.

Lemma walk_mono tr tr' :
  (forall x, is_dir tr x = true -> is_dir tr' x = true) ->
  forall names cur l, walk tr cur names = Some l -> walk tr' cur names = Some l.
Proof.
  intros H. induction names as [| n rest IH]; intros cur l; cbn; [auto |].
  destruct (is_dir tr cur) eqn:Hd; [| discriminate].
  rewrite (H _ Hd). apply IH.
Qed.

Lemma walk_locate tr :
  forall names cur l, walk tr cur names = Some l -> l = foldl enter cur names.
Proof.
  induction names as [| n rest IH]; intros cur l; cbn.
  - congruence.
  - destruct (is_dir tr cur); [apply IH | discriminate].
Qed.

Lemma resolve_locate fs p l : resolve fs p = Some l -> l = locate fs p.
Proof.
  unfold resolve, locate. destruct (String.eqb p ""); [discriminate |].
  apply walk_locate.
Qed.

Lemma grows_refl tr : grows tr tr.
Proof. split; auto. Qed.

Lemma grows_trans a b c : grows a b -> grows b c -> grows a c.
Proof.
  intros [d1 n1 k1] [d2 n2 k2]. split; auto.
  intros x n H. destruct (n2 x n H) as [H' | ->]; auto.
Qed.

Lemma ensure_dir_spec tr cur tr' :
  ensure_dir tr cur = Some tr' -> is_dir tr' cur = true /\ grows tr tr'.
Proof.
  unfold ensure_dir. destruct (at_loc tr cur) as [[r d |] |] eqn:Hat; try discriminate.
  - intros [= <-]. split; [| apply grows_refl]. unfold is_dir. rewrite Hat. reflexivity.
  - intros [= <-]. apply at_loc_none in Hat as [Hne Hnone]. split.
    + unfold is_dir. rewrite at_loc_insert_eq by exact Hne. reflexivity.
    + split.
      * intros x Hx. unfold is_dir in *.
        destruct (decide (cur = x)) as [<- | Hx'].
        -- rewrite at_loc_insert_eq by exact Hne. reflexivity.
        -- rewrite at_loc_insert_ne by exact Hx'. exact Hx.
      * intros x n Hx. destruct (decide (cur = x)) as [<- | Hx'].
        -- rewrite lookup_insert_eq in Hx. right. congruence.
        -- rewrite lookup_insert_ne in Hx by exact Hx'. left. exact Hx.
      * intros x n Hx. rewrite lookup_insert_ne; [exact Hx |]. congruence.
Qed.

Lemma mkdirs_spec :
  forall names tr cur tr' l, mkdirs tr cur names = Some (tr', l) ->
    walk tr' cur names = Some l /\ is_dir tr' l = true /\ grows tr tr'.
Proof.
  induction names as [| n rest IH]; intros tr cur tr' l; cbn.
  - destruct (ensure_dir tr cur) as [tr1 |] eqn:He; [| discriminate].
    intros [= <- <-]. apply ensure_dir_spec in He as [Hd Hg]. auto.
  - destruct (ensure_dir tr cur) as [tr1 |] eqn:He; [| discriminate].
    intros Hm. apply ensure_dir_spec in He as [Hd Hg].
    destruct (IH _ _ _ _ Hm) as (Hw & Hl & Hg').
    rewrite (grows_dirs _ _ Hg' _ Hd).
    split; [exact Hw |]. split; [exact Hl |]. eapply grows_trans; eassumption.
Qed.

Lemma grows_at_loc tr tr' x n :
  grows tr tr' -> at_loc tr' x = Some n -> at_loc tr x = Some n \/ n = Dir.
Proof.
  destruct x; cbn; [intros _ [= <-]; auto |].
  intros Hg H. exact (grows_new _ _ Hg _ _ H).
Qed.

(** [os.makedirs(p, exist_ok=True)], when it returns, leaves [p] a
    directory, creates directories only and keeps what was there. *)
Lemma makedirs_spec fs p fs' :
  makedirs fs p true = Ok fs' ->
  cwd fs' = cwd fs /\ grows (tree fs) (tree fs')
  /\ exists l, resolve fs' p = Some l /\ is_dir (tree fs') l = true.
Proof.
  unfold makedirs, resolve. destruct (String.eqb p "") eqn:Hp; [discriminate |].
  cbn [negb andb].
  destruct (mkdirs (tree fs) (start fs p) (Str.split "/" p)) as [[tr' l] |] eqn:Hm;
    [| discriminate].
  intros [= <-]. cbn. apply mkdirs_spec in Hm as (Hw & Hl & Hg).
  split; [reflexivity |]. split; [exact Hg |]. exists l. split; [exact Hw | exact Hl].
Qed.

End FsFacts.

Module StoreFacts.
Import Fs FsFacts.

Lemma read_exists fs p d : read fs p = Ok d -> exists_ fs p = true.
Proof. unfold read, exists_. destruct (lookup fs p); [reflexivity | discriminate]. Qed.

Lemma lookup_read fs p d : lookup fs p = Some (File true d) -> read fs p = Ok d.
Proof. unfold read. intros ->. reflexivity. Qed.

Lemma lookup_resolve fs p n :
  lookup fs p = Some n <-> exists l, resolve fs p = Some l /\ at_loc (tree fs) l = Some n.
Proof.
  unfold lookup. destruct (resolve fs p) as [l |]; split.
  - eauto.
  - intros (l' & [= <-] & H). exact H.
  - discriminate.
  - intros (l' & H & _). discriminate.
Qed.

(** Writing a regular file moves no path name. *)
Lemma resolve_after_write fs l r d q :
  at_loc (tree fs) l <> Some Dir ->
  resolve (mk (cwd fs) (<[l := File r d]> (tree fs)) (denied fs)) q = resolve fs q.
Proof.
  intros Hl. unfold resolve, start. cbn. destruct (String.eqb q ""); [reflexivity |].
  apply walk_ext. apply is_dir_insert_file. exact Hl.
Qed.

Lemma exists_after_write fs l r d q :
  at_loc (tree fs) l <> Some Dir ->
  exists_ fs q = true ->
  exists_ (mk (cwd fs) (<[l := File r d]> (tree fs)) (denied fs)) q = true.
Proof.
  intros Hl. unfold exists_, lookup. rewrite resolve_after_write by exact Hl.
  destruct (resolve fs q) as [lq |]; [| discriminate]. cbn.
  destruct (decide (l = lq)) as [<- | Hne].
  - destruct l; [reflexivity |]. cbn. rewrite lookup_insert_eq. reflexivity.
  - rewrite at_loc_insert_ne by exact Hne. auto.
Qed.

(** Writing over a regular file replaces its data and nothing else. *)
Lemma write_existing fs p r old d fs' :
  lookup fs p = Some (File r old) -> write fs p d = Ok fs' ->
  lookup fs' p = Some (File r d)
  /\ forall q, exists_ fs q = true -> exists_ fs' q = true.
Proof.
  intros H. apply lookup_resolve in H as (l & Hres & Hat).
  assert (Hnd : at_loc (tree fs) l <> Some Dir) by congruence.
  assert (Hne : l <> []) by (intros ->; discriminate).
  unfold write. rewrite Hres, Hat.
  destruct (bool_decide (l ∈ denied fs)); [discriminate |]. intros [= <-]. split.
  - apply lookup_resolve. exists l. split.
    + rewrite resolve_after_write by exact Hnd. exact Hres.
    + cbn. apply at_loc_insert_eq. exact Hne.
  - intros q. apply exists_after_write. exact Hnd.
Qed.


(** What was written once can be written again, and changes nothing. *)
Lemma write_twice fs p d fs' : write fs p d = Ok fs' -> write fs' p d = Ok fs'.
Proof.
  unfold write at 1. destruct (resolve fs p) as [l |] eqn:Hres; [| discriminate].
  destruct (at_loc (tree fs) l) as [[r old |] |] eqn:Hat; try discriminate.
  all: destruct (bool_decide (l ∈ denied fs)) eqn:Hden; [discriminate |].
  all: intros [= <-]; unfold write.
  all: assert (Hnd : at_loc (tree fs) l <> Some Dir) by congruence.
  all: assert (Hne : l <> []) by (intros ->; discriminate).
  all: rewrite resolve_after_write by exact Hnd; rewrite Hres.
  all: cbn [tree cwd denied]; rewrite (at_loc_insert_eq _ _ _ Hne), Hden.
  all: rewrite insert_insert_eq; reflexivity.
Qed.

(** Writing where nothing is stored creates a readable file. *)
Lemma write_new fs p d fs' :
  exists_ fs p = false -> write fs p d = Ok fs' ->
  lookup fs' p = Some (File true d)
  /\ forall q, exists_ fs q = true -> exists_ fs' q = true.
Proof.
  unfold exists_ at 1, lookup at 1, write.
  destruct (resolve fs p) as [l |] eqn:Hres; [| discriminate].
  destruct (at_loc (tree fs) l) as [n |] eqn:Hat; [discriminate |].
  destruct (bool_decide (l ∈ denied fs)); [intros _ H; discriminate H |].
  intros _ [= <-].
  assert (Hnd : at_loc (tree fs) l <> Some Dir) by congruence.
  apply at_loc_none in Hat as [Hne _]. split.
  - apply lookup_resolve. exists l. split.
    + rewrite resolve_after_write by exact Hnd. exact Hres.
    + cbn. apply at_loc_insert_eq. exact Hne.
  - intros q. apply exists_after_write. exact Hnd.
Qed.

(** A directory cannot be opened for writing. *)
Lemma write_dir fs p : lookup fs p = Some Dir -> exists e, write fs p = fun _ => Raise e.
Proof.
  intros H. apply lookup_resolve in H as (l & Hres & Hat).
  unfold write. rewrite Hres, Hat. eauto.
Qed.

(** [os.makedirs] does not fill a vacant place with a file. *)
Lemma vacant_after_makedirs fs dir fs' p n :
  makedirs fs dir true = Ok fs' -> vacant fs p -> lookup fs' p = Some n -> n = Dir.
Proof.
  intros Hm Hv Hl. apply makedirs_spec in Hm as (Hcwd & Hg & _).
  apply lookup_resolve in Hl as (l & Hres & Hat).
  apply resolve_locate in Hres. subst l.
  assert (Hloc : locate fs' p = locate fs p).
  { unfold locate, start. rewrite Hcwd. reflexivity. }
  rewrite Hloc in Hat.
  destruct (grows_at_loc _ _ _ _ Hg Hat) as [H | H]; [| exact H].
  unfold vacant in Hv. congruence.
Qed.

Lemma vacant_lookup fs p n : vacant fs p -> lookup fs p = Some n -> False.
Proof.
  intros Hv Hl. apply lookup_resolve in Hl as (l & Hres & Hat).
  apply resolve_locate in Hres. subst l. unfold vacant in Hv. congruence.
Qed.

Lemma makedirs_exists fs dir fs' :
  makedirs fs dir true = Ok fs' -> exists_ fs' dir = true.
Proof.
  intros Hm. apply makedirs_spec in Hm as (_ & _ & l & Hres & Hd).
  unfold exists_, lookup. rewrite Hres. unfold is_dir in Hd.
  destruct (at_loc (tree fs') l); [reflexivity | discriminate].
Qed.

End StoreFacts.

(** ** The content store, on the machine *)

Ltac run_machine :=
  cbn [exec bind answer machine machine_answer disk net stdout returned final
       trace fst snd negb].

Lemma persist_skips w p d v :
  Fs.exists_ (disk w) (Posixpath.dirname p) = true ->
  Fs.read (disk w) p = Ok d ->
  exec machine (persist p d v) w =
    ((v, Ok tt),
     World (disk w) (net w) (stdout w ++ [SKIP_matches p])%list,
     [Ev (PathExists (Posixpath.dirname p)) true; Ev (PathExists p) true;
      Ev (ReadFile p) (Ok d); Ev (Print (SKIP_matches p)) tt]).
Proof.
  intros Hdir Hread. unfold_body. run_machine.
  rewrite Hdir. run_machine.
  rewrite (StoreFacts.read_exists _ _ _ Hread). run_machine.
  rewrite Hread. run_machine. rewrite String.eqb_refl. run_machine.
  reflexivity.
Qed.


(** The parent directory is there once [ensure_parent] has returned, and
    only directories were added. *)
Lemma ensure_parent_runs w dir v :
  let x := exec machine (ensure_parent dir v) w in
  net (final x) = net w
  /\ (snd (returned x) = Ok tt ->
        fst (returned x) = v
        /\ Fs.exists_ (disk (final x)) dir = true
        /\ (disk (final x) = disk w \/ Fs.makedirs (disk w) dir true = Ok (disk (final x)))
        /\ (log (trace x) = [] \/ log (trace x) = [Creating_directory dir])).
Proof.
  unfold_body. run_machine.
  destruct (Fs.exists_ (disk w) dir) eqn:Hdir; run_machine.
  - auto 7.
  - destruct (Fs.makedirs (disk w) dir true) as [fs1 | e] eqn:Hmk; run_machine.
    + split; [reflexivity |]. intros _.
      split; [reflexivity |]. split; [exact (StoreFacts.makedirs_exists _ _ _ Hmk) |].
      split; [right; reflexivity | right; reflexivity].
    + split; [reflexivity | discriminate].
Qed.

(** Where only a directory can be, [store] either raises or is not asked to
    write; where nothing is, it writes. *)
Lemma store_fresh w p d dir v :
  (forall n, Fs.lookup (disk w) p = Some n -> n = Fs.Dir) ->
  let x := exec machine (store p d dir v) w in
  snd (returned x) = Ok tt ->
  log (trace x) = [SAVE_Saved (Posixpath.basename p) dir]
  /\ Fs.lookup (disk (final x)) p = Some (Fs.File true d)
  /\ (forall q, Fs.exists_ (disk w) q = true -> Fs.exists_ (disk (final x)) q = true)
  /\ net (final x) = net w.
Proof.
  intros Hnode. unfold_body. run_machine.
  destruct (Fs.exists_ (disk w) p) eqn:Hex.
  - unfold Fs.exists_ in Hex.
    destruct (Fs.lookup (disk w) p) as [n |] eqn:Hl; [| discriminate].
    pose proof (Hnode n eq_refl) as ->.
    destruct (StoreFacts.write_dir _ _ Hl) as [e He].
    run_machine. unfold Fs.read. rewrite Hl. run_machine. rewrite He. run_machine.
    discriminate.
  - run_machine. destruct (Fs.write (disk w) p d) as [fs2 | e] eqn:Hw; run_machine.
    + intros _. destruct (StoreFacts.write_new _ _ _ _ Hex Hw) as [Hl2 Hkeep]. auto.
    + discriminate.
Qed.

Lemma persist_fresh w p d v :
  vacant (disk w) p ->
  let x := exec machine (persist p d v) w in
  snd (returned x) = Ok tt ->
  outcome (trace x) = Some Saved
  /\ Fs.lookup (disk (final x)) p = Some (Fs.File true d)
  /\ Fs.exists_ (disk (final x)) (Posixpath.dirname p) = true
  /\ net (final x) = net w.
Proof.
  intros Hvac. unfold persist. cbv zeta. rewrite exec_mbind.
  pose proof (ensure_parent_runs w (Posixpath.dirname p) v) as Hpar. cbv zeta in Hpar.
  destruct (exec machine (ensure_parent (Posixpath.dirname p) v) w) as [[[v1 r1] w1] t1].
  cbn [returned final trace fst snd] in Hpar. destruct Hpar as [Hnet1 Hpar].
  destruct r1 as [[] | e]; [| discriminate].
  destruct (Hpar eq_refl) as (-> & Hdir & Hdisk & Hlog1).
  assert (Hnode : forall n, Fs.lookup (disk w1) p = Some n -> n = Fs.Dir).
  { intros n Hn. destruct Hdisk as [Heq | Hmk].
    - rewrite Heq in Hn. destruct (StoreFacts.vacant_lookup _ _ _ Hvac Hn).
    - eapply StoreFacts.vacant_after_makedirs; eassumption. }
  pose proof (store_fresh w1 p d (Posixpath.dirname p) v Hnode) as Hst. cbv zeta in Hst.
  destruct (exec machine (store p d (Posixpath.dirname p) v) w1) as [[[v2 r2] w2] t2].
  cbn [returned final trace fst snd] in *.
  intros Hret. destruct (Hst Hret) as (Hlog2 & Hlook & Hkeep & Hnet2).
  split; [| split; [exact Hlook | split; [apply Hkeep, Hdir | congruence]]].
  unfold outcome, log in *. rewrite omap_app, Hlog2.
  destruct Hlog1 as [-> | ->]; reflexivity.
Qed.

(** ** Path names and their directories *)

Module PathFacts.
Import Fs FsFacts.

Import Str.

Lemma app_cons x (s t : string) : (String x s ++ t = String x (s ++ t))%string.
Proof. reflexivity. Qed.

Lemma app_empty_l (t : string) : ("" ++ t)%string = t.
Proof. reflexivity. Qed.

Lemma app_empty_r (s : string) : (s ++ "")%string = s.
Proof.
  induction s as [| x s IH]; [reflexivity |]. rewrite app_cons, IH. reflexivity.
Qed.

Lemma app_assoc_s (a b c : string) : ((a ++ b) ++ c = a ++ (b ++ c))%string.
Proof.
  induction a as [| x a IH]; [reflexivity |]. rewrite !app_cons, IH. reflexivity.
Qed.

Lemma split_nonempty sep s : Str.split sep s <> [].
Proof.
  destruct s as [| a s]; cbn; [discriminate |].
  destruct (Str.is_char sep a); [discriminate |].
  destruct (Str.split sep s); discriminate.
Qed.

Lemma split_app sep (a b : string) :
  Str.split sep (a ++ String sep b) = (Str.split sep a ++ Str.split sep b)%list.
Proof.
  induction a as [| c a IH]; rewrite ?app_cons, ?app_empty_l; cbn.
  - unfold Str.is_char. rewrite Ascii.eqb_refl. reflexivity.
  - destruct (Str.is_char sep c).
    + rewrite IH. reflexivity.
    + rewrite IH. pose proof (split_nonempty sep a) as Hn.
      destruct (Str.split sep a) as [| h t]; [destruct (Hn eq_refl) | reflexivity].
Qed.

Lemma split_no_sep sep s : Str.contains sep s = false -> Str.split sep s = [s].
Proof.
  induction s as [| c s IH]; cbn; [reflexivity |].
  intros H. apply orb_false_iff in H as [Hc Hs].
  rewrite Hc, (IH Hs). reflexivity.
Qed.

Lemma split_slashes j : Str.split "/" (slashes j) = replicate (S j) "".
Proof. induction j as [| j IH]; [reflexivity |]. cbn [slashes Str.split]. cbn. rewrite IH. reflexivity. Qed.

Lemma split_app_slashes s j :
  Str.split "/" (s ++ slashes j) = (Str.split "/" s ++ replicate j "")%list.
Proof.
  destruct j as [| j]; cbn [slashes replicate].
  - rewrite app_empty_r, app_nil_r. reflexivity.
  - rewrite split_app, split_slashes. reflexivity.
Qed.

(** [rsplit] cuts after the last separator. *)
Lemma rsplit_spec c p :
  p = (fst (Str.rcut c p) ++ snd (Str.rcut c p))%string
  /\ Str.contains c (snd (Str.rcut c p)) = false
  /\ (Str.contains c p = true ->
        exists h0, fst (Str.rcut c p) = (h0 ++ String c "")%string).
Proof.
  induction p as [| a p (IH1 & IH2 & IH3)]; cbn.
  - split; [reflexivity |]. split; [reflexivity | discriminate].
  - destruct (Str.rcut c p) as [h t] eqn:Hr. cbn in *.
    destruct (Str.contains c p) eqn:Hc.
    + cbn. rewrite app_cons. split; [congruence |]. split; [exact IH2 |].
      intros _. destruct (IH3 eq_refl) as [h0 ->]. exists (String a h0). reflexivity.
    + destruct (Str.is_char c a) eqn:Ha; cbn.
      * split; [reflexivity |]. split; [exact Hc |]. intros _. exists "".
        apply Ascii.eqb_eq in Ha. subst a. reflexivity.
      * rewrite Ha, Hc. split; [reflexivity |]. split; [reflexivity | discriminate].
Qed.

Lemma rstrip_spec s : exists j, s = (Str.rstrip "/" s ++ slashes j)%string.
Proof.
  induction s as [| a s [j IH]]; cbn.
  - exists 0. reflexivity.
  - destruct (Str.rstrip "/" s) as [| b r] eqn:Hr.
    + rewrite app_empty_l in IH. destruct (Str.is_char "/" a) eqn:Ha.
      * apply Ascii.eqb_eq in Ha. subst a. exists (S j). rewrite app_empty_l. cbn. congruence.
      * exists j. rewrite app_cons, app_empty_l. congruence.
    + exists j. rewrite app_cons. congruence.
Qed.

Lemma rstrip_app_slash s : Str.rstrip "/" (s ++ "/") = Str.rstrip "/" s.
Proof.
  induction s as [| a s IH]; [reflexivity |]. rewrite app_cons. cbn. rewrite IH. reflexivity.
Qed.

Lemma all_slashes j : Str.all_chars (Str.is_char "/") (slashes j) = true.
Proof. induction j; cbn; auto. Qed.

Lemma walk_app tr xs ys cur :
  walk tr cur (xs ++ ys) =
    match walk tr cur xs with Some c => walk tr c ys | None => None end.
Proof.
  revert cur. induction xs as [| x xs IH]; intros cur; cbn; [reflexivity |].
  destruct (is_dir tr cur); [apply IH | reflexivity].
Qed.

Lemma walk_empties tr j cur l : walk tr cur (replicate j "") = Some l -> l = cur.
Proof.
  revert cur. induction j as [| j IH]; intros cur; cbn; [congruence |].
  destruct (is_dir tr cur); [apply IH | discriminate].
Qed.

Lemma walk_root_empties tr j : walk tr [] (replicate j "") = Some [].
Proof. induction j as [| j IH]; cbn; [reflexivity | exact IH]. Qed.

Lemma walk_first_dir tr cur names l :
  names <> [] -> walk tr cur names = Some l -> is_dir tr cur = true.
Proof.
  destruct names as [| n rest]; [congruence |]. intros _. cbn.
  destruct (is_dir tr cur); [reflexivity | discriminate].
Qed.

Lemma all_chars_slashes s :
  Str.all_chars (Str.is_char "/") s = true -> exists j, s = slashes j.
Proof.
  induction s as [| a s IH]; cbn.
  - exists 0. reflexivity.
  - intros H. apply andb_true_iff in H as [Ha Hs]. destruct (IH Hs) as [j ->].
    apply Ascii.eqb_eq in Ha. subst a. exists (S j). reflexivity.
Qed.

(** Where something exists under a path name with a directory part, the
    directory part exists. *)
Lemma dirname_exists fs p n :
  lookup fs p = Some n -> Str.contains "/" p = true ->
  exists_ fs (Posixpath.dirname p) = true.
Proof.
  intros Hl Hc. unfold lookup, resolve in Hl.
  destruct (String.eqb p "") eqn:Hp; [discriminate |].
  destruct (walk (tree fs) (start fs p) (Str.split "/" p)) as [l |] eqn:Hw; [| discriminate].
  destruct (rsplit_spec "/" p) as (Hsplit & Hlast & Hhead).
  destruct (Hhead Hc) as [h0 Hh0]. clear Hhead.
  unfold Posixpath.dirname. set (head := fst (Str.rcut "/" p)) in *.
  set (last := snd (Str.rcut "/" p)) in *.
  assert (Hne : String.eqb head "" = false).
  { apply String.eqb_neq. rewrite Hh0. destruct h0; discriminate. }
  rewrite Hne. cbn [negb andb].
  destruct (Str.all_chars (Str.is_char "/") head) eqn:Hall; cbn [negb].
  - (* the directory part is the root *)
    destruct (all_chars_slashes _ Hall) as [j Hj].
    unfold exists_, lookup, resolve. rewrite Hne.
    assert (Hst : start fs head = []).
    { unfold start. rewrite Hj. destruct j; [rewrite Hj in Hne; discriminate | cbn; reflexivity]. }
    rewrite Hst, Hj, split_slashes, walk_root_empties. reflexivity.
  - destruct (rstrip_spec head) as [j Hj].
    set (dn := Str.rstrip "/" head) in *.
    assert (Hdn : dn <> "").
    { intros E. rewrite E, app_empty_l in Hj. rewrite Hj, all_slashes in Hall. discriminate. }
    assert (Hst : start fs dn = start fs p).
    { unfold start. rewrite Hsplit, Hj. destruct dn; [congruence |].
      rewrite !app_cons. cbn. reflexivity. }
    remember (start fs p) as st eqn:Est in Hw.
    rewrite Hsplit, Hh0 in Hw.
    assert (Hh0' : exists j', h0 = (dn ++ slashes j')%string).
    { destruct (rstrip_spec h0) as [j' Hj']. exists j'.
      unfold dn. rewrite Hh0, rstrip_app_slash. exact Hj'. }
    destruct Hh0' as [j' Hj'].
    rewrite app_assoc_s, app_cons, app_empty_l in Hw.
    rewrite split_app, (split_no_sep _ _ Hlast), Hj', split_app_slashes in Hw.
    rewrite <- app_assoc, walk_app in Hw.
    destruct (walk (tree fs) st (Str.split "/" dn)) as [c |] eqn:Hwd; [| discriminate].
    assert (Hd : is_dir (tree fs) c = true).
    { eapply walk_first_dir; [| exact Hw]. destruct (replicate j' ""); discriminate. }
    unfold exists_, lookup, resolve.
    apply String.eqb_neq in Hdn. rewrite Hdn, Hst, <- Est, Hwd.
    unfold is_dir in Hd. destruct (at_loc (tree fs) c); [reflexivity | discriminate].
Qed.

End PathFacts.

Lemma machine_frame {A} (p : prog A) :
  forall w, no_store_change (trace (exec machine p w)) = true ->
    disk (final (exec machine p w)) = disk w.
Proof.
  induction p as [a | c k IH]; intros w; cbn [exec]; [reflexivity |].
  destruct (answer machine c w) as [r w1] eqn:Hans.
  specialize (IH r w1).
  destruct (exec machine (k r) w1) as [[a w2] t]. cbn in *.
  intros H. apply andb_true_iff in H as [Hc Ht]. rewrite (IH Ht).
  destruct c; cbn in Hc; try discriminate; cbn in Hans; injection Hans as _ <-; reflexivity.
Qed.

Lemma forallb_In {A} (f : A -> bool) (l : list A) :
  forallb f l = true -> forall x, In x l -> f x = true.
Proof. intros H x Hx. rewrite forallb_forall in H. auto. Qed.

Lemma existsb_In {A} (f : A -> bool) (l : list A) x :
  In x l -> f x = true -> existsb f l = true.
Proof. intros Hx Hf. apply existsb_exists. eauto. Qed.

(** C10: in every run of [download_item], a call that changes the local
    store comes after the response body was read in full; and when the
    request or the reading of the body raises, no call changes the store, so
    that on the machine the disk is left as it was. *)
Theorem body_read_before_store :
  (forall (W : Type) (E : env W) url base_folder w,
      let t := trace (exec E (download_item url base_folder) w) in
      (forall t1 e t2, t = (t1 ++ e :: t2)%list -> modifies_store (ev_call e) = true ->
          exists e', In e' t1 /\ body_read url e' = true)
      /\ ((exists e, In e t /\ fetch_raised url e = true) ->
          forall e, In e t -> modifies_store (ev_call e) = false))
  /\ (forall url base_folder w,
        let x := exec machine (download_item url base_folder) w in
        (exists e, In e (trace x) /\ fetch_raised url e = true) ->
        disk (final x) = disk w).
Proof.
  assert (Hgen : forall (W : Type) (E : env W) url base_folder w,
      let t := trace (exec E (download_item url base_folder) w) in
      body_first url false t = true
      /\ (existsb (fetch_raised url) t = true -> no_store_change t = true)).
  { intros W E url base_folder w.
    pose proof (traces_exec E _ _ w (download_item_traces url base_folder)) as H.
    cbv beta in H. cbv zeta. destruct H as (H1 & H2 & _). split; assumption. }
  split.
  - intros W E url base_folder w t. destruct (Hgen W E url base_folder w) as [Hfirst Hraised].
    fold t in Hfirst, Hraised. split.
    + intros t1 e t2 Heq Hmod.
      destruct (body_first_split url t false Hfirst t1 e t2 Heq Hmod) as [H | H];
        [discriminate | exact H].
    + intros (e0 & Hin0 & He0) e Hin.
      pose proof (forallb_In _ _ (Hraised (existsb_In _ _ _ Hin0 He0)) e Hin) as H.
      apply negb_true_iff in H. exact H.
  - intros url base_folder w x (e0 & Hin0 & He0).
    apply machine_frame. destruct (Hgen world machine url base_folder w) as [_ Hraised].
    apply Hraised. eapply existsb_In; eassumption.
Qed.

(** ** The path mapper *)

Module MapperFacts.
Import Str PathFacts.

Lemma split_head sep s :
  exists rest, split sep s = fst (Str.cut (is_char sep) s) :: rest.
Proof.
  induction s as [| a s [rest IH]]; cbn.
  - eauto.
  - destruct (is_char sep a); cbn; [eauto |]. rewrite IH.
    destruct (Str.cut (is_char sep) s) as [h t]. cbn. eauto.
Qed.

Lemma strip_one s :
  (if startswith "/" s then tail s else s) = MapperSpec.strip_one_separator s.
Proof.
  destruct s as [| c s]; [reflexivity |]. cbn. unfold is_char.
  rewrite Ascii.eqb_sym, andb_true_r. reflexivity.
Qed.

Lemma path_to_local_steps base_folder path :
  path_to_local base_folder path =
    Ok (Posixpath.join base_folder (MapperSpec.relative_path path)).
Proof.
  unfold path_to_local, MapperSpec.relative_path, MapperSpec.strip_query.
  destruct (split_head "?" path) as [rest ->]. cbn [index0 result_bind].
  rewrite strip_one. reflexivity.
Qed.

Lemma join_relative a b :
  startswith "/" b = false -> a <> "" -> endswith "/" a = false ->
  Posixpath.join a b = (a ++ "/" ++ b)%string.
Proof.
  intros Hb Ha He. unfold Posixpath.join. rewrite Hb, He.
  apply String.eqb_neq in Ha. rewrite Ha. reflexivity.
Qed.

Lemma endswith_app a : endswith "/" a = true -> exists a', a = (a' ++ "/")%string.
Proof.
  induction a as [| c a IH]; cbn; [discriminate |].
  destruct a as [| c' a].
  - intros H. apply Ascii.eqb_eq in H. subst c. exists "". reflexivity.
  - intros H. destruct (IH H) as [a' ->]. exists (String c a'). reflexivity.
Qed.

Lemma foldl_enter_prefix names :
  ~ In ".." names -> forall cur, cur `prefix_of` foldl Fs.enter cur names.
Proof.
  induction names as [| n names IH]; intros Hno cur; cbn; [reflexivity |].
  assert (Hn : n <> "..") by (intros ->; apply Hno; left; reflexivity).
  assert (Hrest : ~ In ".." names) by (intros H; apply Hno; right; exact H).
  etransitivity; [| apply (IH Hrest)].
  unfold Fs.enter. destruct (String.eqb n "" || String.eqb n "."); [reflexivity |].
  apply String.eqb_neq in Hn. rewrite Hn. apply prefix_app_r. reflexivity.
Qed.

Lemma start_app fs (a b : string) : a <> "" -> Fs.start fs (a ++ b) = Fs.start fs a.
Proof. destruct a; [congruence |]. intros _. reflexivity. Qed.

(** Joining a relative name onto [a] walks on from where [a] points. *)
Lemma locate_join fs a b :
  startswith "/" b = false ->
  Fs.locate fs (Posixpath.join a b) = foldl Fs.enter (Fs.locate fs a) (split "/" b).
Proof.
  intros Hb. unfold Posixpath.join. rewrite Hb.
  destruct (String.eqb a "") eqn:Ha.
  - apply String.eqb_eq in Ha. subst a. cbn [orb]. rewrite app_empty_l.
    unfold Fs.locate, Fs.start. rewrite Hb. reflexivity.
  - cbn [orb]. apply String.eqb_neq in Ha.
    destruct (endswith "/" a) eqn:He.
    + destruct (endswith_app a He) as [a' ->].
      unfold Fs.locate. rewrite start_app by exact Ha.
      rewrite app_assoc_s, app_cons, app_empty_l, split_app.
      replace (split "/" (a' ++ "/")) with (split "/" a' ++ [""])%list
        by (rewrite split_app; reflexivity).
      rewrite !foldl_app. reflexivity.
    + unfold Fs.locate. rewrite start_app by exact Ha.
      rewrite app_cons, app_empty_l, split_app, foldl_app. reflexivity.
Qed.

Lemma contains_app c (a b : string) : contains c (a ++ String c b) = true.
Proof.
  induction a as [| x a IH]; rewrite ?app_cons, ?app_empty_l; cbn.
  - unfold is_char. rewrite Ascii.eqb_refl. reflexivity.
  - rewrite IH. apply orb_true_r.
Qed.

Lemma startswith_contains c s : startswith (String c "") s = true -> contains c s = true.
Proof.
  destruct s as [| x s]; cbn; [discriminate |].
  rewrite andb_true_r. unfold is_char. rewrite Ascii.eqb_sym. intros ->. reflexivity.
Qed.

(** Every local path made under the configured root has a directory
    part. *)
Lemma local_path_has_directory url p :
  local_filepath_of BASE_DOWNLOAD_FOLDER url = Ok p -> contains "/" p = true.
Proof.
  unfold local_filepath_of. destruct (Urllib.urlparse url) as [r | e]; [| discriminate].
  cbn [result_bind]. rewrite path_to_local_steps. intros [= <-].
  unfold Posixpath.join.
  destruct (startswith "/" (MapperSpec.relative_path (Urllib.path r))) eqn:Hs.
  - apply startswith_contains. exact Hs.
  - cbn [String.eqb endswith orb]. apply contains_app.
Qed.

End MapperFacts.

(** C4: the path mapper does what the specification lists: the path
    component is cut at the first [?], percent-decoded, relieved of one
    leading [/] and joined onto the root with [os.path.join]; it fails for no
    locator that [urlparse] accepts; the path [/a/b%20c.png?x=1] is mapped to
    [<root>/a/b c.png].  The mapper is a function of the two strings alone:
    it has no access to the store. *)
Theorem path_mapper_steps :
  (forall base_folder url parsed_url,
      Urllib.urlparse url = Ok parsed_url ->
      local_filepath_of base_folder url =
        Ok (Posixpath.join base_folder
              (MapperSpec.relative_path (Urllib.path parsed_url))))
  /\ (forall root, root <> "" -> Str.endswith "/" root = false ->
        path_to_local root "/a/b%20c.png?x=1" = Ok (root ++ "/a/b c.png")%string)
  /\ local_filepath_of BASE_DOWNLOAD_FOLDER "https://www.transformice.com/a/b%20c.png?x=1"
     = Ok "TFM_DOWNLOADED_ASSETS/a/b c.png".
Proof.
  split; [| split].
  - intros base_folder url parsed_url Hparse. unfold local_filepath_of.
    rewrite Hparse. cbn [result_bind]. apply MapperFacts.path_to_local_steps.
  - intros root Hne Hend. rewrite MapperFacts.path_to_local_steps.
    change (MapperSpec.relative_path "/a/b%20c.png?x=1") with "a/b c.png".
    rewrite MapperFacts.join_relative by (reflexivity || assumption). reflexivity.
  - vm_compute. reflexivity.
Qed.

(** C8, as amended: when the decoded path, without its query and without one
    leading [/], does not begin with a [/] and has no [..] component, the
    local path is the root joined with it and names a place under the
    root. *)
Theorem local_path_under_root (fs : Fs.t) (base_folder url : string)
    (parsed_url : Urllib.ParseResult) :
  Urllib.urlparse url = Ok parsed_url ->
  let rel := MapperSpec.relative_path (Urllib.path parsed_url) in
  Str.startswith "/" rel = false ->
  ~ In ".." (Str.split "/" rel) ->
  exists p, local_filepath_of base_folder url = Ok p
            /\ p = Posixpath.join base_folder rel
            /\ under fs base_folder p.
Proof.
  intros Hparse rel Hrel Hdots. exists (Posixpath.join base_folder rel).
  split; [| split; [reflexivity |]].
  - unfold local_filepath_of. rewrite Hparse. cbn [result_bind].
    apply MapperFacts.path_to_local_steps.
  - unfold under. rewrite MapperFacts.locate_join by exact Hrel.
    apply MapperFacts.foldl_enter_prefix. exact Hdots.
Qed.

(** C8, as stated, fails: a [..] in the locator's path leads out of the
    root. *)
Lemma local_path_escapes_root :
  ~ (forall url p, local_filepath_of BASE_DOWNLOAD_FOLDER url = Ok p ->
                   under Demo.fs0 BASE_DOWNLOAD_FOLDER p).
Proof.
  intros H.
  specialize (H "https://www.transformice.com/../x.png" "TFM_DOWNLOADED_ASSETS/../x.png" eq_refl).
  unfold under in H. vm_compute in H.
  destruct H as [k Hk]. discriminate Hk.
Qed.

Lemma makedirs_raises fs p exist_ok e :
  Fs.makedirs fs p exist_ok = Raise e -> is_ClientError e = false /\ is_OSError e = true.
Proof.
  unfold Fs.makedirs. repeat case_on_scrutinee; try discriminate.
  all: intros [= <-]; split; reflexivity.
Qed.

Lemma write_raises fs p d e :
  Fs.write fs p d = Raise e -> is_ClientError e = false /\ is_OSError e = true.
Proof.
  unfold Fs.write. repeat case_on_scrutinee; try discriminate.
  all: intros [= <-]; split; reflexivity.
Qed.

(** On the machine, a 200 response hands the body to the content store;
    whatever the store raises is reported as a filesystem error. *)
Lemma download_item_200 w url base_folder content p :
  net w url = Ok (HttpResponse 200 (Ok content)) ->
  local_filepath_of base_folder url = Ok p ->
  let x := exec machine (download_item url base_folder) w in
  let y := exec machine (persist p content p)
             (World (disk w) (net w) (stdout w ++ [INFO_Processing url])%list) in
  (snd (returned y) = Ok tt /\ final x = final y
   /\ log (trace x) = INFO_Processing url :: log (trace y))
  \/ outcome (trace x) = Some FilesystemError.
Proof.
  intros Hnet Hpath. unfold_body. run_machine. rewrite Hnet. cbn [status body Z.eqb Pos.eqb].
  run_machine. rewrite Hnet. cbn [status body]. rewrite Hpath. run_machine.
  destruct (Fs.exists_ (disk w) (Posixpath.dirname p)); run_machine.
  2: destruct (Fs.makedirs (disk w) (Posixpath.dirname p) true) as [fs1 | e] eqn:Hmk;
       run_machine;
       [| destruct (makedirs_raises _ _ _ _ Hmk) as [-> ->]; run_machine; right; reflexivity].
  all: match goal with
       | |- context [Fs.exists_ ?fs ?q] => destruct (Fs.exists_ fs q); run_machine
       end.
  all: repeat match goal with
       | |- context [Fs.read ?fs ?q] => destruct (Fs.read fs q) as [old | er]; run_machine
       | |- context [String.eqb ?a ?b] => destruct (String.eqb a b); run_machine
       | |- context [Fs.write ?fs ?q ?c] =>
           let Hw := fresh "Hw" in
           destruct (Fs.write fs q c) as [fs2 | e] eqn:Hw; run_machine;
           [| destruct (write_raises _ _ _ _ Hw) as [-> ->]; run_machine; right; reflexivity]
       end.
  all: left; split; [reflexivity |]; split; reflexivity.
Qed.

(** C1: persisting the same bytes twice at a place where nothing was stored
    gives Saved, then Skipped with no write, and the file then holds exactly
    those bytes; "content is written" is the first call returning without a
    filesystem error. *)
Theorem persist_saved_then_skipped (w : world) (p d : string) :
  vacant (disk w) p ->
  let first := exec machine (persist p d p) w in
  let second := exec machine (persist p d p) (final first) in
  snd (returned first) = Ok tt ->
  outcome (trace first) = Some Saved
  /\ outcome (trace second) = Some Skipped
  /\ no_store_change (trace second) = true
  /\ disk (final second) = disk (final first)
  /\ Fs.read (disk (final second)) p = Ok d.
Proof.
  intros Hvac first second Hret.
  destruct (persist_fresh w p d p Hvac Hret) as (Hsaved & Hlook & Hdir & _).
  fold first in Hsaved, Hlook, Hdir.
  pose proof (StoreFacts.lookup_read _ _ _ Hlook) as Hread.
  pose proof (persist_skips (final first) p d p Hdir Hread) as Hsecond.
  fold second in Hsecond. rewrite Hsecond. cbn [trace final returned fst snd disk].
  split; [exact Hsaved |]. split; [reflexivity |]. split; [reflexivity |].
  split; [reflexivity | exact Hread].
Qed.


(** C5: a response whose status is not 200 makes [download_item] touch the
    filesystem in no way: 404 is reported as NotFound, any other status as
    HTTPError, and the disk of the machine stays as it was.  A 200 response
    with body [hello], written where nothing was stored, leaves a file of
    exactly 5 bytes. *)
Theorem status_mapping :
  (forall (W : Type) (E : env W) url base_folder w s,
      let t := trace (exec E (download_item url base_folder) w) in
      existsb (status_is url s) t = true -> s <> 200%Z ->
      no_store_call t = true
      /\ outcome t = Some (if (s =? 404)%Z then NotFound else HTTPError s))
  /\ (forall w url base_folder s b,
        net w url = Ok (HttpResponse s b) -> s <> 200%Z ->
        disk (final (exec machine (download_item url base_folder) w)) = disk w)
  /\ (forall w url base_folder p,
        net w url = Ok (HttpResponse 200 (Ok "hello")) ->
        local_filepath_of base_folder url = Ok p ->
        vacant (disk w) p ->
        let x := exec machine (download_item url base_folder) w in
        outcome (trace x) <> Some FilesystemError ->
        outcome (trace x) = Some Saved
        /\ exists data, Fs.lookup (disk (final x)) p = Some (Fs.File true data)
                        /\ String.length data = 5).
Proof.
  assert (Hgen : forall (W : Type) (E : env W) url base_folder w s,
      let t := trace (exec E (download_item url base_folder) w) in
      existsb (status_is url s) t = true -> s <> 200%Z ->
      no_store_call t = true
      /\ outcome t = Some (if (s =? 404)%Z then NotFound else HTTPError s)).
  { intros W E url base_folder w s t.
    pose proof (traces_exec E _ _ w (download_item_traces url base_folder)) as H.
    cbv beta in H. destruct H as (_ & _ & H). apply H. }
  split; [exact Hgen |]. split.
  - intros w url base_folder s b Hnet Hs.
    apply machine_frame.
    assert (Hst : existsb (status_is url s)
                    (trace (exec machine (download_item url base_folder) w)) = true).
    { unfold_body. run_machine. rewrite Hnet. cbn [status].
      match goal with
      | |- context [exec machine ?p ?w1] => destruct (exec machine p w1) as [[a w2] t]
      end.
      cbn. rewrite String.eqb_refl, Z.eqb_refl. reflexivity. }
    destruct (Hgen world machine url base_folder w s Hst Hs) as [Hno _].
    unfold no_store_change, no_store_call in *.
    rewrite forallb_forall in Hno |- *. intros e He. specialize (Hno e He).
    destruct (ev_call e); cbn in *; congruence.
  - intros w url base_folder p Hnet Hpath Hvac x Hok.
    destruct (download_item_200 w url base_folder "hello" p Hnet Hpath)
      as [(Hret & Hfinal & Hlog) | Hbad]; [| contradiction].
    fold x in Hfinal, Hlog.
    destruct (persist_fresh
                (World (disk w) (net w) (stdout w ++ [INFO_Processing url])%list)
                p "hello" p Hvac Hret) as (Hsaved & Hlook & _).
    rewrite <- Hfinal in Hlook.
    split.
    + unfold outcome in *. rewrite Hlog. exact Hsaved.
    + exists "hello". split; [exact Hlook | reflexivity].
Qed.

(** ** Discovery *)

Lemma traces_bind {A B} (p : prog A) (f : A -> prog B) :
  forall P : list event -> B -> Prop,
    traces (fun t1 a => traces (fun t2 b => P (t1 ++ t2)%list b) (f a)) p ->
    traces P (bind p f).
Proof.
  induction p as [a | c k IH]; intros P H; cbn in *.
  - exact H.
  - intros r. apply IH. apply H.
Qed.

Lemma always_bind {A B} (p : prog A) (f : A -> prog B) (P : B -> Prop) :
  always (fun a => always P (f a)) p -> always P (bind p f).
Proof.
  induction p as [a | c k IH]; cbn; intros H.
  - exact H.
  - intros r. apply IH, H.
Qed.

Lemma always_impl {A} (P Q : A -> Prop) (p : prog A) :
  (forall a, P a -> Q a) -> always P p -> always Q p.
Proof.
  intros HPQ. induction p as [a | c k IH]; cbn; intros H.
  - auto.
  - intros r. apply IH, H.
Qed.

Lemma body_of_warnings url l : body_of url (warnings l) = None.
Proof.
  unfold warnings. induction (non_strings l) as [| x xs IH]; [reflexivity | exact IH].
Qed.

Lemma log_warnings l : log (warnings l) = map WARN_non_string (non_strings l).
Proof.
  unfold warnings, log. induction (non_strings l) as [| x xs IH]; [reflexivity |].
  cbn. rewrite <- IH. reflexivity.
Qed.

Lemma locators_of_cons_str s l : locators_of (PyStr s :: l) = full_url_of s :: locators_of l.
Proof. reflexivity. Qed.

Lemma enqueue_loop (partial_urls : list pyval) :
  forall v,
    traces (fun t r =>
              r = (Locals (derpolino_urls_to_download v ++ locators_of partial_urls)%list
                          (tasks v), Ok tt)
              /\ t = warnings partial_urls)
      (for_each partial_urls enqueue v).
Proof.
  induction partial_urls as [| x l IH]; intros v.
  - cbn. rewrite app_nil_r. destruct v. split; reflexivity.
  - cbn [for_each]. unfold mbind. apply traces_bind.
    destruct x.
    all: try (unfold enqueue, print, total; cbn [traces]; intros [];
      eapply traces_impl; [| apply IH]; cbv beta; intros t r [-> ->];
      split; reflexivity).
    unfold enqueue, derpolino_append. cbn [traces].
    eapply traces_impl; [| apply IH]. cbv beta. intros t r [-> ->].
    cbn [derpolino_urls_to_download tasks]. rewrite locators_of_cons_str, <- app_assoc.
    split; reflexivity.
Qed.
Section DiscoveryFacts.

Variable json_loads : string -> result pyval.

Ltac unfold_discover :=
  unfold discover, process_content, try_except, mbind, print, session_get, resp_read,
    total, partial, pure, ret, raise, id.

Lemma post_after_body php_url v content tail r :
  snd r = Ok tt ->
  tasks (fst r) = tasks v ->
  derpolino_urls_to_download (fst r) =
    (derpolino_urls_to_download v ++ found json_loads content)%list ->
  (forall l, listing_error json_loads php_url content = Some l -> In l (log tail)) ->
  discover_post json_loads php_url v
    (Ev (Print (INFO_Fetching php_url)) tt
     :: Ev (SessionGet php_url) (Ok 200%Z)
     :: Ev (RespRead php_url) (Ok content) :: tail) r.
Proof.
  intros Hr Ht Hd Herr. unfold discover_post. cbn [body_of status_of].
  rewrite String.eqb_refl.
  split; [exact Hr |]. split; [exact Ht |]. split; [exact Hd |]. split.
  - intros s [= <-] Hs. congruence.
  - intros c l [= <-] Hl. right. apply Herr. exact Hl.
Qed.

Lemma discover_spec html_path_segment v :
  traces (discover_post json_loads (php_url_of html_path_segment) v)
    (discover json_loads html_path_segment v).
Proof.
  set (php_url := php_url_of html_path_segment).
  unfold_discover. fold php_url.
  cbn [traces bind]. intros [] [status | e]; cbn [traces bind].
  2: { intros []. unfold discover_post. cbn. rewrite app_nil_r.
       repeat split; try discriminate. }
  destruct (status =? 200)%Z eqn:Hstatus; cbn [traces bind].
  2: { intros []. unfold discover_post. cbn. rewrite String.eqb_refl, app_nil_r.
       repeat split; try discriminate; injection H as <-; auto. }
  apply Z.eqb_eq in Hstatus. subst status.
  intros [content | e]; cbn [traces bind].
  2: { intros []. unfold discover_post. cbn. rewrite String.eqb_refl, app_nil_r.
       repeat split; try discriminate; injection H as <-; congruence. }
  destruct (json_loads (Utf8.decode Utf8.Ignore content)) as [data | e] eqn:Hjson;
    cbn [traces bind].
  2: { destruct (is_JSONDecodeError e) eqn:He; cbn [traces bind]; intros [].
       all: apply post_after_body; cbn [fst snd]; try reflexivity.
       all: unfold found, listing_error; rewrite Hjson, ?He, ?app_nil_r; try reflexivity.
       all: intros l [= <-]; left; reflexivity. }
  destruct data; cbn [traces bind].
  6, 7: repeat apply traces_bind;
    (eapply traces_impl; [| apply enqueue_loop]); cbv beta; intros t r [-> ->];
    cbn [traces bind]; rewrite ?app_nil_r;
    (apply post_after_body; cbn [fst snd]; try reflexivity;
     unfold found, listing_error; rewrite Hjson; [reflexivity | discriminate]).
  all: intros []; cbn [traces bind for_each ret].
  all: apply post_after_body; cbn [fst snd]; try reflexivity.
  all: unfold found, listing_error; rewrite Hjson, ?app_nil_r; try reflexivity.
  all: intros l [= <-]; left; reflexivity.
Qed.

End DiscoveryFacts.

Lemma locators_of_qualified items : Forall qualified (locators_of items).
Proof.
  induction items as [| x l IH]; [constructor |].
  destruct x; try exact IH. constructor; [eexists; reflexivity | exact IH].
Qed.

Lemma found_qualified json_loads content : Forall qualified (found json_loads content).
Proof.
  unfold found. destruct (json_loads _) as [[] |]; try constructor;
    apply locators_of_qualified.
Qed.

Lemma startswith_app (pre s : string) : Str.startswith pre (pre ++ s) = true.
Proof.
  induction pre as [| c pre IH]; [reflexivity |]. rewrite PathFacts.app_cons. cbn.
  rewrite Ascii.eqb_refl. exact IH.
Qed.

Lemma full_url_of_is_full s : is_full_url (full_url_of s) = true.
Proof.
  unfold full_url_of. destruct (is_full_url s) eqn:H; cbn [negb]; [exact H |].
  unfold is_full_url.
  change ("https://www.transformice.com/" ++ Str.lstrip "/" s)%string
    with ("https://" ++ ("www.transformice.com/" ++ Str.lstrip "/" s))%string.
  rewrite startswith_app. apply orb_true_r.
Qed.

Lemma discover_collecting json_loads seg v :
  always (collecting v) (discover json_loads seg v).
Proof.
  apply traces_always. eapply traces_impl; [| apply discover_spec].
  intros t r (Hr & Ht & Hd & _). split; [exact Hr |]. split; [exact Ht |].
  eexists. split; [exact Hd |].
  destruct (body_of _ t); [apply found_qualified | constructor].
Qed.

Lemma discover_loop json_loads segs :
  forall v, always (collecting v) (for_each segs (discover json_loads) v).
Proof.
  induction segs as [| seg segs IH]; intros v.
  - cbn. split; [reflexivity |]. split; [reflexivity |].
    exists []. rewrite app_nil_r. split; [reflexivity | constructor].
  - cbn [for_each]. unfold mbind. apply always_bind.
    eapply always_impl; [| apply discover_collecting].
    intros [v1 r1] (Hr & Ht & extra1 & Hd & Hq). cbn [fst snd] in *. subst r1.
    eapply always_impl; [| apply IH].
    intros [v2 r2] (Hr2 & Ht2 & extra2 & Hd2 & Hq2). unfold collecting. cbn [fst snd] in *.
    split; [exact Hr2 |]. split; [congruence |].
    exists (extra1 ++ extra2)%list. split.
    + rewrite Hd2, Hd, app_assoc. reflexivity.
    + apply Forall_app. split; assumption.
Qed.

Lemma for_each_add_task {A} (g : A -> string) (l : list A) :
  forall v, for_each l (fun x => add_task (g x)) v =
    Ret (Locals (derpolino_urls_to_download v)
                (tasks v ++ map (fun x => Download_item (g x) BASE_DOWNLOAD_FOLDER) l)%list,
         Ok tt).
Proof.
  induction l as [| x l IH]; intros v.
  - cbn. rewrite app_nil_r. destruct v. reflexivity.
  - cbn [for_each]. unfold mbind, add_task at 1, tasks_append. cbn [bind].
    rewrite IH. cbn. rewrite <- app_assoc. reflexivity.
Qed.

(** The batch: what was discovered, then what is configured. *)

(** Steps through the body of a function, one statement at a time. *)

Lemma always_mbind {V A B} (m : M V A) (f : A -> M V B) (v : V)
    (P : V * result B -> Prop) :
  always (fun x => match snd x with
                   | Ok a => always P (f a (fst x))
                   | Raise e => P (fst x, Raise e)
                   end) (m v) ->
  always P (mbind m f v).
Proof.
  intros H. unfold mbind. apply always_bind.
  eapply always_impl; [| exact H].
  intros [v1 [a | e]] Ha; exact Ha.
Qed.

Lemma always_after_print {V B} (l : line) (f : unit -> M V B) (v : V)
    (P : V * result B -> Prop) :
  always P (f tt v) -> always P (mbind (print l) f v).
Proof. intros H. apply always_mbind. cbn. intros []. exact H. Qed.

Lemma always_after_total {V B} (c : call) (f : reply c -> M V B) (v : V)
    (P : V * result B -> Prop) :
  (forall r, always P (f r v)) -> always P (mbind (total c) f v).
Proof. intros H. apply always_mbind. cbn. intros r. apply H. Qed.

Lemma always_after_partial {V A B} (c : call) (cast : reply c -> result A)
    (f : A -> M V B) (v : V) (P : V * result B -> Prop) :
  (forall r, match cast r with
             | Ok a => always P (f a v)
             | Raise e => P (v, Raise e)
             end) ->
  always P (mbind (partial c cast) f v).
Proof. intros H. apply always_mbind. cbn. intros r. apply H. Qed.

Lemma mbind_returns {V A B} (m : M V A) (f : A -> M V B) (v v1 : V) (a : A) :
  m v = Ret (v1, Ok a) -> mbind m f v = f a v1.
Proof. intros H. unfold mbind. rewrite H. reflexivity. Qed.

Lemma collected_when_startup_raises e : collected (Locals [] [], Raise e).
Proof.
  split; [right; reflexivity |]. exists []. split; [constructor | discriminate].
Qed.

Lemma collect_after_startup_spec json_loads :
  always collected (collect_after_startup json_loads (Locals [] [])).
Proof.
  unfold collect_after_startup.
  apply always_after_print. apply always_mbind.
  eapply always_impl; [| apply discover_loop].
  intros [v1 r1] (Hr & Ht & extra & Hd & Hq). cbn [fst snd] in *. subst r1.
  cbn [derpolino_urls_to_download tasks app] in Hd, Ht.
  rewrite (mbind_returns get_locals _ v1 v1 v1 eq_refl).
  rewrite (mbind_returns _ _ _ _ _ (for_each_add_task (fun u => u) _ v1)).
  apply always_after_print. apply always_after_print.
  rewrite (mbind_returns _ _ _ _ _ (for_each_add_task _ _ _)).
  apply always_after_print.
  rewrite (mbind_returns _ _ _ _ _ (for_each_add_task _ _ _)).
  apply always_after_print.
  rewrite for_each_add_task. cbn [always].
  unfold collected. cbn [fst snd derpolino_urls_to_download tasks].
  split; [left; reflexivity |]. exists extra. split; [exact Hq |]. intros _.
  split; [exact Hd |]. rewrite Ht, Hd. cbn [app].
  unfold static_urls. rewrite !map_app, !map_map, <- !app_assoc. reflexivity.
Qed.

(** The batch: what was discovered, then what is configured. *)
Lemma collect_tasks_spec json_loads :
  always collected (collect_tasks json_loads (Locals [] [])).
Proof.
  unfold collect_tasks.
  apply always_after_print. apply always_after_print.
  apply always_after_partial. intros [abspath | e]; cbn [id];
    [| apply collected_when_startup_raises].
  apply always_after_print. apply always_after_print.
  apply always_after_total. intros base_exists.
  destruct base_exists; cbn [negb].
  - rewrite (mbind_returns (ret tt) _ _ _ _ eq_refl). apply collect_after_startup_spec.
  - apply always_mbind. apply always_after_partial. intros [[] | e]; cbn [id].
    + cbn [always print total]. intros []. cbn [fst snd]. apply collect_after_startup_spec.
    + cbn [fst snd]. apply collected_when_startup_raises.
Qed.
Lemma listing_error_found json_loads php_url content l :
  listing_error json_loads php_url content = Some l -> found json_loads content = [].
Proof.
  unfold listing_error, found.
  destruct (json_loads _) as [[] |]; try reflexivity; discriminate.
Qed.

Lemma locals_eta v r :
  tasks r = tasks v -> derpolino_urls_to_download r = derpolino_urls_to_download v -> r = v.
Proof. destruct r, v. cbn. intros -> ->. reflexivity. Qed.

(** C6: one round of discovery never raises.  When the listing endpoint
    answers with a status other than 200, with text that [json.loads]
    rejects, or with a value that is neither a dict nor a list, the round
    adds no locator, prints an error and returns; and the batch collected by
    [start_downloads] ends with the forty configured locators. *)
Theorem discovery_fallback :
  (forall json_loads (W : Type) (E : env W) html_path_segment v w,
      let php_url := php_url_of html_path_segment in
      let x := exec E (discover json_loads html_path_segment v) w in
      snd (returned x) = Ok tt
      /\ (forall s, status_of php_url (trace x) = Some s -> s <> 200%Z ->
            fst (returned x) = v /\ In (ERROR_fetch_status php_url s) (log (trace x)))
      /\ (forall content e, body_of php_url (trace x) = Some content ->
            json_loads (Utf8.decode Utf8.Ignore content) = Raise e ->
            fst (returned x) = v
            /\ In (if is_JSONDecodeError e
                   then ERROR_json_decode php_url (String.substring 0 200 content)
                   else ERROR_processing php_url e) (log (trace x)))
      /\ (forall content data, body_of php_url (trace x) = Some content ->
            json_loads (Utf8.decode Utf8.Ignore content) = Ok data ->
            (forall items, data <> PyDict items) -> (forall items, data <> PyList items) ->
            fst (returned x) = v /\ In (ERROR_json_structure php_url data) (log (trace x))))
  /\ (forall json_loads (W : Type) (E : env W) w,
        let x := exec E (collect_tasks json_loads (Locals [] [])) w in
        snd (returned x) = Ok tt ->
        exists discovered,
          tasks (fst (returned x)) =
            map (fun u => Download_item u BASE_DOWNLOAD_FOLDER) (discovered ++ static_urls))
  /\ List.length static_urls = 40.
Proof.
  split; [| split; [| reflexivity]].
  - intros json_loads W E seg v w php_url x.
    pose proof (traces_exec E _ _ w (discover_spec json_loads seg v)) as H.
    fold php_url x in H. destruct H as (Hr & Ht & Hd & Hstatus & Herr).
    assert (Hnone : forall content l, body_of php_url (trace x) = Some content ->
              listing_error json_loads php_url content = Some l ->
              fst (returned x) = v /\ In l (log (trace x))).
    { intros content l Hb Hl. split; [| eapply Herr; eassumption].
      apply locals_eta; [exact Ht |].
      rewrite Hd, Hb, (listing_error_found _ _ _ _ Hl), app_nil_r. reflexivity. }
    split; [exact Hr |]. split; [| split].
    + intros s Hs Hne. destruct (Hstatus s Hs Hne) as [Hb Hin]. split; [| exact Hin].
      apply locals_eta; [exact Ht |]. rewrite Hd, Hb, app_nil_r. reflexivity.
    + intros content e Hb Hjson. apply (Hnone content _ Hb).
      unfold listing_error. rewrite Hjson. reflexivity.
    + intros content data Hb Hjson Hdict Hlist. apply (Hnone content _ Hb).
      unfold listing_error. rewrite Hjson.
      destruct data; try reflexivity; [destruct (Hlist _ eq_refl) | destruct (Hdict _ eq_refl)].
  - intros json_loads W E w x Hok.
    pose proof (always_exec E _ _ w (collect_tasks_spec json_loads)) as H.
    fold x in H. destruct H as (_ & discovered & _ & H).
    exists discovered. apply H. exact Hok.
Qed.

Lemma lstrip_no_slash s : Str.startswith "/" (Str.lstrip "/" s) = false.
Proof.
  induction s as [| c s IH]; [reflexivity |]. cbn [Str.lstrip].
  destruct (Str.is_char "/" c) eqn:Hc; [exact IH |].
  cbn [Str.startswith]. unfold Str.is_char in Hc.
  rewrite andb_true_r, Ascii.eqb_sym. exact Hc.
Qed.

(** C7: every locator for which [start_downloads] creates a task begins
    with [http://] or [https://]: an entry of a listing that does not is
    put behind the origin [https://www.transformice.com/], without its
    leading slashes; an entry that is not a string is answered with a
    warning and left out. *)
Theorem locators_absolute :
  (forall json_loads (W : Type) (E : env W) w c,
      In c (tasks (fst (returned (exec E (collect_tasks json_loads (Locals [] [])) w)))) ->
      is_full_url (coroutine_url c) = true)
  /\ (forall s, is_full_url (full_url_of s) = true
                /\ (is_full_url s = true -> full_url_of s = s)
                /\ (is_full_url s = false ->
                      full_url_of s = ("https://www.transformice.com/" ++ Str.lstrip "/" s)%string
                      /\ Str.startswith "/" (Str.lstrip "/" s) = false))
  /\ (forall (W : Type) (E : env W) partial_urls v w,
        let x := exec E (for_each partial_urls enqueue v) w in
        returned x =
          (Locals (derpolino_urls_to_download v ++ map full_url_of (strings_of partial_urls))%list
                  (tasks v), Ok tt)
        /\ log (trace x) = map WARN_non_string (non_strings partial_urls)).
Proof.
  split; [| split].
  - intros json_loads W E w c Hc.
    pose proof (always_exec E _ _ w (collect_tasks_spec json_loads)) as H.
    destruct H as ([Hok | Hnil] & discovered & Hq & H); [| rewrite Hnil in Hc; destruct Hc].
    destruct (H Hok) as [_ Ht]. rewrite Ht in Hc.
    apply in_map_iff in Hc as (u & <- & Hu). cbn [coroutine_url].
    apply in_app_iff in Hu as [Hu | Hu].
    + rewrite Forall_forall in Hq. destruct (Hq u) as [s ->].
      * apply list_elem_of_In. exact Hu.
      * apply full_url_of_is_full.
    + assert (Hall : forallb is_full_url static_urls = true) by (vm_compute; reflexivity).
      rewrite forallb_forall in Hall. apply Hall. exact Hu.
  - intros s. split; [apply full_url_of_is_full |]. unfold full_url_of.
    split; intros ->; cbn [negb]; [reflexivity |].
    split; [reflexivity | apply lstrip_no_slash].
  - intros W E partial_urls v w x.
    pose proof (traces_exec E _ _ w (enqueue_loop partial_urls v)) as H.
    fold x in H. destruct H as [-> ->]. rewrite log_warnings.
    split; [| reflexivity]. f_equal. f_equal. f_equal.
    unfold locators_of, strings_of.
    induction partial_urls as [| y l IH]; [reflexivity |].
    destruct y; cbn; rewrite ?IH; reflexivity.
Qed.

(** C9, as amended: what a round of discovery adds is a list, one locator
    for each string entry of the listing and in the listing's order; an
    entry named twice is added twice. *)
Theorem discovered_in_order :
  (forall json_loads (W : Type) (E : env W) html_path_segment v w,
      let x := exec E (discover json_loads html_path_segment v) w in
      derpolino_urls_to_download (fst (returned x)) =
        (derpolino_urls_to_download v
           ++ match body_of (php_url_of html_path_segment) (trace x) with
              | Some content => found json_loads content
              | None => []
              end)%list)
  /\ (forall items, locators_of items = map full_url_of (strings_of items))
  /\ (forall s items, locators_of (PyStr s :: PyStr s :: items)
                      = full_url_of s :: full_url_of s :: locators_of items).
Proof.
  split; [| split].
  - intros json_loads W E seg v w x.
    pose proof (traces_exec E _ _ w (discover_spec json_loads seg v)) as H.
    fold x in H. destruct H as (_ & _ & Hd & _). exact Hd.
  - intros items. unfold locators_of, strings_of.
    induction items as [| y l IH]; [reflexivity |].
    destruct y; cbn; rewrite ?IH; reflexivity.
  - reflexivity.
Qed.

(** C9, as stated, fails: a listing that names one file twice yields the
    same locator twice. *)
Lemma discovered_twice :
  ~ NoDup (derpolino_urls_to_download
             (fst (returned (exec machine
                     (discover DemoListing.json_loads "images" (Locals [] []))
                     DemoListing.w)))).
Proof.
  vm_compute. intros H. apply NoDup_cons in H as [Hnot _].
  apply Hnot. left.
Qed.

(** ** The theorems at work on the example machine *)

Lemma persist_saved_then_skipped_witness :
  vacant (disk Demo.w0) Demo.fresh_path
  /\ snd (returned (exec machine (persist Demo.fresh_path "hello" Demo.fresh_path) Demo.w0)) = Ok tt
  /\ Fs.read
       (disk (final (exec machine (persist Demo.fresh_path "hello" Demo.fresh_path)
                       (final (exec machine (persist Demo.fresh_path "hello" Demo.fresh_path)
                                 Demo.w0)))))
       Demo.fresh_path = Ok "hello".
Proof.
  assert (Hv : vacant (disk Demo.w0) Demo.fresh_path) by (vm_compute; reflexivity).
  assert (Hr : snd (returned (exec machine (persist Demo.fresh_path "hello" Demo.fresh_path)
                                Demo.w0)) = Ok tt) by (vm_compute; reflexivity).
  split; [exact Hv |]. split; [exact Hr |].
  exact (proj2 (proj2 (proj2 (proj2
           (persist_saved_then_skipped Demo.w0 Demo.fresh_path "hello" Hv Hr))))).
Defined.


Lemma path_mapper_steps_witness :
  Urllib.urlparse Demo.image_url
    = Ok (Urllib.mkParseResult "https" "www.transformice.com" "/images/x.png" "" "" "")
  /\ local_filepath_of BASE_DOWNLOAD_FOLDER Demo.image_url
     = Ok "TFM_DOWNLOADED_ASSETS/images/x.png"
  /\ path_to_local "assets" "/a/b%20c.png?x=1" = Ok "assets/a/b c.png".
Proof.
  assert (Hp : Urllib.urlparse Demo.image_url
               = Ok (Urllib.mkParseResult "https" "www.transformice.com" "/images/x.png" "" "" ""))
    by (vm_compute; reflexivity).
  split; [exact Hp |]. split.
  - exact (proj1 path_mapper_steps BASE_DOWNLOAD_FOLDER Demo.image_url _ Hp).
  - refine (proj1 (proj2 path_mapper_steps) "assets" _ _); [discriminate | reflexivity].
Defined.

Lemma status_mapping_witness :
  Demo.net404 Demo.image_url = Ok (HttpResponse 404 (Ok "Not Found"))
  /\ disk (final (exec machine (download_item Demo.image_url BASE_DOWNLOAD_FOLDER) Demo.w404))
     = disk Demo.w404
  /\ outcome (trace (exec machine (download_item Demo.image_url BASE_DOWNLOAD_FOLDER) Demo.w404))
     = Some NotFound
  /\ vacant (disk Demo.w0) "TFM_DOWNLOADED_ASSETS/langues/tfz_en"
  /\ exists data,
       Fs.lookup (disk (final (exec machine (download_item Demo.good_url BASE_DOWNLOAD_FOLDER)
                                 Demo.w0)))
                 "TFM_DOWNLOADED_ASSETS/langues/tfz_en" = Some (Fs.File true data)
       /\ String.length data = 5.
Proof.
  destruct status_mapping as (Hgen & Hframe & Hhello).
  split; [reflexivity |]. split; [| split; [| split]].
  - apply (Hframe Demo.w404 Demo.image_url BASE_DOWNLOAD_FOLDER 404%Z (Ok "Not Found"));
      [reflexivity | discriminate].
  - refine (proj2 (Hgen world machine Demo.image_url BASE_DOWNLOAD_FOLDER Demo.w404 404%Z _ _));
      [vm_compute; reflexivity | discriminate].
  - vm_compute. reflexivity.
  - refine (proj2 (Hhello Demo.w0 Demo.good_url BASE_DOWNLOAD_FOLDER
                     "TFM_DOWNLOADED_ASSETS/langues/tfz_en" _ _ _ _)).
    + reflexivity.
    + vm_compute. reflexivity.
    + vm_compute. reflexivity.
    + vm_compute. discriminate.
Defined.

Lemma discovery_fallback_witness :
  body_of (php_url_of "images")
    (trace (exec machine (discover DemoListing.json_loads "images" (Locals [] []))
              DemoListing.w_broken)) = Some "<html>"
  /\ fst (returned (exec machine (discover DemoListing.json_loads "images" (Locals [] []))
                      DemoListing.w_broken)) = Locals [] []
  /\ exists discovered,
       tasks (fst (returned (exec machine (collect_tasks DemoListing.json_loads (Locals [] []))
                              DemoListing.w_broken)))
       = map (fun u => Download_item u BASE_DOWNLOAD_FOLDER) (discovered ++ static_urls).
Proof.
  destruct discovery_fallback as (Hround & Hbatch & _).
  assert (Hb : body_of (php_url_of "images")
                 (trace (exec machine (discover DemoListing.json_loads "images" (Locals [] []))
                           DemoListing.w_broken)) = Some "<html>") by (vm_compute; reflexivity).
  split; [exact Hb |]. split.
  - destruct (Hround DemoListing.json_loads world machine "images" (Locals [] [])
                DemoListing.w_broken) as (_ & _ & Hraise & _).
    refine (proj1 (Hraise "<html>" (mk_exn false false true "Expecting value") Hb _)).
    vm_compute. reflexivity.
  - apply (Hbatch DemoListing.json_loads world machine DemoListing.w_broken).
    vm_compute. reflexivity.
Defined.

Lemma locators_absolute_witness :
  In (Download_item "https://www.transformice.com/images/a.png" BASE_DOWNLOAD_FOLDER)
     (tasks (fst (returned (exec machine (collect_tasks DemoListing.json_loads (Locals [] []))
                             DemoListing.w))))
  /\ is_full_url "https://www.transformice.com/images/a.png" = true
  /\ full_url_of "/images/a.png" = "https://www.transformice.com/images/a.png".
Proof.
  assert (Hin : In (Download_item "https://www.transformice.com/images/a.png" BASE_DOWNLOAD_FOLDER)
     (tasks (fst (returned (exec machine (collect_tasks DemoListing.json_loads (Locals [] []))
                             DemoListing.w))))) by (vm_compute; left; reflexivity).
  split; [exact Hin |]. split.
  - exact (proj1 locators_absolute DemoListing.json_loads world machine DemoListing.w _ Hin).
  - refine (proj1 (proj2 (proj2 (proj1 (proj2 locators_absolute) "/images/a.png")) _)).
    reflexivity.
Defined.

Lemma local_path_under_root_witness :
  Urllib.urlparse Demo.image_url
    = Ok (Urllib.mkParseResult "https" "www.transformice.com" "/images/x.png" "" "" "")
  /\ exists p, local_filepath_of BASE_DOWNLOAD_FOLDER Demo.image_url = Ok p
               /\ p = Posixpath.join BASE_DOWNLOAD_FOLDER "images/x.png"
               /\ under Demo.fs0 BASE_DOWNLOAD_FOLDER p.
Proof.
  assert (Hp : Urllib.urlparse Demo.image_url
               = Ok (Urllib.mkParseResult "https" "www.transformice.com" "/images/x.png" "" "" ""))
    by (vm_compute; reflexivity).
  split; [exact Hp |].
  refine (local_path_under_root Demo.fs0 BASE_DOWNLOAD_FOLDER Demo.image_url _ Hp _ _).
  - reflexivity.
  - vm_compute. intros [H | [H | []]]; discriminate H.
Defined.

Lemma body_read_before_store_witness :
  In (Ev (SessionGet Demo.bad_url) (Raise Demo.unreachable))
     (trace (exec machine (download_item Demo.bad_url BASE_DOWNLOAD_FOLDER) Demo.w0))
  /\ disk (final (exec machine (download_item Demo.bad_url BASE_DOWNLOAD_FOLDER) Demo.w0))
     = disk Demo.w0.
Proof.
  assert (Hin : In (Ev (SessionGet Demo.bad_url) (Raise Demo.unreachable))
     (trace (exec machine (download_item Demo.bad_url BASE_DOWNLOAD_FOLDER) Demo.w0)))
    by (vm_compute; right; left; reflexivity).
  split; [exact Hin |].
  apply (proj2 body_read_before_store Demo.bad_url BASE_DOWNLOAD_FOLDER Demo.w0).
  exists (Ev (SessionGet Demo.bad_url) (Raise Demo.unreachable)).
  split; [exact Hin | reflexivity].
Defined.

(** ** The calls of a coroutine *)

Lemma every_call_impl {A} (P Q : call -> Prop) (p : prog A) :
  (forall c, P c -> Q c) -> every_call P p -> every_call Q p.
Proof.
  intros HPQ. induction p as [a | c k IH]; cbn; [auto |].
  intros [Hc Hk]. split; [auto |]. intros r. apply IH, Hk.
Qed.

Lemma every_call_bind {A B} (P : call -> Prop) (p : prog A) (f : A -> prog B) :
  every_call P p -> (forall a, every_call P (f a)) -> every_call P (bind p f).
Proof.
  intros Hp Hf. induction p as [a | c k IH]; cbn; [apply Hf |].
  destruct Hp as [Hc Hk]. split; [exact Hc |]. intros r. apply IH, Hk.
Qed.

Lemma every_call_mbind {V A B} (P : call -> Prop) (m : M V A) (f : A -> M V B) v :
  every_call P (m v) -> (forall a v', every_call P (f a v')) ->
  every_call P (mbind m f v).
Proof.
  intros Hm Hf. unfold mbind. apply every_call_bind; [exact Hm |].
  intros [v' [a | e]]; [apply Hf | exact I].
Qed.

Lemma every_call_try {V A} (P : call -> Prop) (body : M V A) (handler : exn -> M V A) v :
  every_call P (body v) -> (forall e v', every_call P (handler e v')) ->
  every_call P (try_except body handler v).
Proof.
  intros Hm Hf. unfold try_except. apply every_call_bind; [exact Hm |].
  intros [v' [a | e]]; [exact I | apply Hf].
Qed.

Lemma every_call_for_each {V A} (P : call -> Prop) (l : list A) (body : A -> M V unit) :
  (forall x, In x l -> forall v, every_call P (body x v)) ->
  forall v, every_call P (for_each l body v).
Proof.
  induction l as [| x l IH]; intros Hbody v; [exact I |].
  cbn [for_each]. apply every_call_mbind.
  - apply Hbody. left. reflexivity.
  - intros _ v'. apply IH. intros y Hy. apply Hbody. right. exact Hy.
Qed.

Lemma every_call_exec {W A} (E : env W) (P : call -> Prop) (p : prog A) :
  forall w, every_call P p -> Forall (fun e => P (ev_call e)) (trace (exec E p w)).
Proof.
  induction p as [a | c k IH]; intros w; cbn; [constructor |].
  intros [Hc Hk]. destruct (answer E c w) as [r w1].
  specialize (IH r w1 (Hk r)). destruct (exec E (k r) w1) as [[a w2] t].
  constructor; [exact Hc | exact IH].
Qed.

Lemma download_item_calls url base_folder :
  every_call (task_call (Download_item url base_folder)) (download_item url base_folder).
Proof.
  unfold_body.
  repeat first
    [ progress cbn [every_call bind negb task_call]
    | split
    | intros ?
    | case_on_scrutinee ].
  all: eauto.
Qed.

(** ** More about [download_item] *)

(** X1: whatever the environment answers, one run of [download_item] sends
    exactly one request, and reads the body, creates directories, reads the
    existing file and writes at most once each: nothing is retried. *)
Theorem download_item_single_request :
  forall (W : Type) (E : env W) url base_folder w,
    let t := trace (exec E (download_item url base_folder) w) in
    calls is_get t = 1
    /\ calls is_body_read t <= 1
    /\ calls is_makedirs t <= 1
    /\ calls is_file_read t <= 1
    /\ calls is_file_write t <= 1.
Proof.
  intros W E url base_folder w.
  refine (traces_exec E _ (fun t _ =>
            calls is_get t = 1 /\ calls is_body_read t <= 1 /\ calls is_makedirs t <= 1
            /\ calls is_file_read t <= 1 /\ calls is_file_write t <= 1) w _).
  unfold_body. walk_tree.
  all: cbn; repeat split; lia.
Qed.

(** X2: every call of a run stays with its locator: the request and the body
    read are for [url], the filesystem is asked about the local path of
    [url] and its directory only, directories are made with [exist_ok=True],
    what is written is exactly the body that was read, and the coroutine
    never asks for an absolute path or for input. *)
Theorem download_item_confined :
  forall (W : Type) (E : env W) url base_folder w,
    let t := trace (exec E (download_item url base_folder) w) in
    Forall (fun e => confined url base_folder t (ev_call e)) t.
Proof.
  intros W E url base_folder w.
  refine (traces_exec E _ (fun t _ =>
            Forall (fun e => confined url base_folder t (ev_call e)) t) w _).
  unfold_body. walk_tree.
  all: repeat (apply Forall_cons; split); try apply Forall_nil.
  all: cbn [confined ev_call body_of]; rewrite ?String.eqb_refl; eauto.
Qed.

(** X3: the log of a run opens with the processing line of its locator and
    holds exactly one line that reports an outcome, so every run is
    classified. *)
Theorem download_item_one_outcome :
  forall (W : Type) (E : env W) url base_folder w,
    let t := trace (exec E (download_item url base_folder) w) in
    head (log t) = Some (INFO_Processing url)
    /\ List.length (List.filter is_outcome_line (log t)) = 1
    /\ exists o, outcome t = Some o.
Proof.
  intros W E url base_folder w.
  refine (traces_exec E _ (fun t _ =>
            head (log t) = Some (INFO_Processing url)
            /\ List.length (List.filter is_outcome_line (log t)) = 1
            /\ exists o, outcome t = Some o) w _).
  unfold_body. walk_tree.
  all: cbn; repeat split; eauto.
Qed.

(** X4: when [session.get] or [resp.read] raises, the run makes no
    filesystem call and prints, after the processing line, the line of the
    first handler that matches: the network error, else the filesystem error
    with the path still [N/A], else the unexpected error and its
    traceback. *)
Theorem download_item_fetch_exception :
  forall (W : Type) (E : env W) url base_folder w e,
    let t := trace (exec E (download_item url base_folder) w) in
    fetch_exn url t = Some e ->
    no_store_call t = true
    /\ log t =
         INFO_Processing url
         :: (if is_ClientError e then [NETWORK_ERROR url e]
             else if is_OSError e then [OS_ERROR url "N/A" e]
             else [UNEXPECTED_ERROR url e; Traceback e]).
Proof.
  intros W E url base_folder w e.
  refine (traces_exec E _ (fun t _ =>
            fetch_exn url t = Some e ->
            no_store_call t = true
            /\ log t =
                 INFO_Processing url
                 :: (if is_ClientError e then [NETWORK_ERROR url e]
                     else if is_OSError e then [OS_ERROR url "N/A" e]
                     else [UNEXPECTED_ERROR url e; Traceback e])) w _).
  unfold_body. walk_tree.
  all: match goal with
       | H : fetch_exn _ _ = Some _ |- _ =>
           cbn in H; rewrite ?String.eqb_refl in H; try discriminate H; injection H as <-
       end.
  all: try congruence.
  all: cbn; split; reflexivity.
Qed.

(** X5: an [OSError] raised by [os.makedirs] or by the write is reported
    last, with the local path that had been computed by then, and the run
    counts as a filesystem error. *)
Theorem download_item_store_exception :
  forall (W : Type) (E : env W) url base_folder w e,
    let t := trace (exec E (download_item url base_folder) w) in
    store_exn t = Some e -> is_ClientError e = false -> is_OSError e = true ->
    exists p, local_filepath_of base_folder url = Ok p
              /\ last (log t) = Some (OS_ERROR url p e)
              /\ outcome t = Some FilesystemError.
Proof.
  intros W E url base_folder w e.
  refine (traces_exec E _ (fun t _ =>
            store_exn t = Some e -> is_ClientError e = false -> is_OSError e = true ->
            exists p, local_filepath_of base_folder url = Ok p
                      /\ last (log t) = Some (OS_ERROR url p e)
                      /\ outcome t = Some FilesystemError) w _).
  unfold_body. walk_tree.
  all: match goal with
       | H : store_exn _ = Some _ |- _ => cbn in H; try discriminate H; injection H as <-
       end.
  all: try congruence.
  all: eexists; split; [reflexivity |]; split; reflexivity.
Qed.

(** X6: the outcome line says what happened: after Skipped nothing was
    written; Saved and Overwritten are printed only after a write that
    returned, Saved without a read of an existing file and Overwritten after
    one; and a write that returned is always reported as one of the
    two. *)
Theorem download_item_log_truthful :
  forall (W : Type) (E : env W) url base_folder w,
    let t := trace (exec E (download_item url base_folder) w) in
    (outcome t = Some Skipped -> calls is_file_write t = 0 /\ calls is_makedirs t <= 1)
    /\ (outcome t = Some Saved ->
          existsb write_returned t = true /\ calls is_file_read t = 0)
    /\ (outcome t = Some Overwritten ->
          existsb write_returned t = true /\ calls is_file_read t = 1)
    /\ (existsb write_returned t = true ->
          outcome t = Some Saved \/ outcome t = Some Overwritten).
Proof.
  intros W E url base_folder w.
  refine (traces_exec E _ (fun t _ =>
    (outcome t = Some Skipped -> calls is_file_write t = 0 /\ calls is_makedirs t <= 1)
    /\ (outcome t = Some Saved ->
          existsb write_returned t = true /\ calls is_file_read t = 0)
    /\ (outcome t = Some Overwritten ->
          existsb write_returned t = true /\ calls is_file_read t = 1)
    /\ (existsb write_returned t = true ->
          outcome t = Some Saved \/ outcome t = Some Overwritten)) w _).
  unfold_body. walk_tree.
  all: cbn; repeat split; try discriminate; auto; lia.
Qed.

(** ** What a fetch leaves alone, on the machine *)

Lemma touched_at_refl l fs : touched_at l fs fs.
Proof. split; auto. Qed.

Lemma touched_at_trans l a b c :
  touched_at l a b -> touched_at l b c -> touched_at l a c.
Proof.
  intros [c1 k1 n1] [c2 k2 n2]. split.
  - congruence.
  - intros x n H Hx. apply k2; [apply k1; assumption | assumption].
  - intros x n H Hx. destruct (n2 x n H Hx) as [H' | ->]; [| right; reflexivity].
    apply (n1 x n H' Hx).
Qed.

Lemma makedirs_touches l fs q exist_ok fs' :
  Fs.makedirs fs q exist_ok = Ok fs' -> touched_at l fs fs'.
Proof.
  unfold Fs.makedirs. destruct (String.eqb q ""); [discriminate |].
  destruct (negb exist_ok && Fs.exists_ fs q); [discriminate |].
  destruct (Fs.mkdirs (Fs.tree fs) (Fs.start fs q) (Str.split "/" q)) as [[tr' l'] |] eqn:Hm;
    [| discriminate].
  intros [= <-]. apply FsFacts.mkdirs_spec in Hm as (_ & _ & Hg). split; cbn.
  - reflexivity.
  - intros x n H _. exact (Fs.grows_keeps _ _ Hg _ _ H).
  - intros x n H _. exact (Fs.grows_new _ _ Hg _ _ H).
Qed.

Lemma write_touches fs p data fs' :
  Fs.write fs p data = Ok fs' -> touched_at (Fs.locate fs p) fs fs'.
Proof.
  unfold Fs.write. destruct (Fs.resolve fs p) as [l |] eqn:Hres; [| discriminate].
  apply FsFacts.resolve_locate in Hres. subst l.
  destruct (Fs.at_loc (Fs.tree fs) (Fs.locate fs p)) as [[r old |] |]; try discriminate.
  all: destruct (bool_decide (Fs.locate fs p ∈ Fs.denied fs)); [discriminate |].
  all: intros [= <-]; split; cbn; [reflexivity | |].
  all: intros x n H Hx; rewrite lookup_insert_ne in * by congruence; auto.
Qed.

Lemma locate_same_cwd fs fs' p : Fs.cwd fs' = Fs.cwd fs -> Fs.locate fs' p = Fs.locate fs p.
Proof. intros H. unfold Fs.locate, Fs.start. rewrite H. reflexivity. Qed.

(** A run whose writes all go to [p] touches the disk at the place of [p]
    only, directories apart. *)
Lemma machine_touches {A} (p : string) (body : prog A) :
  forall w,
    Forall (fun e => writes_only p (ev_call e)) (trace (exec machine body w)) ->
    touched_at (Fs.locate (disk w) p) (disk w) (disk (final (exec machine body w)))
    /\ net (final (exec machine body w)) = net w.
Proof.
  induction body as [a | c k IH]; intros w; cbn [exec].
  - intros _. split; [apply touched_at_refl | reflexivity].
  - destruct (answer machine c w) as [r w1] eqn:Hans.
    specialize (IH r w1).
    destruct (exec machine (k r) w1) as [[a w2] t]. cbn [trace final fst snd] in *.
    intros H. apply Forall_cons in H as [Hc Ht]. destruct (IH Ht) as [Hrest Hnet].
    assert (Hstep : touched_at (Fs.locate (disk w) p) (disk w) (disk w1) /\ net w1 = net w).
    { destruct c as [l | u | u | q | q exist_ok | q | q data | q | prompt]; cbn in Hans, Hc.
      all: try (injection Hans as _ <-; split; [apply touched_at_refl | reflexivity]).
      - destruct (Fs.makedirs (disk w) q exist_ok) as [fs' |] eqn:Hm;
          injection Hans as _ <-; cbn; split; try reflexivity;
          [eapply makedirs_touches; eassumption | apply touched_at_refl].
      - subst q. destruct (Fs.write (disk w) p data) as [fs' |] eqn:Hw;
          injection Hans as _ <-; cbn; split; try reflexivity;
          [apply write_touches in Hw; exact Hw | apply touched_at_refl]. }
    destruct Hstep as [Hstep Hnet1]. split; [| congruence].
    eapply touched_at_trans; [exact Hstep |].
    rewrite (locate_same_cwd _ _ p (same_cwd _ _ _ Hstep)) in Hrest. exact Hrest.
Qed.

(** X7: on the machine, a run leaves the network as it was and changes the
    disk at the local path of its locator at most: every other entry is
    kept, and what is new elsewhere is a directory.  When no local path can
    be computed the disk is unchanged. *)
Theorem download_item_frame :
  forall w url base_folder,
    let x := exec machine (download_item url base_folder) w in
    net (final x) = net w
    /\ (forall p, local_filepath_of base_folder url = Ok p ->
          touched_at (Fs.locate (disk w) p) (disk w) (disk (final x)))
    /\ (forall e, local_filepath_of base_folder url = Raise e -> disk (final x) = disk w).
Proof.
  intros w url base_folder x.
  pose proof (every_call_exec machine _ _ w (download_item_calls url base_folder)) as Hconf.
  fold x in Hconf. cbn [task_call] in Hconf.
  assert (Hw : forall p, local_filepath_of base_folder url = Ok p ->
            Forall (fun e => writes_only p (ev_call e)) (trace x)).
  { intros p Hp. eapply Forall_impl; [exact Hconf |]. cbv beta.
    intros e He. destruct (ev_call e); cbn in *; try exact I. congruence. }
  split; [| split].
  - destruct (local_filepath_of base_folder url) as [p | e] eqn:Hp.
    + exact (proj2 (machine_touches p _ w (Hw p eq_refl))).
    + apply (machine_touches "" _ w). eapply Forall_impl; [exact Hconf |]. cbv beta.
      intros e0 He. destruct (ev_call e0); cbn in *; try exact I. congruence.
  - intros p Hp. exact (proj1 (machine_touches p _ w (Hw p Hp))).
  - intros e Hp. apply machine_frame.
    unfold no_store_change. apply forallb_forall. intros e0 He0.
    rewrite Forall_forall in Hconf. apply list_elem_of_In in He0.
    specialize (Hconf e0 He0). destruct (ev_call e0); cbn in *; try reflexivity.
    + destruct Hconf as (_ & p1 & Hq & _). congruence.
    + congruence.
Qed.

(** ** Edge cases of the content store, on the machine *)

Lemma write_on_directory fs p d :
  Fs.lookup fs p = Some Fs.Dir -> Fs.write fs p d = Raise (Fs.OSError "Is a directory").
Proof.
  intros H. apply StoreFacts.lookup_resolve in H as (l & Hres & Hat).
  unfold Fs.write. rewrite Hres, Hat. reflexivity.
Qed.

Lemma lookup_trailing_slash fs :
  Fs.lookup fs BASE_DOWNLOAD_FOLDER = Some Fs.Dir ->
  Fs.lookup fs (BASE_DOWNLOAD_FOLDER ++ "/") = Some Fs.Dir.
Proof.
  unfold Fs.lookup, Fs.resolve.
  change (Str.split "/" BASE_DOWNLOAD_FOLDER) with [BASE_DOWNLOAD_FOLDER].
  change (Str.split "/" (BASE_DOWNLOAD_FOLDER ++ "/")) with [BASE_DOWNLOAD_FOLDER; ""].
  change (Fs.start fs (BASE_DOWNLOAD_FOLDER ++ "/")) with (Fs.cwd fs).
  change (Fs.start fs BASE_DOWNLOAD_FOLDER) with (Fs.cwd fs).
  change (String.eqb BASE_DOWNLOAD_FOLDER "") with false.
  change (String.eqb (BASE_DOWNLOAD_FOLDER ++ "/") "") with false.
  cbn [Fs.walk].
  destruct (Fs.is_dir (Fs.tree fs) (Fs.cwd fs)); [| discriminate].
  intros H. unfold Fs.is_dir at 1. rewrite H.
  change (Fs.enter (Fs.enter (Fs.cwd fs) BASE_DOWNLOAD_FOLDER) "")
    with (Fs.enter (Fs.cwd fs) BASE_DOWNLOAD_FOLDER).
  exact H.
Qed.

(** X8: a directory where the file is to be stored: the read fails, the
    warning is printed, the write fails too, the run ends as a filesystem
    error and the disk is as before.  A locator with no path, or with the
    path [/], maps to the root folder itself, so this is what happens to it
    once the root folder exists. *)
Theorem directory_in_the_way :
  (forall w url content p,
      net w url = Ok (HttpResponse 200 (Ok content)) ->
      local_filepath_of BASE_DOWNLOAD_FOLDER url = Ok p ->
      Fs.lookup (disk w) p = Some Fs.Dir ->
      let x := exec machine (download_item url BASE_DOWNLOAD_FOLDER) w in
      outcome (trace x) = Some FilesystemError
      /\ In (WARN_unreadable p (Fs.OSError "Is a directory")) (log (trace x))
      /\ disk (final x) = disk w)
  /\ (forall url parsed_url,
        Urllib.urlparse url = Ok parsed_url ->
        Urllib.path parsed_url = "" \/ Urllib.path parsed_url = "/" ->
        local_filepath_of BASE_DOWNLOAD_FOLDER url = Ok (BASE_DOWNLOAD_FOLDER ++ "/")%string)
  /\ (forall fs, Fs.lookup fs BASE_DOWNLOAD_FOLDER = Some Fs.Dir ->
                 Fs.lookup fs (BASE_DOWNLOAD_FOLDER ++ "/") = Some Fs.Dir).
Proof.
  split; [| split; [| exact lookup_trailing_slash]].
  - intros w url content p Hnet Hpath Hdir.
    pose proof (PathFacts.dirname_exists _ _ _ Hdir
                  (MapperFacts.local_path_has_directory _ _ Hpath)) as Hparent.
    assert (Hex : Fs.exists_ (disk w) p = true)
      by (unfold Fs.exists_; rewrite Hdir; reflexivity).
    unfold_body. run_machine. rewrite Hnet. cbn [status body Z.eqb Pos.eqb].
    run_machine. rewrite Hnet. cbn [status body]. rewrite Hpath. run_machine.
    rewrite Hparent. run_machine. rewrite Hex. run_machine.
    unfold Fs.read. rewrite Hdir. run_machine.
    rewrite (write_on_directory _ _ _ Hdir). run_machine.
    cbn. auto.
  - intros url parsed_url Hparse Hp. unfold local_filepath_of. rewrite Hparse.
    cbn [result_bind]. destruct Hp as [-> | ->]; reflexivity.
Qed.


(** ** The query never reaches the path mapper *)

Lemma contains_append c (a b : string) :
  Str.contains c (a ++ b) = Str.contains c a || Str.contains c b.
Proof.
  induction a as [| x a IH]; [reflexivity |].
  rewrite PathFacts.app_cons. cbn [Str.contains]. rewrite IH. apply orb_assoc.
Qed.

Lemma partition_fst_free sep s : Str.contains sep (fst (Str.partition sep s)) = false.
Proof.
  induction s as [| a s IH]; [reflexivity |]. cbn [Str.partition].
  destruct (Str.is_char sep a) eqn:Ha; [reflexivity |].
  destruct (Str.partition sep s) as [h t]. cbn [fst Str.contains] in *.
  rewrite Ha, IH. reflexivity.
Qed.

Lemma partition_fst_sub c sep s :
  Str.contains c s = false -> Str.contains c (fst (Str.partition sep s)) = false.
Proof.
  induction s as [| a s IH]; [reflexivity |]. cbn [Str.partition Str.contains].
  intros H. apply orb_false_iff in H as [Ha Hs].
  destruct (Str.is_char sep a); [reflexivity |].
  destruct (Str.partition sep s) as [h t]. cbn [fst Str.contains] in *.
  rewrite Ha, (IH Hs). reflexivity.
Qed.

Lemma splitparams_sub c url :
  Str.contains c url = false -> Str.contains c (fst (Urllib.splitparams url)) = false.
Proof.
  intros H. unfold Urllib.splitparams.
  destruct (PathFacts.rsplit_spec "/" url) as (Heq & _ & _).
  destruct (Str.rcut "/" url) as [head last]. cbn [fst snd] in Heq.
  destruct (Str.contains ";" last); [| exact H].
  rewrite Heq, contains_append in H. apply orb_false_iff in H as [Hh Hl].
  pose proof (partition_fst_sub c ";" last Hl) as Hb.
  destruct (Str.partition ";" last) as [b a]. cbn [fst] in *.
  rewrite contains_append, Hh, Hb. reflexivity.
Qed.

Lemma urlparse_path_free url parsed_url :
  Urllib.urlparse url = Ok parsed_url ->
  Str.contains "?" (Urllib.path parsed_url) = false
  /\ Str.contains "#" (Urllib.path parsed_url) = false.
Proof.
  unfold Urllib.urlparse.
  destruct (Urllib.split_scheme _) as [scheme u1].
  destruct (if Str.startswith "//" u1 then _ else _) as [netloc u2].
  destruct (xorb _ _); [discriminate |].
  assert (H3 : Str.contains "#"
                 (fst (if Str.contains "#" u2 then Str.partition "#" u2 else (u2, ""))) = false).
  { destruct (Str.contains "#" u2) eqn:H; [apply partition_fst_free | exact H]. }
  destruct (if Str.contains "#" u2 then _ else _) as [u3 fragment]. cbn [fst] in H3.
  assert (H4 : Str.contains "?"
                 (fst (if Str.contains "?" u3 then Str.partition "?" u3 else (u3, ""))) = false
               /\ Str.contains "#"
                 (fst (if Str.contains "?" u3 then Str.partition "?" u3 else (u3, ""))) = false).
  { destruct (Str.contains "?" u3) eqn:H;
      [split; [apply partition_fst_free | apply partition_fst_sub, H3] | split; assumption]. }
  destruct (if Str.contains "?" u3 then _ else _) as [u4 query]. cbn [fst] in H4.
  destruct H4 as [Hq Hf].
  pose proof (splitparams_sub "?" u4 Hq) as Hq5.
  pose proof (splitparams_sub "#" u4 Hf) as Hf5.
  destruct (bool_decide _ && _).
  - destruct (Urllib.splitparams u4) as [u5 params]. intros [= <-]. cbn [Urllib.path fst] in *.
    split; assumption.
  - intros [= <-]. cbn [Urllib.path]. split; assumption.
Qed.

(** X10: the path that [urlparse] returns holds neither [?] nor [#], so the
    [split('?')[0]] of line 27 returns it whole: the local path is the root
    joined with the percent-decoded path, one leading slash removed, and
    query and fragment play no part in it. *)
Theorem query_never_reaches_path :
  forall base_folder url parsed_url,
    Urllib.urlparse url = Ok parsed_url ->
    Str.contains "?" (Urllib.path parsed_url) = false
    /\ Str.contains "#" (Urllib.path parsed_url) = false
    /\ index0 (Str.split "?" (Urllib.path parsed_url)) = Ok (Urllib.path parsed_url)
    /\ local_filepath_of base_folder url =
         Ok (Posixpath.join base_folder
               (MapperSpec.strip_one_separator
                  (Urllib.unquote (Urllib.path parsed_url)))).
Proof.
  intros base_folder url parsed_url Hparse.
  destruct (urlparse_path_free url parsed_url Hparse) as [Hq Hf].
  split; [exact Hq |]. split; [exact Hf |].
  pose proof (PathFacts.split_no_sep "?" _ Hq) as Hsplit.
  split; [rewrite Hsplit; reflexivity |].
  unfold local_filepath_of, path_to_local. rewrite Hparse. cbn [result_bind].
  rewrite Hsplit. cbn [index0 result_bind]. rewrite MapperFacts.strip_one. reflexivity.
Qed.

(** ** The calls of one round of discovery *)

Lemma enqueue_prints p_url v : every_call (fun c => exists l, c = Print l) (enqueue p_url v).
Proof.
  destruct p_url; cbn; try exact I; split; eauto; intros; exact I.
Qed.

Lemma discover_calls json_loads html_path_segment v :
  every_call (listing_call (php_url_of html_path_segment))
    (discover json_loads html_path_segment v).
Proof.
  unfold discover. apply every_call_mbind; [cbn; auto |]. intros _ v1.
  apply every_call_try; [| intros e v'; cbn; auto].
  apply every_call_mbind; [cbn; auto |]. intros status v2.
  destruct (status =? 200)%Z; [| cbn; auto].
  apply every_call_mbind; [cbn; auto |]. intros content v3.
  unfold process_content. apply every_call_try.
  2: { intros e v'. destruct (is_JSONDecodeError e); cbn; auto. }
  apply every_call_mbind; [exact I |]. intros data v4.
  apply every_call_mbind.
  { destruct data; cbn; auto. }
  intros partial_urls v5. apply every_call_for_each. intros x _ v6.
  eapply every_call_impl; [| apply enqueue_prints]. intros c [l ->]. exact I.
Qed.

Lemma calls_cons kind e t :
  calls kind (e :: t) = (if kind (ev_call e) then 1 else 0) + calls kind t.
Proof. unfold calls. cbn [List.filter]. destruct (kind (ev_call e)); reflexivity. Qed.

Lemma warnings_quiet l :
  forall url, fetch_exn url (warnings l) = None
              /\ calls is_get (warnings l) = 0 /\ calls is_body_read (warnings l) = 0.
Proof.
  intros url. unfold warnings. induction (non_strings l) as [| x xs IH]; [repeat split |].
  cbn [map fetch_exn]. rewrite !calls_cons. cbn [ev_call is_get is_body_read]. exact IH.
Qed.

Section DiscoveryRuns.

Variable json_loads : string -> result pyval.

Lemma discover_run html_path_segment v :
  let php_url := php_url_of html_path_segment in
  traces (fun t r =>
            calls is_get t = 1 /\ calls is_body_read t <= 1
            /\ forall e, fetch_exn php_url t = Some e ->
                 r = (v, Ok tt)
                 /\ log t = [INFO_Fetching php_url; ERROR_connect php_url e])
    (discover json_loads html_path_segment v).
Proof.
  intros php_url.
  unfold discover, process_content, try_except, mbind, print, session_get, resp_read,
    total, partial, pure, ret, raise, id. fold php_url.
  cbn [traces bind]. intros [] [status | e]; cbn [traces bind].
  2: { intros []. cbn. rewrite String.eqb_refl. repeat split; try lia.
       all: injection H as <-; reflexivity. }
  destruct (status =? 200)%Z eqn:Hstatus; cbn [traces bind].
  2: { intros []. cbn. rewrite ?String.eqb_refl. repeat split; try lia; discriminate. }
  intros [content | e]; cbn [traces bind].
  2: { intros []. cbn. rewrite ?String.eqb_refl. repeat split; try lia.
       all: injection H as <-; reflexivity. }
  assert (Hshape : forall tail r,
             fetch_exn php_url tail = None -> calls is_get tail = 0 ->
             calls is_body_read tail = 0 ->
             calls is_get (Ev (Print (INFO_Fetching php_url)) tt
                           :: Ev (SessionGet php_url) (Ok status)
                           :: Ev (RespRead php_url) (Ok content) :: tail) = 1
             /\ calls is_body_read (Ev (Print (INFO_Fetching php_url)) tt
                           :: Ev (SessionGet php_url) (Ok status)
                           :: Ev (RespRead php_url) (Ok content) :: tail) <= 1
             /\ forall e, fetch_exn php_url
                          (Ev (Print (INFO_Fetching php_url)) tt
                           :: Ev (SessionGet php_url) (Ok status)
                           :: Ev (RespRead php_url) (Ok content) :: tail) = Some e ->
                  r = (v, Ok tt)
                  /\ log (Ev (Print (INFO_Fetching php_url)) tt
                           :: Ev (SessionGet php_url) (Ok status)
                           :: Ev (RespRead php_url) (Ok content) :: tail)
                     = [INFO_Fetching php_url; ERROR_connect php_url e]).
  { intros tail r Hf Hg Hb. rewrite !calls_cons. cbn [ev_call is_get is_body_read fetch_exn].
    rewrite Hf, Hg, Hb. repeat split; try lia; discriminate. }
  destruct (json_loads (Utf8.decode Utf8.Ignore content)) as [data | e] eqn:Hjson;
    cbn [traces bind].
  2: { destruct (is_JSONDecodeError e); cbn [traces bind]; intros [];
       apply Hshape; reflexivity. }
  destruct data; cbn [traces bind].
  6, 7: repeat apply traces_bind;
    (eapply traces_impl; [| apply enqueue_loop]); cbv beta; intros t r [-> ->];
    cbn [traces bind]; rewrite ?app_nil_r;
    apply Hshape; apply (warnings_quiet _ php_url).
  all: intros []; cbn [traces bind for_each ret]; apply Hshape; reflexivity.
Qed.

End DiscoveryRuns.

(** X11: one round of discovery prints and asks for its own listing, nothing
    else: it sends exactly one request, reads at most one body, and never
    touches the filesystem. *)
Theorem discover_requests_only :
  forall json_loads (W : Type) (E : env W) html_path_segment v w,
    let t := trace (exec E (discover json_loads html_path_segment v) w) in
    Forall (fun e => listing_call (php_url_of html_path_segment) (ev_call e)) t
    /\ calls is_get t = 1 /\ calls is_body_read t <= 1.
Proof.
  intros json_loads W E seg v w t. split.
  - apply every_call_exec, discover_calls.
  - pose proof (traces_exec E _ _ w (discover_run json_loads seg v)) as H.
    cbv beta zeta in H. destruct H as (Hg & Hb & _). split; assumption.
Qed.

(** X12: when the request for a listing or the read of its body raises,
    the round prints the fetching line and the connection error, adds
    nothing to the lists and returns. *)
Theorem discover_connection_failure :
  forall json_loads (W : Type) (E : env W) html_path_segment v w e,
    let php_url := php_url_of html_path_segment in
    let x := exec E (discover json_loads html_path_segment v) w in
    fetch_exn php_url (trace x) = Some e ->
    returned x = (v, Ok tt)
    /\ log (trace x) = [INFO_Fetching php_url; ERROR_connect php_url e].
Proof.
  intros json_loads W E seg v w e php_url x Hraise.
  pose proof (traces_exec E _ _ w (discover_run json_loads seg v)) as H.
  cbv beta zeta in H. destruct H as (_ & _ & H). apply H. exact Hraise.
Qed.

(** ** The calls of the collecting phase and of the batch *)

Lemma collect_after_startup_calls json_loads v :
  every_call collecting_call (collect_after_startup json_loads v).
Proof.
  assert (Hadd : forall A (g : A -> string) l v',
             every_call collecting_call (for_each l (fun x => add_task (g x)) v')).
  { intros A g l v'. rewrite for_each_add_task. exact I. }
  unfold collect_after_startup.
  apply every_call_mbind; [cbn; auto |]. intros _ v1.
  apply every_call_mbind.
  { apply every_call_for_each. intros seg Hseg v'.
    eapply every_call_impl; [| apply discover_calls].
    intros c Hc. destruct c; cbn in *; try exact Hc; eauto. }
  intros _ v2. apply every_call_mbind; [exact I |]. intros v3 v4.
  apply every_call_mbind; [apply (Hadd _ (fun u => u)) |]. intros _ v5.
  apply every_call_mbind; [cbn; auto |]. intros _ v6.
  apply every_call_mbind; [cbn; auto |]. intros _ v7.
  apply every_call_mbind; [apply Hadd |]. intros _ v8.
  apply every_call_mbind; [cbn; auto |]. intros _ v9.
  apply every_call_mbind; [apply Hadd |]. intros _ v10.
  apply every_call_mbind; [cbn; auto |]. intros _ v11.
  apply Hadd.
Qed.

Lemma collect_after_startup_returns json_loads v :
  always (fun r => snd r = Ok tt) (collect_after_startup json_loads v).
Proof.
  unfold collect_after_startup.
  apply always_after_print. apply always_mbind.
  eapply always_impl; [| apply discover_loop].
  intros [v1 r1] (Hr & _). cbn [fst snd] in *. subst r1.
  rewrite (mbind_returns get_locals _ v1 v1 v1 eq_refl).
  rewrite (mbind_returns _ _ _ _ _ (for_each_add_task (fun u => u) _ v1)).
  apply always_after_print. apply always_after_print.
  rewrite (mbind_returns _ _ _ _ _ (for_each_add_task _ _ _)).
  apply always_after_print.
  rewrite (mbind_returns _ _ _ _ _ (for_each_add_task _ _ _)).
  apply always_after_print.
  rewrite for_each_add_task. reflexivity.
Qed.

Section GatherCalls.

Context {W : Type} (E : env W).

Lemma gather_calls (P : call -> Prop) schedule :
  forall pool w, Forall (every_call P) pool ->
    Forall (fun e => P (ev_call e)) (trace (gather E schedule pool w)).
Proof.
  induction schedule as [| i later IH]; intros pool w Hpool; cbn [gather].
  - destruct (verdict pool); constructor.
  - destruct (verdict pool); try constructor.
    destruct (pool !! i) as [[a | c k] |] eqn:Hi; try (apply IH; exact Hpool).
    pose proof (Forall_lookup_1 _ _ _ _ Hpool Hi) as [Hc Hk].
    destruct (answer E c w) as [r w1].
    assert (Hpool' : Forall (every_call P) (<[i := k r]> pool))
      by (apply Forall_insert; [exact Hpool | apply Hk]).
    specialize (IH _ w1 Hpool').
    destruct (gather E later (<[i := k r]> pool) w1) as [[g w2] t].
    constructor; [exact Hc | exact IH].
Qed.

End GatherCalls.

(** X13: under every schedule, each call made while the batch runs is a call
    of one of its tasks, bound to that task's locator and local path: the
    batch requests only its own locators and writes only where they map
    to. *)
Theorem batch_calls_confined :
  forall (W : Type) (E : env W) (batch : list coroutine) (schedule : list nat) (w : W),
    Forall (fun e => exists co, In co batch /\ task_call co (ev_call e))
      (trace (gather E schedule (map coroutine_body batch) w)).
Proof.
  intros W E batch schedule w.
  apply (gather_calls E (fun c => exists co, In co batch /\ task_call co c)).
  apply Forall_forall. intros p Hp.
  apply list_elem_of_In, in_map_iff in Hp as ([url base] & <- & Hin).
  eapply every_call_impl; [| apply download_item_calls].
  intros c Hc. exists (Download_item url base). split; assumption.
Qed.

(** ** [start_downloads] as a whole *)

Lemma collect_tasks_run json_loads :
  traces (fun t r =>
            match snd r with
            | Ok _ => True
            | Raise e =>
                calls is_get t = 0
                /\ exists ev, last t = Some ev
                     /\ (ev = Ev (Abspath BASE_DOWNLOAD_FOLDER) (Raise e)
                         \/ ev = Ev (Makedirs BASE_DOWNLOAD_FOLDER false) (Raise e))
            end)
    (collect_tasks json_loads (Locals [] [])).
Proof.
  assert (Hrest : forall (P : list event -> locals * result unit -> Prop) v,
             (forall t r, snd r = Ok tt -> P t r) ->
             traces P (collect_after_startup json_loads v)).
  { intros P v HP. eapply traces_impl;
      [| apply traces_always, (collect_after_startup_returns json_loads v)].
    cbv beta. intros t r Hr. apply HP, Hr. }
  unfold collect_tasks, mbind, print, os_path_exists, os_makedirs, total, partial, ret, id.
  cbn [traces bind]. intros [] [] [abspath | e]; cbn [traces bind].
  2: { cbn. split; [reflexivity |]. eexists. split; [reflexivity |]. left. reflexivity. }
  intros [] [] [|]; cbn [traces bind negb].
  - apply Hrest. intros t r ->. exact I.
  - intros [[] | e]; cbn [traces bind].
    + intros []. apply Hrest. intros t r ->. exact I.
    + cbn. split; [reflexivity |]. eexists. split; [reflexivity |]. right. reflexivity.
Qed.

Lemma makedirs_makes_directory fs p exist_ok fs' :
  Fs.makedirs fs p exist_ok = Ok fs' -> Fs.lookup fs' p = Some Fs.Dir.
Proof.
  unfold Fs.makedirs. destruct (String.eqb p "") eqn:Hp; [discriminate |].
  destruct (negb exist_ok && Fs.exists_ fs p); [discriminate |].
  destruct (Fs.mkdirs (Fs.tree fs) (Fs.start fs p) (Str.split "/" p)) as [[tr' l] |] eqn:Hm;
    [| discriminate].
  intros [= <-]. apply FsFacts.mkdirs_spec in Hm as (Hwalk & Hdir & _).
  unfold Fs.lookup, Fs.resolve. rewrite Hp.
  change (Fs.start (Fs.mk (Fs.cwd fs) tr' (Fs.denied fs)) p) with (Fs.start fs p).
  cbn [Fs.tree]. rewrite Hwalk. unfold Fs.is_dir in Hdir.
  destruct (Fs.at_loc tr' l) as [[] |]; try discriminate. reflexivity.
Qed.

Lemma collect_after_startup_frame json_loads v w :
  let x := exec machine (collect_after_startup json_loads v) w in
  disk (final x) = disk w /\ snd (returned x) = Ok tt.
Proof.
  intros x. split.
  - apply machine_frame. unfold no_store_change. apply forallb_forall. intros e He.
    pose proof (every_call_exec machine _ _ w (collect_after_startup_calls json_loads v)) as H.
    rewrite Forall_forall in H. apply list_elem_of_In in He. specialize (H e He).
    destruct (ev_call e); cbn in *; try reflexivity; contradiction.
  - apply (always_exec machine _ _ w (collect_after_startup_returns json_loads v)).
Qed.

(** X15: once the collecting phase has returned, the batch holds at least
    the 40 configured tasks, so the run goes on with the line announcing
    their number: the branch for an empty batch is never taken. *)
Theorem start_downloads_batch :
  forall json_loads (W : Type) (E : env W) schedule w,
    let c := exec E (collect_tasks json_loads (Locals [] [])) w in
    let x := start_downloads json_loads E schedule w in
    snd (returned c) = Ok tt ->
    exists n rest,
      40 <= n /\ n = List.length (tasks (fst (returned c)))
      /\ trace x = (trace c ++ Ev (Print (INFO_Starting n)) tt :: rest)%list.
Proof.
  intros json_loads W E schedule w c x. subst c x. unfold start_downloads.
  pose proof (always_exec E _ _ w (collect_tasks_spec json_loads)) as Hc.
  destruct (exec E (collect_tasks json_loads (Locals [] [])) w) as [[[v r] w1] t1].
  cbn [trace returned fst snd] in *. intros ->.
  destruct Hc as (_ & discovered & _ & Hbatch). destruct (Hbatch eq_refl) as [_ Htasks].
  cbn [fst] in Htasks.
  assert (Hlen : 40 <= List.length (tasks v)).
  { rewrite Htasks, length_map, length_app.
    change (List.length static_urls) with 40. lia. }
  unfold run_tasks. destruct (tasks v) as [| co rest] eqn:Hv; [cbn in Hlen; lia |].
  cbn [exec]. destruct (answer E (Print _) w1) as [[] w2].
  destruct (gather E schedule (map coroutine_body (co :: rest)) w2) as [[g w3] t2].
  destruct g.
  - destruct (answer E (Print Finished) w3) as [[] w4].
    destruct (answer E (Input "Press Enter to exit...") w4) as [r w5].
    cbn [snd app]. eexists _, _. split; [exact Hlen |]. split; reflexivity.
  - cbn [snd app]. eexists _, _. split; [exact Hlen |]. split; reflexivity.
  - cbn [snd app]. eexists _, _. split; [exact Hlen |]. split; reflexivity.
Qed.

(** X16: on the machine, the collecting phase leaves the disk alone when the
    root folder exists; when it is missing the disk afterwards is exactly
    what [os.makedirs] made of it, with the root folder a directory and its
    creation reported; and when [os.makedirs] fails the phase ends with that
    exception before any request is sent. *)
Theorem startup_base_folder :
  forall json_loads w,
    let x := exec machine (collect_tasks json_loads (Locals [] [])) w in
    (Fs.exists_ (disk w) BASE_DOWNLOAD_FOLDER = true ->
       disk (final x) = disk w /\ snd (returned x) = Ok tt)
    /\ (forall fs', Fs.exists_ (disk w) BASE_DOWNLOAD_FOLDER = false ->
          Fs.makedirs (disk w) BASE_DOWNLOAD_FOLDER false = Ok fs' ->
          disk (final x) = fs' /\ snd (returned x) = Ok tt
          /\ In (INFO_Created_base BASE_DOWNLOAD_FOLDER) (log (trace x))
          /\ Fs.lookup fs' BASE_DOWNLOAD_FOLDER = Some Fs.Dir)
    /\ (forall e, Fs.exists_ (disk w) BASE_DOWNLOAD_FOLDER = false ->
          Fs.makedirs (disk w) BASE_DOWNLOAD_FOLDER false = Raise e ->
          returned x = (Locals [] [], Raise e) /\ disk (final x) = disk w
          /\ calls is_get (trace x) = 0).
Proof.
  intros json_loads w x. subst x.
  unfold collect_tasks, mbind, print, os_path_exists, os_makedirs, total, partial, ret, id.
  run_machine. split; [| split].
  - intros Hex. rewrite Hex. run_machine.
    match goal with
    | |- context [exec machine (collect_after_startup json_loads ?v) ?w'] =>
        pose proof (collect_after_startup_frame json_loads v w') as [Hd Hr];
        destruct (exec machine (collect_after_startup json_loads v) w') as [[[v1 r1] w2] t2]
    end.
    cbn [returned final fst snd disk] in *. split; assumption.
  - intros fs' Hex Hmk. rewrite Hex. run_machine. rewrite Hmk. run_machine.
    match goal with
    | |- context [exec machine (collect_after_startup json_loads ?v) ?w'] =>
        pose proof (collect_after_startup_frame json_loads v w') as [Hd Hr];
        destruct (exec machine (collect_after_startup json_loads v) w') as [[[v1 r1] w2] t2]
    end.
    cbn [returned final trace fst snd disk] in *.
    split; [exact Hd |]. split; [exact Hr |]. split.
    + cbn. do 4 right. left. reflexivity.
    + apply (makedirs_makes_directory _ _ _ _ Hmk).
  - intros e Hex Hmk. rewrite Hex. run_machine. rewrite Hmk. run_machine.
    repeat split.
Qed.

(** ** What a successful fetch leaves on the disk *)

Lemma write_ok fs p d fs' :
  Fs.write fs p d = Ok fs' ->
  (exists r, Fs.lookup fs' p = Some (Fs.File r d))
  /\ forall q, Fs.exists_ fs q = true -> Fs.exists_ fs' q = true.
Proof.
  intros Hw. destruct (Fs.lookup fs p) as [[r old |] |] eqn:Hl.
  - destruct (StoreFacts.write_existing fs p r old d fs' Hl Hw) as [Hl' Hex].
    split; [eauto | exact Hex].
  - rewrite (write_on_directory _ _ _ Hl) in Hw. discriminate Hw.
  - assert (Hne : Fs.exists_ fs p = false) by (unfold Fs.exists_; rewrite Hl; reflexivity).
    destruct (StoreFacts.write_new fs p d fs' Hne Hw) as [Hl' Hex]. split; [eauto | exact Hex].
Qed.

Lemma read_lookup fs p d : Fs.read fs p = Ok d -> Fs.lookup fs p = Some (Fs.File true d).
Proof.
  unfold Fs.read. destruct (Fs.lookup fs p) as [[[] old |] |]; try discriminate.
  intros [= ->]. reflexivity.
Qed.

(** Whenever [persist] returns, the file is there with the content, and it
    is one that can be read or one that has just been written. *)
Lemma persist_success w p d v :
  let y := exec machine (persist p d v) w in
  snd (returned y) = Ok tt ->
  net (final y) = net w
  /\ Fs.exists_ (disk (final y)) (Posixpath.dirname p) = true
  /\ exists r, Fs.lookup (disk (final y)) p = Some (Fs.File r d)
       /\ (r = false -> Fs.write (disk (final y)) p d = Ok (disk (final y))).
Proof.
  intros y. subst y. unfold_body. run_machine.
  destruct (Fs.exists_ (disk w) (Posixpath.dirname p)) eqn:Hdir; run_machine.
  2: destruct (Fs.makedirs (disk w) (Posixpath.dirname p) true) as [fs1 | e] eqn:Hmk;
       run_machine; [apply StoreFacts.makedirs_exists in Hmk as Hdir1 | intros H; discriminate H].
  all: match goal with
       | |- context [if Fs.exists_ ?fs ?q then _ else _] =>
           destruct (Fs.exists_ fs q) eqn:Hex; run_machine
       end.
  all: repeat match goal with
       | |- context [Fs.read ?fs ?q] =>
           let Hr := fresh "Hread" in
           destruct (Fs.read fs q) as [old | er] eqn:Hr; run_machine
       | |- context [String.eqb ?a ?b] =>
           let He := fresh "Heq" in
           destruct (String.eqb a b) eqn:He; run_machine
       | |- context [Fs.write ?fs ?q ?c] =>
           let Hw := fresh "Hw" in
           destruct (Fs.write fs q c) as [fs2 | e] eqn:Hw; run_machine;
           [apply StoreFacts.write_twice in Hw as Hagain;
            apply write_ok in Hw as [[r Hl] Hkeep] | intros H; discriminate H]
       end.
  all: intros _; split; [reflexivity |]; split; auto.
  all: try (eexists; split; [eassumption | intros _; assumption]).
  all: apply String.eqb_eq in Heq; subst old; apply read_lookup in Hread.
  all: eexists; split; [eassumption | discriminate].
Qed.

Ltac fail_leaf :=
  repeat (case_on_scrutinee; run_machine); cbn;
  let H := fresh "H" in intros [H | [H | H]]; discriminate H.

Lemma download_item_success w url base_folder :
  let x := exec machine (download_item url base_folder) w in
  outcome (trace x) = Some Saved \/ outcome (trace x) = Some Overwritten
  \/ outcome (trace x) = Some Skipped ->
  exists content p r,
    net w url = Ok (HttpResponse 200 (Ok content))
    /\ local_filepath_of base_folder url = Ok p
    /\ net (final x) = net w
    /\ Fs.exists_ (disk (final x)) (Posixpath.dirname p) = true
    /\ Fs.lookup (disk (final x)) p = Some (Fs.File r content)
    /\ (r = false -> Fs.write (disk (final x)) p content = Ok (disk (final x))).
Proof.
  intros x. destruct (net w url) as [[s b] | e] eqn:Hnet.
  - destruct (Z.eqb_spec s 200) as [-> | Hs].
    + destruct b as [content | e].
      * destruct (local_filepath_of base_folder url) as [p | e] eqn:Hpath.
        -- intros H.
           destruct (download_item_200 w url base_folder content p Hnet Hpath)
             as [(Hret & Hfin & _) | Hfs].
           2: { fold x in Hfs. rewrite Hfs in H. destruct H as [H | [H | H]]; discriminate H. }
           fold x in Hfin. rewrite Hfin.
           destruct (persist_success _ p content p Hret) as (Hn & Hd & r & Hl & Hw).
           exists content, p, r. cbn [net] in Hn. auto 6.
        -- subst x. unfold_body. run_machine. rewrite Hnet. cbn [status body Z.eqb Pos.eqb].
           run_machine. rewrite Hnet. cbn [status body]. rewrite Hpath. run_machine. fail_leaf.
      * subst x. unfold_body. run_machine. rewrite Hnet. cbn [status body Z.eqb Pos.eqb].
        run_machine. rewrite Hnet. cbn [status body]. run_machine. fail_leaf.
    + subst x. unfold_body. run_machine. rewrite Hnet. cbn [status body].
      apply Z.eqb_neq in Hs. rewrite Hs. run_machine. fail_leaf.
  - subst x. unfold_body. run_machine. rewrite Hnet. run_machine. fail_leaf.
Qed.

Lemma download_item_again w url base_folder content p r :
  net w url = Ok (HttpResponse 200 (Ok content)) ->
  local_filepath_of base_folder url = Ok p ->
  Fs.exists_ (disk w) (Posixpath.dirname p) = true ->
  Fs.lookup (disk w) p = Some (Fs.File r content) ->
  (r = false -> Fs.write (disk w) p content = Ok (disk w)) ->
  let x := exec machine (download_item url base_folder) w in
  disk (final x) = disk w
  /\ outcome (trace x) = Some (if r then Skipped else Overwritten).
Proof.
  intros Hnet Hpath Hdir Hl Hwrite.
  assert (Hex : Fs.exists_ (disk w) p = true) by (unfold Fs.exists_; rewrite Hl; reflexivity).
  unfold_body. run_machine. rewrite Hnet. cbn [status body Z.eqb Pos.eqb].
  run_machine. rewrite Hnet. cbn [status body]. rewrite Hpath. run_machine.
  rewrite Hdir. run_machine. rewrite Hex. run_machine.
  unfold Fs.read. rewrite Hl. destruct r; run_machine.
  - rewrite String.eqb_refl. run_machine. split; reflexivity.
  - rewrite (Hwrite eq_refl). run_machine. split; reflexivity.
Qed.

(** X17: on the machine, a run that reports Saved, Overwritten or Skipped
    was answered with status 200 and a body, and leaves a regular file at
    the local path of its locator that holds exactly that body. *)
Theorem download_item_stores_body :
  forall w url base_folder,
    let x := exec machine (download_item url base_folder) w in
    outcome (trace x) = Some Saved \/ outcome (trace x) = Some Overwritten
    \/ outcome (trace x) = Some Skipped ->
    exists content p,
      net w url = Ok (HttpResponse 200 (Ok content))
      /\ local_filepath_of base_folder url = Ok p
      /\ file_data (Fs.lookup (disk (final x)) p) = Some content.
Proof.
  intros w url base_folder x H.
  destruct (download_item_success w url base_folder H)
    as (content & p & r & Hn & Hp & _ & _ & Hl & _).
  exists content, p. fold x in Hl. rewrite Hl. auto.
Qed.

(** X18: on the machine, running a fetch again after it has succeeded
    changes nothing on the disk: the second run is Skipped, or Overwritten
    with the same content when the file cannot be read. *)
Theorem download_item_second_run :
  forall w url base_folder,
    let first := exec machine (download_item url base_folder) w in
    let second := exec machine (download_item url base_folder) (final first) in
    outcome (trace first) = Some Saved \/ outcome (trace first) = Some Overwritten
    \/ outcome (trace first) = Some Skipped ->
    disk (final second) = disk (final first)
    /\ (outcome (trace second) = Some Skipped \/ outcome (trace second) = Some Overwritten).
Proof.
  intros w url base_folder first second H.
  destruct (download_item_success w url base_folder H)
    as (content & p & r & Hn & Hp & Hnet & Hd & Hl & Hw).
  fold first in Hnet, Hd, Hl, Hw.
  assert (Hn1 : net (final first) url = Ok (HttpResponse 200 (Ok content)))
    by (rewrite Hnet; exact Hn).
  destruct (download_item_again (final first) url base_folder content p r Hn1 Hp Hd Hl Hw)
    as [Hdisk Hout].
  fold second in Hdisk, Hout. split; [exact Hdisk |].
  rewrite Hout. destruct r; auto.
Qed.

(** ** More of the theorems at work on the example machines *)

Lemma download_item_fetch_exception_witness :
  fetch_exn Demo.bad_url
    (trace (exec machine (download_item Demo.bad_url BASE_DOWNLOAD_FOLDER) Demo.w0))
  = Some Demo.unreachable
  /\ log (trace (exec machine (download_item Demo.bad_url BASE_DOWNLOAD_FOLDER) Demo.w0))
     = [INFO_Processing Demo.bad_url; NETWORK_ERROR Demo.bad_url Demo.unreachable].
Proof.
  assert (H : fetch_exn Demo.bad_url
                (trace (exec machine (download_item Demo.bad_url BASE_DOWNLOAD_FOLDER) Demo.w0))
              = Some Demo.unreachable) by (vm_compute; reflexivity).
  split; [exact H |].
  exact (proj2 (download_item_fetch_exception world machine Demo.bad_url
                  BASE_DOWNLOAD_FOLDER Demo.w0 Demo.unreachable H)).
Defined.

Lemma download_item_store_exception_witness :
  store_exn (trace (exec machine (download_item Demo.good_url BASE_DOWNLOAD_FOLDER)
                      DemoStore.w_dir))
  = Some DemoStore.is_a_directory
  /\ exists p, local_filepath_of BASE_DOWNLOAD_FOLDER Demo.good_url = Ok p
       /\ last (log (trace (exec machine (download_item Demo.good_url BASE_DOWNLOAD_FOLDER)
                              DemoStore.w_dir)))
          = Some (OS_ERROR Demo.good_url p DemoStore.is_a_directory)
       /\ outcome (trace (exec machine (download_item Demo.good_url BASE_DOWNLOAD_FOLDER)
                            DemoStore.w_dir))
          = Some FilesystemError.
Proof.
  assert (H : store_exn (trace (exec machine (download_item Demo.good_url BASE_DOWNLOAD_FOLDER)
                                  DemoStore.w_dir))
              = Some DemoStore.is_a_directory) by (vm_compute; reflexivity).
  split; [exact H |].
  exact (download_item_store_exception world machine Demo.good_url BASE_DOWNLOAD_FOLDER
           DemoStore.w_dir DemoStore.is_a_directory H eq_refl eq_refl).
Defined.

Lemma download_item_log_truthful_witness :
  outcome (trace (exec machine (download_item Demo.good_url BASE_DOWNLOAD_FOLDER) Demo.w0))
  = Some Saved
  /\ existsb write_returned
       (trace (exec machine (download_item Demo.good_url BASE_DOWNLOAD_FOLDER) Demo.w0)) = true
  /\ calls is_file_read
       (trace (exec machine (download_item Demo.good_url BASE_DOWNLOAD_FOLDER) Demo.w0)) = 0.
Proof.
  assert (H : outcome (trace (exec machine (download_item Demo.good_url BASE_DOWNLOAD_FOLDER)
                                Demo.w0)) = Some Saved) by (vm_compute; reflexivity).
  split; [exact H |].
  exact (proj1 (proj2 (download_item_log_truthful world machine Demo.good_url
                         BASE_DOWNLOAD_FOLDER Demo.w0)) H).
Defined.

Lemma download_item_frame_witness :
  local_filepath_of BASE_DOWNLOAD_FOLDER Demo.good_url = Ok DemoStore.good_path
  /\ touched_at (Fs.locate (disk Demo.w0) DemoStore.good_path) (disk Demo.w0)
       (disk (final (exec machine (download_item Demo.good_url BASE_DOWNLOAD_FOLDER) Demo.w0))).
Proof.
  assert (H : local_filepath_of BASE_DOWNLOAD_FOLDER Demo.good_url = Ok DemoStore.good_path)
    by (vm_compute; reflexivity).
  split; [exact H |].
  exact (proj1 (proj2 (download_item_frame Demo.w0 Demo.good_url BASE_DOWNLOAD_FOLDER))
           DemoStore.good_path H).
Defined.

Lemma directory_in_the_way_witness :
  net DemoStore.w_dir Demo.good_url = Ok (HttpResponse 200 (Ok "hello"))
  /\ local_filepath_of BASE_DOWNLOAD_FOLDER Demo.good_url = Ok DemoStore.good_path
  /\ Fs.lookup (disk DemoStore.w_dir) DemoStore.good_path = Some Fs.Dir
  /\ outcome (trace (exec machine (download_item Demo.good_url BASE_DOWNLOAD_FOLDER)
                       DemoStore.w_dir)) = Some FilesystemError
  /\ disk (final (exec machine (download_item Demo.good_url BASE_DOWNLOAD_FOLDER)
                    DemoStore.w_dir)) = disk DemoStore.w_dir.
Proof.
  assert (Hn : net DemoStore.w_dir Demo.good_url = Ok (HttpResponse 200 (Ok "hello")))
    by (vm_compute; reflexivity).
  assert (Hp : local_filepath_of BASE_DOWNLOAD_FOLDER Demo.good_url = Ok DemoStore.good_path)
    by (vm_compute; reflexivity).
  assert (Hd : Fs.lookup (disk DemoStore.w_dir) DemoStore.good_path = Some Fs.Dir)
    by (vm_compute; reflexivity).
  split; [exact Hn |]. split; [exact Hp |]. split; [exact Hd |].
  destruct (proj1 directory_in_the_way DemoStore.w_dir Demo.good_url "hello"
              DemoStore.good_path Hn Hp Hd) as (Ho & _ & Hdisk).
  split; [exact Ho | exact Hdisk].
Defined.


Lemma discover_connection_failure_witness :
  fetch_exn (php_url_of "images")
    (trace (exec machine (discover DemoListing.json_loads "images" (Locals [] [])) Demo.w0))
  = Some Demo.unreachable
  /\ returned (exec machine (discover DemoListing.json_loads "images" (Locals [] [])) Demo.w0)
     = (Locals [] [], Ok tt).
Proof.
  assert (H : fetch_exn (php_url_of "images")
                (trace (exec machine (discover DemoListing.json_loads "images" (Locals [] []))
                          Demo.w0))
              = Some Demo.unreachable) by (vm_compute; reflexivity).
  split; [exact H |].
  exact (proj1 (discover_connection_failure DemoListing.json_loads world machine "images"
                  (Locals [] []) Demo.w0 Demo.unreachable H)).
Defined.

Lemma start_downloads_batch_witness :
  snd (returned (exec machine (collect_tasks DemoListing.json_loads (Locals [] []))
                   DemoListing.w)) = Ok tt
  /\ exists n rest,
       40 <= n
       /\ n = List.length (tasks (fst (returned (exec machine
                 (collect_tasks DemoListing.json_loads (Locals [] [])) DemoListing.w))))
       /\ trace (start_downloads DemoListing.json_loads machine [] DemoListing.w)
          = (trace (exec machine (collect_tasks DemoListing.json_loads (Locals [] []))
                      DemoListing.w)
             ++ Ev (Print (INFO_Starting n)) tt :: rest)%list.
Proof.
  assert (H : snd (returned (exec machine (collect_tasks DemoListing.json_loads (Locals [] []))
                               DemoListing.w)) = Ok tt) by (vm_compute; reflexivity).
  split; [exact H |].
  exact (start_downloads_batch DemoListing.json_loads world machine [] DemoListing.w H).
Defined.

Lemma startup_base_folder_witness :
  Fs.exists_ (disk Demo.w0) BASE_DOWNLOAD_FOLDER = false
  /\ exists fs',
       Fs.makedirs (disk Demo.w0) BASE_DOWNLOAD_FOLDER false = Ok fs'
       /\ disk (final (exec machine (collect_tasks DemoListing.json_loads (Locals [] []))
                         Demo.w0)) = fs'
       /\ Fs.lookup fs' BASE_DOWNLOAD_FOLDER = Some Fs.Dir.
Proof.
  assert (Hex : Fs.exists_ (disk Demo.w0) BASE_DOWNLOAD_FOLDER = false)
    by (vm_compute; reflexivity).
  split; [exact Hex |].
  destruct (Fs.makedirs (disk Demo.w0) BASE_DOWNLOAD_FOLDER false) as [fs' | e] eqn:Hmk;
    [| vm_compute in Hmk; discriminate Hmk].
  exists fs'. split; [reflexivity |].
  destruct (proj1 (proj2 (startup_base_folder DemoListing.json_loads Demo.w0)) fs' Hex Hmk)
    as (Hd & _ & _ & Hl).
  split; [exact Hd | exact Hl].
Defined.

Lemma query_never_reaches_path_witness :
  Urllib.urlparse "https://www.transformice.com/a/b%20c.png?x=1#top"
  = Ok (Urllib.mkParseResult "https" "www.transformice.com" "/a/b%20c.png" "" "x=1" "top")
  /\ local_filepath_of BASE_DOWNLOAD_FOLDER "https://www.transformice.com/a/b%20c.png?x=1#top"
     = Ok (Posixpath.join BASE_DOWNLOAD_FOLDER
             (MapperSpec.strip_one_separator (Urllib.unquote "/a/b%20c.png"))).
Proof.
  assert (H : Urllib.urlparse "https://www.transformice.com/a/b%20c.png?x=1#top"
              = Ok (Urllib.mkParseResult "https" "www.transformice.com" "/a/b%20c.png"
                      "" "x=1" "top")) by (vm_compute; reflexivity).
  split; [exact H |].
  exact (proj2 (proj2 (proj2 (query_never_reaches_path BASE_DOWNLOAD_FOLDER _ _ H)))).
Defined.

Lemma download_item_stores_body_witness :
  outcome (trace (exec machine (download_item Demo.good_url BASE_DOWNLOAD_FOLDER) Demo.w0))
  = Some Saved
  /\ exists content p,
       net Demo.w0 Demo.good_url = Ok (HttpResponse 200 (Ok content))
       /\ local_filepath_of BASE_DOWNLOAD_FOLDER Demo.good_url = Ok p
       /\ file_data (Fs.lookup
                       (disk (final (exec machine
                                       (download_item Demo.good_url BASE_DOWNLOAD_FOLDER)
                                       Demo.w0))) p) = Some content.
Proof.
  assert (H : outcome (trace (exec machine (download_item Demo.good_url BASE_DOWNLOAD_FOLDER)
                                Demo.w0)) = Some Saved) by (vm_compute; reflexivity).
  split; [exact H |].
  exact (download_item_stores_body Demo.w0 Demo.good_url BASE_DOWNLOAD_FOLDER (or_introl H)).
Defined.

Lemma download_item_second_run_witness :
  outcome (trace (exec machine (download_item Demo.good_url BASE_DOWNLOAD_FOLDER) Demo.w0))
  = Some Saved
  /\ disk (final (exec machine (download_item Demo.good_url BASE_DOWNLOAD_FOLDER)
                    (final (exec machine (download_item Demo.good_url BASE_DOWNLOAD_FOLDER)
                              Demo.w0))))
     = disk (final (exec machine (download_item Demo.good_url BASE_DOWNLOAD_FOLDER) Demo.w0)).
Proof.
  assert (H : outcome (trace (exec machine (download_item Demo.good_url BASE_DOWNLOAD_FOLDER)
                                Demo.w0)) = Some Saved) by (vm_compute; reflexivity).
  split; [exact H |].
  exact (proj1 (download_item_second_run Demo.w0 Demo.good_url BASE_DOWNLOAD_FOLDER
                  (or_introl H))).
Defined.

(** * The full script *)

Section FullFacts.

Context {W : Type} (E : Full.env W) (ok : Full.event -> Prop).
Hypothesis answers_ok : forall c w, ok (Full.Ev c (fst (Full.answer E c w))).

Lemma full_traces_exec {A} (p : Full.prog A) :
  forall (P : list Full.event -> A -> Prop) (w : W),
    Full.traces ok P p ->
    P (Full.trace (Full.exec E p w)) (Full.returned (Full.exec E p w)).
Proof.
  induction p as [a | c k IH]; intros P w; cbn; [auto |].
  intros H. pose proof (answers_ok c w) as Hok.
  destruct (Full.answer E c w) as [r w1]. cbn [fst] in Hok.
  specialize (IH r _ w1 (H r Hok)).
  destruct (Full.exec E (k r) w1) as [[a w2] t]. exact IH.
Qed.

End FullFacts.

Lemma full_traces_impl {A} (ok : Full.event -> Prop)
    (P Q : list Full.event -> A -> Prop) (p : Full.prog A) :
  (forall t a, P t a -> Q t a) -> Full.traces ok P p -> Full.traces ok Q p.
Proof.
  revert P Q. induction p as [a | c k IH]; intros P Q HPQ; cbn; [apply HPQ |].
  intros H r Hr. eapply IH; [| apply H, Hr]. cbv beta. intros t a. apply HPQ.
Qed.

Lemma full_traces_bind {A B} (ok : Full.event -> Prop) (p : Full.prog A)
    (f : A -> Full.prog B) :
  forall P : list Full.event -> B -> Prop,
    Full.traces ok (fun t1 a => Full.traces ok (fun t2 b => P (t1 ++ t2)%list b) (f a)) p ->
    Full.traces ok P (Full.bind p f).
Proof.
  induction p as [a | c k IH]; intros P; cbn; [auto |].
  intros H r Hr. apply IH. exact (H r Hr).
Qed.

Lemma full_traces_always {A} (ok : Full.event -> Prop) (P : A -> Prop) (p : Full.prog A) :
  Full.traces ok (fun _ a => P a) p <-> Full.always ok P p.
Proof.
  induction p as [a | c k IH]; cbn; [tauto |].
  split; intros H r Hr; apply IH, H, Hr.
Qed.

Ltac unfold_full :=
  unfold Full.download_item, Full.download_item_body, Full.download_item_handlers,
    Full.on_status_200, Full.persist, Full.ensure_parent, Full.store,
    Full.compare_existing, Full.try_except, Full.mbind, Full.print, Full.session_get,
    Full.resp_read, Full.os_path_exists, Full.os_makedirs, Full.read_file,
    Full.write_file, Full.total, Full.partial, Full.pure, Full.assign, Full.ret, id.

(** An answer is taken apart; one that a calm world does not give is
    dismissed. *)
Ltac calm_answer :=
  match goal with
  | |- forall r, Full.calm (Full.Ev ?c r) -> _ =>
      let r := fresh "r" in
      let Hc := fresh "Hcalm" in
      intros r Hc; cbn in r;
      lazymatch type of r with
      | bool => destruct r
      | _ => destruct r as [? | [? | ?]]
      end;
      cbn in Hc; try (exfalso; exact Hc); try discriminate Hc; clear Hc
  end.

Ltac case_on_full_scrutinee :=
  match goal with
  | |- context [match ?x with _ => _ end] =>
      lazymatch x with
      | context [Full.bind] => fail
      | context [Full.Do] => fail
      | _ => destruct x eqn:?
      end
  end.

Ltac walk_full :=
  repeat first
    [ progress cbn [Full.always Full.within Full.traces Full.must Full.bind negb]
    | calm_answer
    | intros ?
    | case_on_full_scrutinee ].

Lemma full_download_item_within url base_folder :
  Full.within Full.calm 12 (Full.download_item url base_folder).
Proof. unfold_full. walk_full. all: exact I. Qed.

Lemma full_download_item_must url base_folder :
  Full.must Full.calm (SessionGet url) (Full.download_item url base_folder).
Proof.
  unfold_full. cbn [Full.must Full.bind]. right. calm_answer.
  cbn [Full.must Full.bind]. left. reflexivity.
Qed.

Lemma full_download_item_run url base_folder :
  Full.traces Full.calm (fun t r =>
    r = Full.Done tt
    /\ existsb (Full.requested url) t = true
    /\ (exists o, Full.outcome t = Some o)
    /\ (forall e, Full.failure t = Some e -> Full.outcome t = Some (Full.error_class e)))
    (Full.download_item url base_folder).
Proof.
  unfold_full. walk_full.
  all: try match goal with
           | H : match ?x with _ => _ end = _ |- _ => destruct x; discriminate H
           end.
  all: repeat match goal with u : unit |- _ => destruct u end.
  all: cbn; rewrite ?String.eqb_refl; cbn.
  all: repeat split; eauto; try discriminate.
  all: intros ? [= <-]; unfold Full.error_class.
  all: repeat match goal with H : _ = _ |- _ => rewrite H end; reflexivity.
Qed.

(** ** [asyncio.gather] in a calm world *)

Lemma full_verdict_safe pool :
  Forall Full.safe pool -> forall x, Full.verdict pool <> Full.First_raised x.
Proof.
  induction 1 as [| p pool Hp _ IH]; intros x; cbn; [discriminate |].
  destruct p as [[[] | x'] | c k].
  - apply IH.
  - cbn in Hp. discriminate.
  - specialize (IH x). destruct (Full.verdict pool); congruence.
Qed.

Lemma full_verdict_done pool :
  Full.verdict pool = Full.All_done ->
  forall p, In p pool -> exists u, p = Full.Ret (Full.Done u).
Proof.
  induction pool as [| q pool IH]; cbn; intros H p Hin; [contradiction |].
  destruct q as [[u | x] | c k]; try discriminate.
  - destruct Hin as [<- | Hin]; [eauto | auto].
  - destruct (Full.verdict pool); discriminate.
Qed.

Lemma full_verdict_all_returned pool :
  Forall Full.safe pool -> (forall p, In p pool -> Full.within Full.calm 0 p) ->
  Full.verdict pool = Full.All_done.
Proof.
  induction 1 as [| p pool Hp _ IH]; intros H0; cbn; [reflexivity |].
  destruct p as [[[] | x] | c k].
  - apply IH. intros q Hq. apply H0. right. exact Hq.
  - cbn in Hp. discriminate.
  - destruct (H0 (Full.Do c k)). left. reflexivity.
Qed.

Lemma full_safe_insert pool i c k (r : Full.reply c) :
  Forall Full.safe pool -> pool !! i = Some (Full.Do c k) -> Full.calm (Full.Ev c r) ->
  Forall Full.safe (<[i := k r]> pool).
Proof.
  intros Hall Hi Hr. apply Forall_insert; [exact Hall |].
  rewrite Forall_forall in Hall. apply (Hall (Full.Do c k)); [| exact Hr].
  apply list_elem_of_lookup. eauto.
Qed.

Section FullGather.

Context {W : Type} (E : Full.env W).
Hypothesis E_tame : Full.tame E.

Lemma full_gather_never_raises schedule :
  forall pool w, Forall Full.safe pool ->
    forall x, fst (fst (Full.gather E schedule pool w)) <> Full.First_raised x.
Proof.
  induction schedule as [| i later IH]; intros pool w Hsafe x; cbn [Full.gather].
  - pose proof (full_verdict_safe pool Hsafe) as Hv.
    destruct (Full.verdict pool); cbn; [discriminate | apply Hv | discriminate].
  - pose proof (full_verdict_safe pool Hsafe) as Hv.
    destruct (Full.verdict pool); cbn; [discriminate | apply Hv |].
    destruct (pool !! i) as [[a | c k] |] eqn:Hi; try apply IH; try exact Hsafe.
    pose proof (E_tame c w) as Hcalm.
    destruct (Full.answer E c w) as [r w1]. cbn [fst] in Hcalm.
    specialize (IH (<[i := k r]> pool) w1 (full_safe_insert pool i c k r Hsafe Hi Hcalm) x).
    destruct (Full.gather E later (<[i := k r]> pool) w1) as [[g w2] t]. exact IH.
Qed.

Lemma full_gather_completes schedule :
  forall pool w, Forall Full.safe pool -> Full.enough_turns schedule pool ->
    fst (fst (Full.gather E schedule pool w)) = Full.All_done.
Proof.
  induction schedule as [| i later IH]; intros pool w Hsafe Hturns; cbn [Full.gather].
  - rewrite (full_verdict_all_returned pool Hsafe); [reflexivity |].
    intros p Hp. apply list_elem_of_In, list_elem_of_lookup in Hp as [i Hi].
    destruct (Hturns i p Hi) as (n & Hn & Hle). cbn in Hle.
    replace n with 0 in Hn by lia. exact Hn.
  - pose proof (full_verdict_safe pool Hsafe) as Hv.
    destruct (Full.verdict pool) as [| x |]; [reflexivity | destruct (Hv x eq_refl) |].
    destruct (pool !! i) as [[a | c k] |] eqn:Hi.
    + apply IH; [exact Hsafe |]. intros j p Hj.
      destruct (decide (i = j)) as [<- | Hne].
      * rewrite Hi in Hj. injection Hj as <-. exists 0. split; [exact I | lia].
      * destruct (Hturns j p Hj) as (n & Hn & Hle).
        rewrite turns_cons_ne in Hle by exact Hne. eauto.
    + pose proof (E_tame c w) as Hcalm.
      destruct (Full.answer E c w) as [r w1]. cbn [fst] in Hcalm.
      assert (Hgo : fst (fst (Full.gather E later (<[i := k r]> pool) w1)) = Full.All_done).
      { apply IH; [exact (full_safe_insert pool i c k r Hsafe Hi Hcalm) |].
        intros j p Hj. destruct (decide (i = j)) as [<- | Hne].
        - rewrite list_lookup_insert_eq in Hj by (eapply lookup_lt_Some; exact Hi).
          injection Hj as <-.
          destruct (Hturns i _ Hi) as (n & Hn & Hle).
          rewrite turns_cons_eq in Hle.
          destruct n as [| m]; [destruct Hn |]. exists m.
          split; [apply Hn, Hcalm | lia].
        - rewrite list_lookup_insert_ne in Hj by exact Hne.
          destruct (Hturns j p Hj) as (n & Hn & Hle).
          rewrite turns_cons_ne in Hle by exact Hne. eauto. }
      destruct (Full.gather E later (<[i := k r]> pool) w1) as [[g w2] t]. exact Hgo.
    + apply IH; [exact Hsafe |]. intros j p Hj.
      destruct (Hturns j p Hj) as (n & Hn & Hle).
      exists n. split; [exact Hn |].
      destruct (decide (i = j)) as [<- | Hne]; [congruence |].
      rewrite turns_cons_ne in Hle by exact Hne. exact Hle.
Qed.

(** A call that a task cannot end without is made before the batch is
    done. *)
Lemma full_gather_must schedule :
  forall pool w i p c, pool !! i = Some p -> Full.must Full.calm c p ->
    fst (fst (Full.gather E schedule pool w)) = Full.All_done ->
    exists r, In (Full.Ev c r) (Full.trace (Full.gather E schedule pool w)).
Proof.
  induction schedule as [| j later IH]; intros pool w i p c Hi Hmust Hdone;
    cbn [Full.gather] in *.
  - destruct (Full.verdict pool) eqn:Hv; try discriminate.
    destruct (full_verdict_done pool Hv p) as [u ->]; [| destruct Hmust].
    apply list_elem_of_In, list_elem_of_lookup. eauto.
  - destruct (Full.verdict pool) eqn:Hv; try discriminate.
    { destruct (full_verdict_done pool Hv p) as [u ->]; [| destruct Hmust].
      apply list_elem_of_In, list_elem_of_lookup. eauto. }
    destruct (pool !! j) as [[a | c' k'] |] eqn:Hj;
      try (apply (IH pool w i p c Hi Hmust Hdone)).
    pose proof (E_tame c' w) as Hcalm.
    destruct (Full.answer E c' w) as [r w1] eqn:Hans. cbn [fst] in Hcalm.
    destruct (decide (j = i)) as [-> | Hne].
    + rewrite Hi in Hj. injection Hj as ->. cbn [Full.must] in Hmust.
      destruct Hmust as [-> | Hnext].
      * destruct (Full.gather E later _ w1) as [[g w2] t]. exists r. left. reflexivity.
      * assert (Hi' : <[i := k' r]> pool !! i = Some (k' r))
          by (apply list_lookup_insert_eq; eapply lookup_lt_Some; exact Hi).
        specialize (IH (<[i := k' r]> pool) w1 i (k' r) c Hi' (Hnext r Hcalm)).
        destruct (Full.gather E later (<[i := k' r]> pool) w1) as [[g w2] t].
        destruct (IH Hdone) as [r' Hr']. exists r'. right. exact Hr'.
    + assert (Hi' : <[j := k' r]> pool !! i = Some p)
        by (rewrite list_lookup_insert_ne by exact Hne; exact Hi).
      specialize (IH (<[j := k' r]> pool) w1 i p c Hi' Hmust).
      destruct (Full.gather E later (<[j := k' r]> pool) w1) as [[g w2] t].
      destruct (IH Hdone) as [r' Hr']. exists r'. right. exact Hr'.
Qed.

End FullGather.

Lemma full_batch_safe (batch : list coroutine) :
  Forall Full.safe (map Full.coroutine_body batch).
Proof.
  apply Forall_forall. intros p Hp.
  apply list_elem_of_In, in_map_iff in Hp as ([url base] & <- & _).
  unfold Full.safe. apply full_traces_always.
  eapply full_traces_impl; [| apply full_download_item_run]. cbv beta. tauto.
Qed.

Lemma full_requested_in url (r : Full.reply (SessionGet url)) t :
  In (Full.Ev (SessionGet url) r) t -> existsb (Full.requested url) t = true.
Proof.
  intros H. apply existsb_exists. eexists. split; [exact H |].
  cbn. apply String.eqb_refl.
Qed.

(** ** Failure isolation *)

Lemma full_closing_run :
  Full.traces Full.calm
    (fun t r => forall x, snd r = Full.Threw x ->
                  In (Full.Ev (Input "Press Enter to exit...") (Full.Threw x)) t)
    (Full.closing tt)
  /\ Full.traces Full.calm
       (fun t r => forall x, snd r = Full.Threw x ->
                     In (Full.Ev (Input "Press Enter to exit...") (Full.Threw x)) t)
       (Full.no_items tt).
Proof.
  unfold Full.no_items, Full.closing, Full.mbind, Full.print, Full.partial, id.
  split; walk_full.
  all: cbn [snd] in *; try discriminate.
  all: match goal with H : Full.Threw _ = Full.Threw _ |- _ => injection H as <- end.
  all: cbn; auto.
Qed.

Lemma lift_tame {W} (E : env W) : Full.tame (lift E).
Proof.
  intros c w. unfold lift. cbn [Full.answer].
  destruct (answer E c w) as [r w']. cbn [fst].
  destruct c; cbn in r |- *; try destruct r; cbn; auto.
Qed.

(** C3: the fetch worker does let exceptions out: one that does not derive
    from [Exception] passes every handler, and so does one raised by a
    [print], the handlers' own included.  In a world that does neither (the
    console takes every line, and what the network and the filesystem raise
    derives from [Exception]) it never does: every run sends its request,
    returns, and has printed an outcome; when the request, the body read,
    [os.makedirs] or the write raises, that outcome is the network,
    filesystem or unexpected error of the handler that matches.  So a batch
    run by [asyncio.gather] never aborts, and once every task has had its
    turns the run is complete and every locator of the batch was requested,
    those next to an unreachable host included; lines 160-167 of
    [start_downloads] then let no exception through but one raised by the
    final [input]. *)
Theorem fetch_worker_isolation :
  forall (W : Type) (E : Full.env W),
    Full.tame E ->
    (forall url base_folder w,
        let x := Full.exec E (Full.download_item url base_folder) w in
        Full.returned x = Full.Done tt
        /\ existsb (Full.requested url) (Full.trace x) = true
        /\ (exists o, Full.outcome (Full.trace x) = Some o)
        /\ (forall e, Full.failure (Full.trace x) = Some e ->
              Full.outcome (Full.trace x) = Some (Full.error_class e)))
    /\ (forall (batch : list coroutine) (schedule : list nat) (w : W),
          let run := Full.gather E schedule (map Full.coroutine_body batch) w in
          (forall x, fst (fst run) <> Full.First_raised x)
          /\ ((forall i, i < List.length batch -> 12 <= turns i schedule) ->
                fst (fst run) = Full.All_done
                /\ forall c, In c batch ->
                     existsb (Full.requested (coroutine_url c)) (Full.trace run) = true))
    /\ (forall (schedule : list nat) (v : locals) (w : W) (x : Full.raised),
          fst (fst (Full.run_tasks E schedule v w)) = Full.Propagated x ->
          In (Full.Ev (Input "Press Enter to exit...") (Full.Threw x))
             (Full.trace (Full.run_tasks E schedule v w))).
Proof.
  intros W E Htame. split; [| split].
  - intros url base_folder w.
    exact (full_traces_exec E Full.calm Htame _ _ w (full_download_item_run url base_folder)).
  - intros batch schedule w run. subst run. split.
    + apply full_gather_never_raises; [exact Htame | apply full_batch_safe].
    + intros Hturns.
      assert (Hdone : fst (fst (Full.gather E schedule (map Full.coroutine_body batch) w))
                      = Full.All_done).
      { apply full_gather_completes; [exact Htame | apply full_batch_safe |].
        intros i p Hi. exists 12. split.
        - rewrite list_lookup_fmap in Hi. destruct (batch !! i) as [[url base] |]; [| discriminate].
          injection Hi as <-. apply full_download_item_within.
        - apply Hturns. rewrite <- (length_map Full.coroutine_body). eapply lookup_lt_Some, Hi. }
      split; [exact Hdone |]. intros [url base] Hc.
      apply list_elem_of_In, list_elem_of_lookup in Hc as [i Hi].
      assert (Hp : map Full.coroutine_body batch !! i = Some (Full.download_item url base))
        by (rewrite list_lookup_fmap, Hi; reflexivity).
      destruct (full_gather_must E Htame schedule _ w i _ (SessionGet url) Hp
                  (full_download_item_must url base) Hdone) as [r Hr].
      exact (full_requested_in url r _ Hr).
  - intros schedule v w x. destruct full_closing_run as [Hclose Hnone].
    unfold Full.run_tasks. destruct (tasks v) as [| co rest].
    + pose proof (full_traces_exec E Full.calm Htame _ _ w Hnone) as H.
      destruct (Full.exec E (Full.no_items tt) w) as [[[u r] w1] t].
      cbn [Full.trace Full.returned fst snd] in *. destruct r; [discriminate |].
      intros [= ->]. apply H. reflexivity.
    + pose proof (full_traces_exec E Full.calm Htame
                    (Full.print (V := unit) (INFO_Starting (List.length (co :: rest))) tt)
                    (fun _ r => snd r = Full.Done tt) w) as Hstart.
      destruct (Full.exec E (Full.print (INFO_Starting (List.length (co :: rest))) tt) w)
        as [[[u r1] w1] t1].
      cbn [Full.trace Full.returned fst snd] in Hstart.
      rewrite Hstart
        by (unfold Full.print, Full.partial, id; walk_full;
            repeat match goal with u : unit |- _ => destruct u end; reflexivity).
      pose proof (full_gather_never_raises E Htame schedule _ w1 (full_batch_safe (co :: rest)))
        as Hg.
      destruct (Full.gather E schedule (map Full.coroutine_body (co :: rest)) w1)
        as [[g w2] t2].
      cbn [fst] in Hg. destruct g as [| x2 |].
      * pose proof (full_traces_exec E Full.calm Htame _ _ w2 Hclose) as H.
        destruct (Full.exec E (Full.closing tt) w2) as [[[u3 r] w3] t3].
        cbn [Full.trace Full.returned fst snd] in *. destruct r; [discriminate |].
        intros [= ->]. apply in_or_app. right. apply in_or_app. right.
        apply H. reflexivity.
      * exfalso. exact (Hg x2 eq_refl).
      * discriminate.
Qed.

(** C3, as the claim has it, fails.  Behind a console that cannot encode one
    locator, the worker for that locator raises out of its own handler, the
    batch is aborted and the locator next to it is never requested; and a
    worker that is cancelled while it waits for the response lets the
    [CancelledError] through. *)
Lemma fetch_worker_leaks :
  Full.returned (Full.exec DemoFull.picky
                   (Full.download_item DemoFull.odd_url BASE_DOWNLOAD_FOLDER) Demo.w0)
  = Full.Threw (Full.Exc DemoFull.cannot_encode)
  /\ (let run := Full.gather DemoFull.picky (Demo.round_robin 2 12)
                   (map Full.coroutine_body DemoFull.batch) Demo.w0 in
      fst (fst run) = Full.First_raised (Full.Exc DemoFull.cannot_encode)
      /\ existsb (Full.requested Demo.good_url) (Full.trace run) = false)
  /\ Full.returned (Full.exec DemoFull.cancelling
                      (Full.download_item Demo.good_url BASE_DOWNLOAD_FOLDER) Demo.w0)
     = Full.Threw (Full.BaseExc "CancelledError").
Proof.
  split; [vm_compute; reflexivity |]. split; [| vm_compute; reflexivity].
  split; vm_compute; reflexivity.
Qed.

Lemma fetch_worker_isolation_witness :
  Full.tame (lift machine)
  /\ Full.outcome (Full.trace (Full.exec (lift machine)
                     (Full.download_item Demo.bad_url BASE_DOWNLOAD_FOLDER) Demo.w0))
     = Some NetworkError
  /\ (forall i, i < List.length Demo.batch -> 12 <= turns i (Demo.round_robin 2 12))
  /\ fst (fst (Full.gather (lift machine) (Demo.round_robin 2 12)
                 (map Full.coroutine_body Demo.batch) Demo.w0)) = Full.All_done
  /\ existsb (Full.requested Demo.good_url)
       (Full.trace (Full.gather (lift machine) (Demo.round_robin 2 12)
                      (map Full.coroutine_body Demo.batch) Demo.w0)) = true.
Proof.
  pose proof (lift_tame machine) as Htame.
  destruct (fetch_worker_isolation world (lift machine) Htame) as (Hrun & Hbatch & _).
  assert (Hturns : forall i, i < List.length Demo.batch -> 12 <= turns i (Demo.round_robin 2 12)).
  { intros i Hi. destruct i as [| [| i]].
    - vm_compute. apply le_n.
    - vm_compute. apply le_n.
    - cbn in Hi. lia. }
  split; [exact Htame |]. split.
  - destruct (Hrun Demo.bad_url BASE_DOWNLOAD_FOLDER Demo.w0) as (_ & _ & _ & Hfail).
    apply (Hfail Demo.unreachable). vm_compute. reflexivity.
  - split; [exact Hturns |].
    destruct (Hbatch Demo.batch (Demo.round_robin 2 12) Demo.w0) as [_ H].
    destruct (H Hturns) as [Hdone Hall].
    split; [exact Hdone |].
    apply (Hall (Download_item Demo.good_url BASE_DOWNLOAD_FOLDER)).
    right. left. reflexivity.
Defined.

(** ** Which exceptions leave [start_downloads] *)

Lemma accounted_sourced {A} t (r : Full.completion A) : Full.accounted t r -> Full.sourced t r.
Proof.
  destruct r as [a | [e | name]]; cbn; auto.
  intros (ev & Hin & Hthrown & _). eauto.
Qed.

Lemma accounted_app_l {A B} t1 t2 x :
  Full.accounted t1 (Full.Threw x : Full.completion A) ->
  Full.accounted (t1 ++ t2) (Full.Threw x : Full.completion B).
Proof.
  cbn. intros (ev & Hin & Hc). exists ev. split; [| exact Hc]. apply in_or_app. auto.
Qed.

Lemma accounted_app_r {A} t1 t2 (r : Full.completion A) :
  Full.accounted t2 r -> Full.accounted (t1 ++ t2) r.
Proof.
  destruct r as [a | x]; cbn; [auto |]. intros (ev & Hin & Hc). exists ev.
  split; [| exact Hc]. apply in_or_app. auto.
Qed.

Lemma sourced_app_l {A B} t1 t2 x :
  Full.sourced t1 (Full.Threw x : Full.completion A) ->
  Full.sourced (t1 ++ t2) (Full.Threw x : Full.completion B).
Proof.
  destruct x as [e | name]; cbn; auto. intros (ev & Hin & Hc). exists ev.
  split; [| exact Hc]. apply in_or_app. auto.
Qed.

Lemma sourced_app_r {A} t1 t2 (r : Full.completion A) :
  Full.sourced t2 r -> Full.sourced (t1 ++ t2) r.
Proof.
  destruct r as [a | [e | name]]; cbn; auto. intros (ev & Hin & Hc). exists ev.
  split; [| exact Hc]. apply in_or_app. auto.
Qed.

Lemma accounts_sources {V A} (p : Full.prog (V * Full.completion A)) :
  Full.accounts p -> Full.sources p.
Proof.
  apply full_traces_impl. intros t r. apply accounted_sourced.
Qed.

Lemma accounts_mbind {V A B} (m : Full.M V A) (f : A -> Full.M V B) v :
  Full.accounts (m v) -> (forall a v', Full.accounts (f a v')) ->
  Full.accounts (Full.mbind m f v).
Proof.
  intros Hm Hf. unfold Full.accounts, Full.mbind. apply full_traces_bind.
  eapply full_traces_impl; [| exact Hm]. cbv beta. intros t [v' [a | x]] H; cbn [snd] in H.
  - eapply full_traces_impl; [| apply Hf]. cbv beta. intros t2 r. apply accounted_app_r.
  - cbn [Full.traces snd]. apply (accounted_app_l (A := A)). exact H.
Qed.

Lemma sources_mbind {V A B} (m : Full.M V A) (f : A -> Full.M V B) v :
  Full.sources (m v) -> (forall a v', Full.sources (f a v')) ->
  Full.sources (Full.mbind m f v).
Proof.
  intros Hm Hf. unfold Full.sources, Full.mbind. apply full_traces_bind.
  eapply full_traces_impl; [| exact Hm]. cbv beta. intros t [v' [a | x]] H; cbn [snd] in H.
  - eapply full_traces_impl; [| apply Hf]. cbv beta. intros t2 r. apply sourced_app_r.
  - cbn [Full.traces snd]. apply (sourced_app_l (A := A)). exact H.
Qed.

(** What a [try] lets out is what its handlers let out, and what does not
    derive from [Exception]. *)
Lemma accounts_try {V A} (body : Full.M V A) (handler : exn -> Full.M V A) v :
  Full.sources (body v) -> (forall e v', Full.accounts (handler e v')) ->
  Full.accounts (Full.try_except body handler v).
Proof.
  intros Hm Hf. unfold Full.accounts, Full.try_except. apply full_traces_bind.
  eapply full_traces_impl; [| exact Hm]. cbv beta.
  intros t [v' [a | [e | name]]] H; cbn [snd] in H.
  - cbn. exact I.
  - eapply full_traces_impl; [| apply Hf]. cbv beta. intros t2 r. apply accounted_app_r.
  - cbn [Full.traces snd]. cbn in H. destruct H as (ev & Hin & Hthrown).
    exists ev. split; [apply in_or_app; auto |]. split; [exact Hthrown | eauto].
Qed.

Lemma accounts_for_each {V A} (l : list A) (body : A -> Full.M V unit) :
  (forall x v, Full.accounts (body x v)) -> forall v, Full.accounts (Full.for_each l body v).
Proof.
  intros Hbody. induction l as [| x l IH]; intros v; [exact I |].
  cbn [Full.for_each]. apply accounts_mbind; [apply Hbody | intros _; apply IH].
Qed.

Lemma sources_for_each {V A} (l : list A) (body : A -> Full.M V unit) :
  (forall x v, Full.sources (body x v)) -> forall v, Full.sources (Full.for_each l body v).
Proof.
  intros Hbody. induction l as [| x l IH]; intros v; [exact I |].
  cbn [Full.for_each]. apply sources_mbind; [apply Hbody | intros _; apply IH].
Qed.

Lemma accounts_print {V} l (v : V) : Full.accounts (Full.print l v).
Proof.
  intros [[] | x] _; cbn; [exact I |].
  eexists. split; [left; reflexivity |]. split; [reflexivity |]. left. left. reflexivity.
Qed.

Lemma accounts_unguarded {V A} (c : call) (v : V) :
  c = Abspath BASE_DOWNLOAD_FOLDER \/ c = Makedirs BASE_DOWNLOAD_FOLDER false
  \/ c = Input "Press Enter to exit..." ->
  forall (cast : Full.reply c -> Full.completion A),
    (forall r, match cast r with
               | Full.Done _ => True
               | Full.Threw x => Full.thrown (Full.Ev c r) = Some x
               end) ->
    Full.accounts (Full.partial c cast v).
Proof.
  intros Hc cast Hcast r _. cbn. specialize (Hcast r).
  destruct (cast r) as [a | x]; cbn; [exact I |].
  eexists. split; [left; reflexivity |]. split; [exact Hcast |]. left. right. exact Hc.
Qed.

Lemma sources_partial {V A} (c : call) (cast : Full.reply c -> Full.completion A) (v : V) :
  (forall r name, cast r = Full.Threw (Full.BaseExc name) ->
                  Full.thrown (Full.Ev c r) = Some (Full.BaseExc name)) ->
  Full.sources (Full.partial c cast v).
Proof.
  intros Hcast r _. cbn. specialize (Hcast r).
  destruct (cast r) as [a | [e | name]]; cbn; auto.
  eexists. split; [left; reflexivity |]. apply Hcast. reflexivity.
Qed.

Lemma sources_pure {V A} (r : result A) (v : V) : Full.sources (Full.pure r v).
Proof. destruct r; exact I. Qed.

Create HintDb escape.
#[local] Hint Resolve accounts_print accounts_sources sources_pure : escape.

Ltac sourced_call :=
  apply sources_partial; intros ? ? H; cbn in H |- *; unfold id in H; rewrite H; reflexivity.

Lemma full_persist_sources local_filepath content_to_write v :
  Full.sources (Full.persist local_filepath content_to_write v).
Proof.
  unfold Full.persist, Full.ensure_parent, Full.store. cbv zeta.
  apply sources_mbind.
  { apply sources_mbind; [intros r _; exact I |]. intros dir_exists v1.
    destruct dir_exists; cbn [negb]; [exact I |].
    apply sources_mbind; [auto with escape |]. intros _ v2. sourced_call. }
  intros _ v1. apply sources_mbind; [intros r _; exact I |]. intros file_exists v2.
  apply sources_mbind.
  { destruct file_exists; [| exact I]. apply accounts_sources.
    unfold Full.compare_existing. apply accounts_try.
    - apply sources_mbind; [sourced_call |]. intros existing v3.
      destruct (String.eqb existing content_to_write);
        (apply sources_mbind; [auto with escape | intros; exact I]).
    - intros e v3. apply accounts_mbind; [auto with escape | intros; exact I]. }
  intros [] v3; [exact I |].
  apply sources_mbind; [sourced_call | intros; auto with escape].
Qed.

Lemma full_download_item_accounts url base_folder :
  Full.traces Full.any (fun t r => Full.accounted t r) (Full.download_item url base_folder).
Proof.
  unfold Full.download_item. apply full_traces_bind.
  assert (H : Full.accounts (Full.download_item_body url base_folder "N/A")).
  { unfold Full.download_item_body. apply accounts_try.
    - apply sources_mbind; [auto with escape |]. intros _ v1.
      apply sources_mbind; [sourced_call |]. intros status v2.
      destruct (status =? 200)%Z; [| destruct (status =? 404)%Z; auto with escape].
      unfold Full.on_status_200.
      apply sources_mbind; [sourced_call |]. intros content v3.
      apply sources_mbind; [auto with escape |]. intros p v4.
      apply sources_mbind; [exact I |]. intros _ v5. apply full_persist_sources.
    - intros e v'. unfold Full.download_item_handlers.
      destruct (is_ClientError e); [auto with escape |].
      destruct (is_OSError e); [auto with escape |].
      apply accounts_mbind; [auto with escape | intros; auto with escape]. }
  eapply full_traces_impl; [| exact H]. cbv beta. intros t [v r] Hr. cbn [Full.traces].
  rewrite app_nil_r. exact Hr.
Qed.

Section FullDiscovery.

Variable json_loads : string -> result pyval.

Lemma full_enqueue_accounts p_url v : Full.accounts (Full.enqueue p_url v).
Proof. destruct p_url; cbn [Full.enqueue]; auto with escape; exact I. Qed.

Lemma full_discover_accounts html_path_segment v :
  Full.accounts (Full.discover json_loads html_path_segment v).
Proof.
  unfold Full.discover. cbv zeta.
  apply accounts_mbind; [auto with escape |]. intros _ v1.
  apply accounts_try; [| intros; auto with escape].
  apply sources_mbind; [sourced_call |]. intros status v2.
  destruct (status =? 200)%Z; [| auto with escape].
  apply sources_mbind; [sourced_call |]. intros content v3.
  apply accounts_sources. unfold Full.process_content. apply accounts_try.
  - apply sources_mbind; [auto with escape |]. intros data v4.
    apply sources_mbind.
    { destruct data; try exact I.
      all: apply sources_mbind; [auto with escape | intros; exact I]. }
    intros partial_urls v5. apply sources_for_each. intros x v6.
    apply accounts_sources, full_enqueue_accounts.
  - intros e v'. destruct (is_JSONDecodeError e); auto with escape.
Qed.

Lemma full_add_tasks_accounts {A} (g : A -> string) (l : list A) v :
  Full.accounts (Full.for_each l (fun x => Full.add_task (g x)) v).
Proof. apply accounts_for_each. intros x v'. exact I. Qed.

Lemma full_collect_tasks_accounts v :
  Full.accounts (Full.collect_tasks json_loads v).
Proof.
  unfold Full.collect_tasks.
  apply accounts_mbind; [auto with escape |]. intros _ v1.
  apply accounts_mbind; [auto with escape |]. intros _ v2.
  apply accounts_mbind.
  { apply accounts_unguarded; [auto |]. intros [a | x]; cbn; auto. }
  intros abspath v3.
  apply accounts_mbind; [auto with escape |]. intros _ v4.
  apply accounts_mbind; [auto with escape |]. intros _ v5.
  apply accounts_mbind; [intros r _; exact I |]. intros base_exists v6.
  apply accounts_mbind.
  { destruct base_exists; cbn [negb]; [exact I |].
    apply accounts_mbind; [| intros; auto with escape].
    apply accounts_unguarded; [auto |]. intros [a | x]; cbn; auto. }
  intros _ v7. unfold Full.collect_after_startup.
  apply accounts_mbind; [auto with escape |]. intros _ v8.
  apply accounts_mbind.
  { apply accounts_for_each. intros seg v'. apply full_discover_accounts. }
  intros _ v9. apply accounts_mbind; [exact I |]. intros vl v10.
  apply accounts_mbind; [apply (full_add_tasks_accounts (fun u => u)) |]. intros _ v11.
  apply accounts_mbind; [auto with escape |]. intros _ v12.
  apply accounts_mbind; [auto with escape |]. intros _ v13.
  apply accounts_mbind; [apply full_add_tasks_accounts |]. intros _ v14.
  apply accounts_mbind; [auto with escape |]. intros _ v15.
  apply accounts_mbind; [apply full_add_tasks_accounts |]. intros _ v16.
  apply accounts_mbind; [auto with escape |]. intros _ v17.
  apply full_add_tasks_accounts.
Qed.

End FullDiscovery.

Lemma full_closing_accounts v :
  Full.accounts (Full.closing v) /\ Full.accounts (Full.no_items v).
Proof.
  assert (H : forall v', Full.accounts (Full.closing v')).
  { intros v'. unfold Full.closing. apply accounts_mbind; [auto with escape |]. intros _ v1.
    apply accounts_unguarded; [auto |]. intros [a | x]; cbn; auto. }
  split; [apply H |]. unfold Full.no_items.
  apply accounts_mbind; [auto with escape | intros; apply H].
Qed.

Lemma full_verdict_raised pool x :
  Full.verdict pool = Full.First_raised x -> In (Full.Ret (Full.Threw x)) pool.
Proof.
  induction pool as [| p pool IH]; cbn; [discriminate |].
  destruct p as [[u | x'] | c k].
  - auto.
  - intros [= ->]. auto.
  - destruct (Full.verdict pool); try discriminate. intros [= ->]. auto.
Qed.

Section FullRuns.

Context {W : Type} (E : Full.env W).

Lemma any_answers : forall c w, Full.any (Full.Ev c (fst (Full.answer E c w))).
Proof. intros c w. exact I. Qed.

(** Whatever the tasks did before, the exception that ends the batch is
    accounted for by a call that was made. *)
Lemma full_gather_accounts schedule :
  forall pool w before,
    Forall (Full.traces Full.any (fun t r => Full.accounted (before ++ t) r)) pool ->
    forall x, fst (fst (Full.gather E schedule pool w)) = Full.First_raised x ->
      Full.accounted (before ++ Full.trace (Full.gather E schedule pool w))
        (Full.Threw x : Full.completion unit).
Proof.
  assert (Hstop : forall pool before x,
             Forall (Full.traces Full.any (fun t r => Full.accounted (before ++ t) r)) pool ->
             Full.verdict pool = Full.First_raised x ->
             Full.accounted (before ++ []) (Full.Threw x : Full.completion unit)).
  { intros pool before x Hpool Hv. apply full_verdict_raised in Hv.
    rewrite Forall_forall in Hpool. apply list_elem_of_In in Hv.
    exact (Hpool _ Hv). }
  induction schedule as [| i later IH]; intros pool w before Hpool x; cbn [Full.gather].
  - destruct (Full.verdict pool) eqn:Hv; cbn; try discriminate.
    intros [= ->]. exact (Hstop pool before x Hpool Hv).
  - destruct (Full.verdict pool) eqn:Hv; cbn [fst snd Full.trace]; try discriminate.
    { intros [= ->]. exact (Hstop pool before x Hpool Hv). }
    destruct (pool !! i) as [[a | c k] |] eqn:Hi; try (apply IH; exact Hpool).
    destruct (Full.answer E c w) as [r w1].
    assert (Hpool' : Forall (Full.traces Full.any
                               (fun t r0 => Full.accounted ((before ++ [Full.Ev c r]) ++ t) r0))
                       (<[i := k r]> pool)).
    { apply Forall_insert.
      - eapply Forall_impl; [exact Hpool |]. cbv beta. intros p.
        apply full_traces_impl. intros t [u | y]; cbn; [auto |].
        intros (ev & Hin & Hc). exists ev. split; [| exact Hc].
        apply in_app_or in Hin as [Hin | Hin]; apply in_or_app; [left | right; exact Hin].
        apply in_or_app. left. exact Hin.
      - pose proof (Forall_lookup_1 _ _ _ _ Hpool Hi) as Hk. cbn [Full.traces] in Hk.
        eapply full_traces_impl; [| exact (Hk r I)]. cbv beta. intros t r0.
        rewrite <- app_assoc. exact (fun H => H). }
    specialize (IH (<[i := k r]> pool) w1 _ Hpool' x).
    destruct (Full.gather E later (<[i := k r]> pool) w1) as [[g w2] t].
    cbn [fst snd Full.trace] in *. intros Hg. specialize (IH Hg).
    rewrite <- app_assoc in IH. exact IH.
Qed.

Lemma full_run_tasks_accounts schedule v w x :
  fst (fst (Full.run_tasks E schedule v w)) = Full.Propagated x ->
  exists e, In e (Full.trace (Full.run_tasks E schedule v w)) /\ Full.culprit x e.
Proof.
  unfold Full.run_tasks. destruct (tasks v) as [| co rest].
  - pose proof (full_traces_exec E Full.any any_answers _ _ w
                  (proj2 (full_closing_accounts tt))) as H.
    destruct (Full.exec E (Full.no_items tt) w) as [[[u r] w1] t].
    cbn [Full.trace Full.returned fst snd] in *. destruct r; [discriminate |].
    intros [= ->]. exact H.
  - pose proof (full_traces_exec E Full.any any_answers _ _ w
                  (accounts_print (V := unit) (INFO_Starting (List.length (co :: rest))) tt))
      as Hstart.
    destruct (Full.exec E (Full.print (INFO_Starting (List.length (co :: rest))) tt) w)
      as [[[u r1] w1] t1].
    cbn [Full.trace Full.returned fst snd] in Hstart.
    destruct r1 as [[] | x1]; [| intros [= ->]; exact Hstart].
    assert (Hpool : Forall (Full.traces Full.any (fun t r => Full.accounted (t1 ++ t) r))
                      (map Full.coroutine_body (co :: rest))).
    { apply Forall_forall. intros p Hp.
      apply list_elem_of_In, in_map_iff in Hp as ([url base] & <- & _).
      eapply full_traces_impl; [| apply full_download_item_accounts].
      cbv beta. intros t r. apply accounted_app_r. }
    pose proof (full_gather_accounts schedule _ w1 t1 Hpool) as Hg.
    destruct (Full.gather E schedule (map Full.coroutine_body (co :: rest)) w1)
      as [[g w2] t2].
    cbn [fst snd Full.trace] in Hg. destruct g as [| x2 |].
    + pose proof (full_traces_exec E Full.any any_answers _ _ w2
                    (proj1 (full_closing_accounts tt))) as H.
      destruct (Full.exec E (Full.closing tt) w2) as [[[u3 r] w3] t3].
      cbn [Full.trace Full.returned fst snd] in *. destruct r; [discriminate |].
      intros [= ->]. destruct H as (ev & Hin & Hc). exists ev. split; [| exact Hc].
      apply in_or_app. right. apply in_or_app. right. exact Hin.
    + cbn [fst snd Full.trace]. intros [= ->]. exact (Hg x eq_refl).
    + discriminate.
Qed.

End FullRuns.

Section FullCalm.

Context {W : Type} (E : Full.env W).
Hypothesis E_tame : Full.tame E.

Lemma full_exec_calm {A} (p : Full.prog A) :
  forall w, Forall Full.calm (Full.trace (Full.exec E p w)).
Proof.
  induction p as [a | c k IH]; intros w; cbn; [constructor |].
  pose proof (E_tame c w) as Hc. destruct (Full.answer E c w) as [r w1]. cbn [fst] in Hc.
  specialize (IH r w1). destruct (Full.exec E (k r) w1) as [[a w2] t].
  constructor; [exact Hc | exact IH].
Qed.

Lemma full_gather_calm schedule :
  forall pool w, Forall Full.calm (Full.trace (Full.gather E schedule pool w)).
Proof.
  induction schedule as [| i later IH]; intros pool w; cbn [Full.gather].
  - destruct (Full.verdict pool); constructor.
  - destruct (Full.verdict pool); try constructor.
    destruct (pool !! i) as [[a | c k] |]; try apply IH.
    pose proof (E_tame c w) as Hc. destruct (Full.answer E c w) as [r w1]. cbn [fst] in Hc.
    specialize (IH (<[i := k r]> pool) w1).
    destruct (Full.gather E later (<[i := k r]> pool) w1) as [[g w2] t].
    constructor; [exact Hc | exact IH].
Qed.

Lemma full_run_tasks_calm schedule v w :
  Forall Full.calm (Full.trace (Full.run_tasks E schedule v w)).
Proof.
  unfold Full.run_tasks. destruct (tasks v) as [| co rest].
  - pose proof (full_exec_calm (Full.no_items tt) w) as H.
    destruct (Full.exec E (Full.no_items tt) w) as [[[u r] w1] t]. exact H.
  - pose proof (full_exec_calm (Full.print (V := unit)
                                  (INFO_Starting (List.length (co :: rest))) tt) w) as H1.
    destruct (Full.exec E (Full.print (INFO_Starting (List.length (co :: rest))) tt) w)
      as [[[u r1] w1] t1].
    cbn [Full.trace snd] in H1. destruct r1 as [[] | x1]; [| exact H1].
    pose proof (full_gather_calm schedule (map Full.coroutine_body (co :: rest)) w1) as H2.
    destruct (Full.gather E schedule (map Full.coroutine_body (co :: rest)) w1)
      as [[g w2] t2].
    cbn [Full.trace snd] in H2. destruct g.
    + pose proof (full_exec_calm (Full.closing tt) w2) as H3.
      destruct (Full.exec E (Full.closing tt) w2) as [[[u3 r] w3] t3].
      cbn [Full.trace snd] in *. repeat (apply Forall_app; split); assumption.
    + cbn [Full.trace snd]. apply Forall_app; split; assumption.
    + cbn [Full.trace snd]. apply Forall_app; split; assumption.
Qed.

End FullCalm.

(** In a calm world the culprit is one of the three calls that
    [start_downloads] makes outside any [try]. *)
Lemma calm_culprit x e :
  Full.calm e -> Full.culprit x e ->
  Full.thrown e = Some x
  /\ (Full.ev_call e = Abspath BASE_DOWNLOAD_FOLDER
      \/ Full.ev_call e = Makedirs BASE_DOWNLOAD_FOLDER false
      \/ Full.ev_call e = Input "Press Enter to exit...").
Proof.
  unfold Full.calm, Full.culprit, Full.unguarded. intros Hcalm [Hthrown Hwhy].
  rewrite Hthrown in Hcalm. split; [exact Hthrown |].
  destruct x as [ex | name]; [| destruct Hcalm].
  destruct Hwhy as [[Hp | Hc] | [name Hn]]; [congruence | exact Hc | discriminate Hn].
Qed.

(** X14: an exception leaves [start_downloads] only through a call that
    raised it and that nothing handles: a [print], [os.path.abspath] or
    [os.makedirs] on the root folder at startup, or the final [input]; or
    else it is an exception that does not derive from [Exception], raised by
    any call.  That call was made during the run.  On a console that takes
    every line, when what is raised derives from [Exception], only the
    three calls at startup and at the end are left. *)
Theorem start_downloads_propagates :
  (forall json_loads (W : Type) (E : Full.env W) schedule w x,
      let run := Full.start_downloads json_loads E schedule w in
      fst (fst run) = Full.Propagated x ->
      exists e, In e (Full.trace run) /\ Full.culprit x e)
  /\ (forall json_loads (W : Type) (E : Full.env W) schedule w x,
        Full.tame E ->
        let run := Full.start_downloads json_loads E schedule w in
        fst (fst run) = Full.Propagated x ->
        exists e, In e (Full.trace run) /\ Full.thrown e = Some x
          /\ (Full.ev_call e = Abspath BASE_DOWNLOAD_FOLDER
              \/ Full.ev_call e = Makedirs BASE_DOWNLOAD_FOLDER false
              \/ Full.ev_call e = Input "Press Enter to exit...")).
Proof.
  assert (Hany : forall json_loads (W : Type) (E : Full.env W) schedule w x,
             fst (fst (Full.start_downloads json_loads E schedule w)) = Full.Propagated x ->
             exists e, In e (Full.trace (Full.start_downloads json_loads E schedule w))
                       /\ Full.culprit x e).
  { intros json_loads W E schedule w x. unfold Full.start_downloads.
    pose proof (full_traces_exec E Full.any (any_answers E) _ _ w
                  (full_collect_tasks_accounts json_loads (Locals [] []))) as Hc.
    destruct (Full.exec E (Full.collect_tasks json_loads (Locals [] [])) w)
      as [[[v r] w1] t1].
    cbn [Full.trace Full.returned fst snd] in Hc. destruct r as [[] | x1].
    - pose proof (full_run_tasks_accounts E schedule v w1 x) as Hr.
      destruct (Full.run_tasks E schedule v w1) as [[y w2] t2].
      cbn [Full.trace fst snd] in *. intros Hy. destruct (Hr Hy) as (e & Hin & He).
      exists e. split; [apply in_or_app; auto | exact He].
    - cbn [Full.trace fst snd]. intros [= ->]. exact Hc. }
  split; [exact Hany |].
  intros json_loads W E schedule w x Htame run Hx.
  destruct (Hany json_loads W E schedule w x Hx) as (e & Hin & He).
  exists e. split; [exact Hin |]. apply calm_culprit; [| exact He].
  assert (Hcalm : Forall Full.calm (Full.trace run)).
  { subst run. unfold Full.start_downloads.
    pose proof (full_exec_calm E Htame (Full.collect_tasks json_loads (Locals [] [])) w) as H1.
    destruct (Full.exec E (Full.collect_tasks json_loads (Locals [] [])) w)
      as [[[v r] w1] t1].
    cbn [Full.trace snd] in H1. destruct r as [[] | x1]; [| exact H1].
    pose proof (full_run_tasks_calm E Htame schedule v w1) as H2.
    destruct (Full.run_tasks E schedule v w1) as [[y w2] t2].
    cbn [Full.trace snd] in *. apply Forall_app; split; assumption. }
  rewrite Forall_forall in Hcalm. apply Hcalm, list_elem_of_In, Hin.
Qed.

Lemma start_downloads_propagates_witness :
  (fst (fst (Full.start_downloads DemoListing.json_loads DemoFull.cancelling [] Demo.w0))
   = Full.Propagated (Full.BaseExc "CancelledError")
   /\ exists e,
        In e (Full.trace (Full.start_downloads DemoListing.json_loads DemoFull.cancelling
                            [] Demo.w0))
        /\ Full.culprit (Full.BaseExc "CancelledError") e)
  /\ (Full.tame (lift DemoStore.headless)
      /\ fst (fst (Full.start_downloads DemoListing.json_loads (lift DemoStore.headless)
                     (Demo.round_robin 40 12) Demo.w0))
         = Full.Propagated (Full.Exc DemoStore.end_of_input)
      /\ exists e,
           In e (Full.trace (Full.start_downloads DemoListing.json_loads
                               (lift DemoStore.headless) (Demo.round_robin 40 12) Demo.w0))
           /\ Full.thrown e = Some (Full.Exc DemoStore.end_of_input)).
Proof.
  split.
  - assert (H : fst (fst (Full.start_downloads DemoListing.json_loads DemoFull.cancelling
                            [] Demo.w0))
                = Full.Propagated (Full.BaseExc "CancelledError")) by (vm_compute; reflexivity).
    split; [exact H |].
    exact (proj1 start_downloads_propagates DemoListing.json_loads world DemoFull.cancelling
             [] Demo.w0 _ H).
  - pose proof (lift_tame DemoStore.headless) as Htame.
    assert (H : fst (fst (Full.start_downloads DemoListing.json_loads
                            (lift DemoStore.headless) (Demo.round_robin 40 12) Demo.w0))
                = Full.Propagated (Full.Exc DemoStore.end_of_input))
      by (vm_compute; reflexivity).
    split; [exact Htame |]. split; [exact H |].
    destruct (proj2 start_downloads_propagates DemoListing.json_loads world
                (lift DemoStore.headless) (Demo.round_robin 40 12) Demo.w0 _ Htame H)
      as (e & Hin & Hthrown & _).
    exists e. split; [exact Hin | exact Hthrown].
Defined.

(** ** The two scripts agree on a quiet world *)

Lemma agrees_exec {W A B} (E : env W) (f : A -> B) (p : prog A) :
  forall (q : Full.prog B) w,
    agrees f p q ->
    Full.exec (lift E) q w =
      (f (returned (exec E p w)), final (exec E p w), map inject_event (trace (exec E p w))).
Proof.
  induction p as [a | c k IH]; intros q w; cbn [agrees].
  - intros ->. reflexivity.
  - intros (k' & -> & Hk). cbn [exec Full.exec lift Full.answer].
    destruct (answer E c w) as [r w1].
    rewrite (IH r _ w1 (Hk r)).
    destruct (exec E (k r) w1) as [[a w2] t]. reflexivity.
Qed.

Ltac agree_step :=
  first
    [ progress cbn [agrees bind Full.bind inject completed negb]
    | eexists; split; [reflexivity |]
    | match goal with
      | |- forall r : reply _, _ =>
          let r := fresh "r" in intros r; cbn in r; try destruct r
      | |- context [local_filepath_of ?b ?u] => destruct (local_filepath_of b u)
      | |- context [(?s =? 200)%Z] => destruct (s =? 200)%Z
      | |- context [(?s =? 404)%Z] => destruct (s =? 404)%Z
      | |- context [String.eqb ?a ?b] => destruct (String.eqb a b)
      | |- context [is_ClientError ?e] => destruct (is_ClientError e)
      | |- context [is_OSError ?e] => destruct (is_OSError e)
      end ].

Lemma download_item_agrees_tree url base_folder :
  agrees completed (download_item url base_folder) (Full.download_item url base_folder).
Proof.
  unfold_body. unfold_full. repeat agree_step. all: reflexivity.
Qed.

(** On a world that answers as the script above assumes, the full script
    makes the same calls, gets the same answers and ends the same way. *)
Lemma download_item_agrees {W} (E : env W) url base_folder w :
  Full.exec (lift E) (Full.download_item url base_folder) w =
    (completed (returned (exec E (download_item url base_folder) w)),
     final (exec E (download_item url base_folder) w),
     map inject_event (trace (exec E (download_item url base_folder) w))).
Proof. apply agrees_exec, download_item_agrees_tree. Qed.
